(** * Tkinter Breakout: a shallow embedding of [main.py]

    The program is a Python 2 / Tkinter game.  The Tk canvas is modelled as
    a finite map from item handles to items; the Python objects (Ball,
    Paddle, Brick) live in a heap of mutable records addressed by
    references, so that the aliasing between [Game.items], the list handed
    to [Ball.collide] and [Paddle.ball] is the one the program has.
    Methods are computations in a state monad whose state survives a
    raised exception, as the fields of a Python object do. *)

From Stdlib Require Import ZArith QArith Lia.
From stdpp Require Import gmap strings list fin_maps pretty.

Open Scope Z_scope.

(** ** Exceptions and the state/exception monad *)

Inductive exn : Type :=
  | IndexError      (* sequence index out of range *)
  | KeyError        (* dict key not found *)
  | TypeError       (* operand of the wrong type, e.g. [1 * None] *)
  | AttributeError. (* attribute of [None], or of an object of another class *)

Inductive result (A : Type) : Type :=
  | Ok (a : A)
  | Raise (e : exn).
Arguments Ok {A} a.
Arguments Raise {A} e.

(** A computation takes the state and gives a result and the state it left
    behind: what was mutated before an exception stays mutated. *)
Definition M (S A : Type) : Type := S -> result A * S.

Definition ret {S A} (a : A) : M S A := fun s => (Ok a, s).

Definition bind {S A B} (m : M S A) (k : A -> M S B) : M S B :=
  fun s => match m s with
           | (Ok a, s') => k a s'
           | (Raise e, s') => (Raise e, s')
           end.

Definition raise {S A} (e : exn) : M S A := fun s => (Raise e, s).
Definition gets {S A} (f : S -> A) : M S A := fun s => (Ok (f s), s).
Definition modify {S} (f : S -> S) : M S unit := fun s => (Ok tt, f s).

Declare Scope py_scope.
Delimit Scope py_scope with py.
Notation "x <- c1 ;; c2" := (bind c1 (fun x => c2))
  (at level 100, c1 at next level, right associativity) : py_scope.
Notation "c1 ;;; c2" := (bind c1 (fun _ => c2))
  (at level 100, right associativity) : py_scope.
Open Scope py_scope.

(** [for x in l: body x] *)
Fixpoint for_each {S A} (l : list A) (body : A -> M S unit) : M S unit :=
  match l with
  | [] => ret tt
  | x :: l' => body x ;;; for_each l' body
  end.

(** [l[i]] for a non-negative literal index [i]. *)
Definition index {S} (l : list Q) (i : nat) : M S Q :=
  match l !! i with
  | Some x => ret x
  | None => raise IndexError
  end.

(** Run a computation on a component of a larger state. *)
Definition zoom {S T A} (proj : T -> S) (upd : S -> T -> T) (m : M S A) : M T A :=
  fun t => let (r, s') := m (proj t) in (r, upd s' t).

(** ** Rational comparisons, as booleans *)

Definition Qleb (a b : Q) : bool := Qle_bool a b.
Definition Qltb (a b : Q) : bool := negb (Qle_bool b a).

(** ** The canvas

    Items are created with increasing integer handles that are never
    reused.  Coordinates are Tk's floating-point numbers; the game only
    adds integers and halves to them, so they are taken as rationals. *)

Inductive shape : Type := Oval | Rectangle | Text.

Record citem : Type := CItem {
  ci_shape : shape;
  ci_coords : list Q;       (* [x0; y0; x1; y1], or [x; y] for text *)
  ci_fill : string;
  ci_tags : list string;
  ci_text : string;
  ci_font : option (string * Z)
}.

Record Canvas : Type := MkCanvas {
  citems : gmap Z citem;
  next_id : Z;
  winfo_width : Z          (* what [winfo_width()] reports *)
}.

Definition set_citems (f : gmap Z citem -> gmap Z citem) (c : Canvas) : Canvas :=
  MkCanvas (f (citems c)) (next_id c) (winfo_width c).

Definition create_item (it : citem) (c : Canvas) : Z * Canvas :=
  (next_id c, MkCanvas (<[next_id c := it]> (citems c)) (next_id c + 1) (winfo_width c)).

Definition create_oval (x0 y0 x1 y1 : Q) (fill : string) (c : Canvas) : Z * Canvas :=
  create_item (CItem Oval [x0; y0; x1; y1] fill [] "" None) c.

Definition create_rectangle (x0 y0 x1 y1 : Q) (fill : string) (tags : list string)
    (c : Canvas) : Z * Canvas :=
  create_item (CItem Rectangle [x0; y0; x1; y1] fill tags "" None) c.

Definition create_text (x y : Q) (text : string) (font : string * Z) (c : Canvas)
    : Z * Canvas :=
  create_item (CItem Text [x; y] "" [] text (Some font)) c.

(** [canvas.coords(item)]: the empty list for a handle that names no item. *)
Definition coords (item : Z) (c : Canvas) : list Q :=
  match citems c !! item with
  | Some it => ci_coords it
  | None => []
  end.

(** Translate a coordinate list [x0; y0; x1; y1; ...] by [(dx, dy)]. *)
Fixpoint shift (dx dy : Q) (l : list Q) : list Q :=
  match l with
  | x :: y :: l' => (x + dx)%Q :: (y + dy)%Q :: shift dx dy l'
  | _ => l
  end.

Definition shift_item (dx dy : Q) (it : citem) : citem :=
  CItem (ci_shape it) (shift dx dy (ci_coords it)) (ci_fill it) (ci_tags it)
        (ci_text it) (ci_font it).

(** [canvas.move(item, dx, dy)], [canvas.delete(item)] and
    [canvas.itemconfig(item, ...)] do nothing when no item matches. *)
Definition canvas_move (item : Z) (dx dy : Q) (c : Canvas) : Canvas :=
  set_citems (alter (shift_item dx dy) item) c.

Definition canvas_delete (item : Z) (c : Canvas) : Canvas :=
  set_citems (delete item) c.

Definition set_fill (fill : string) (it : citem) : citem :=
  CItem (ci_shape it) (ci_coords it) fill (ci_tags it) (ci_text it) (ci_font it).

Definition set_text (text : string) (it : citem) : citem :=
  CItem (ci_shape it) (ci_coords it) (ci_fill it) (ci_tags it) text (ci_font it).

Definition itemconfig_fill (item : Z) (fill : string) (c : Canvas) : Canvas :=
  set_citems (alter (set_fill fill) item) c.

Definition itemconfig_text (item : Z) (text : string) (c : Canvas) : Canvas :=
  set_citems (alter (set_text text) item) c.

(** [canvas.find_withtag(tag)] *)
Definition has_tag (tag : string) (it : citem) : bool :=
  bool_decide (tag ∈ ci_tags it).

Definition find_withtag (tag : string) (c : Canvas) : list Z :=
  (map_to_list (filter (fun p => has_tag tag p.2 = true) (citems c))).*1.

(** ** Objects

    [GameObject] and its three subclasses.  Every object holds the handle
    of its canvas item; all of them share the one canvas of the game. *)

Abbreviation ref := nat.

Record Ball : Type := MkBall {
  ball_item : Z;
  radius : Z;
  direction : Z * Z;        (* the two-element list [direction] *)
  speed : option Z          (* [None] once the ball is frozen *)
}.

Record Paddle : Type := MkPaddle {
  paddle_item : Z;
  paddle_width : Z;
  paddle_height : Z;
  paddle_ball : option ref  (* the ball carried before the launch *)
}.

Record Brick : Type := MkBrick {
  brick_item : Z;
  brick_width : Z;
  brick_height : Z;
  hits : Z
}.

Inductive obj : Type :=
  | OBall (b : Ball)
  | OPaddle (p : Paddle)
  | OBrick (b : Brick).

Definition item (o : obj) : Z :=
  match o with
  | OBall b => ball_item b
  | OPaddle p => paddle_item p
  | OBrick b => brick_item b
  end.

Record World : Type := MkWorld {
  canvas : Canvas;
  heap : gmap nat obj;
  next_ref : nat
}.

Definition set_canvas (f : Canvas -> Canvas) (w : World) : World :=
  MkWorld (f (canvas w)) (heap w) (next_ref w).

Definition set_heap (f : gmap nat obj -> gmap nat obj) (w : World) : World :=
  MkWorld (canvas w) (f (heap w)) (next_ref w).

(** A new object, at a reference nothing else holds. *)
Definition alloc (o : obj) : M World ref :=
  fun w => (Ok (next_ref w), MkWorld (canvas w) (<[next_ref w := o]> (heap w)) (S (next_ref w))).

(** Canvas constructors as computations on the world. *)
Definition on_canvas {A} (f : Canvas -> A * Canvas) : M World A :=
  fun w => let (a, c) := f (canvas w) in (Ok a, MkWorld c (heap w) (next_ref w)).

(** Following a reference.  A reference to nothing, or a method called on
    an object of another class, has no counterpart in a run of the program;
    the model answers it with [AttributeError]. *)
Definition deref (r : ref) : M World obj :=
  fun w => match heap w !! r with
           | Some o => (Ok o, w)
           | None => (Raise AttributeError, w)
           end.

Definition as_ball (r : ref) : M World Ball :=
  o <- deref r ;; match o with OBall b => ret b | _ => raise AttributeError end.

Definition as_paddle (r : ref) : M World Paddle :=
  o <- deref r ;; match o with OPaddle p => ret p | _ => raise AttributeError end.

Definition as_brick (r : ref) : M World Brick :=
  o <- deref r ;; match o with OBrick b => ret b | _ => raise AttributeError end.

Definition store (r : ref) (o : obj) : M World unit :=
  modify (set_heap (<[r := o]>)).

(** *** GameObject *)

Definition GameObject_get_position (self : ref) : M World (list Q) :=
  o <- deref self ;;
  gets (fun w => coords (item o) (canvas w)).

Definition GameObject_move (self : ref) (x y : Q) : M World unit :=
  o <- deref self ;;
  modify (set_canvas (canvas_move (item o) x y)).

Definition GameObject_delete (self : ref) : M World unit :=
  o <- deref self ;;
  modify (set_canvas (canvas_delete (item o))).

(** *** Brick *)

Definition COLORS : gmap Z string :=
  <[1 := "#999999"]> (<[2 := "#555555"]> (<[3 := "#222222"]> ∅)).

Definition Brick_init (x y : Q) (hits0 : Z) : M World ref :=
  let width := 75 in
  let height := 20 in
  match COLORS !! hits0 with
  | None => raise KeyError
  | Some color =>
      it <- on_canvas (create_rectangle (x - inject_Z (width / 2)) (y - inject_Z (height / 2))
                                        (x + inject_Z (width / 2)) (y + inject_Z (height / 2))
                                        color ["brick"]) ;;
      alloc (OBrick (MkBrick it width height hits0))
  end.

Definition Brick_hit (self : ref) : M World unit :=
  b <- as_brick self ;;
  let h := hits b - 1 in
  store self (OBrick (MkBrick (brick_item b) (brick_width b) (brick_height b) h)) ;;;
  if h =? 0 then GameObject_delete self
  else match COLORS !! h with
       | None => raise KeyError
       | Some color => modify (set_canvas (itemconfig_fill (brick_item b) color))
       end.

(** [isinstance(game_object, Brick)] *)
Definition isinstance_Brick (r : ref) (w : World) : bool :=
  match heap w !! r with
  | Some (OBrick _) => true
  | _ => false
  end.

(** *** Ball *)

Definition Ball_init (x y : Q) : M World ref :=
  let radius := 10 in
  it <- on_canvas (create_oval (x - inject_Z radius) (y - inject_Z radius)
                               (x + inject_Z radius) (y + inject_Z radius) "white") ;;
  alloc (OBall (MkBall it radius (1, -1) (Some 10))).

Definition set_direction (self : ref) (f : Z * Z -> Z * Z) : M World unit :=
  b <- as_ball self ;;
  store self (OBall (MkBall (ball_item b) (radius b) (f (direction b)) (speed b))).

Definition set_speed (self : ref) (s : option Z) : M World unit :=
  b <- as_ball self ;;
  store self (OBall (MkBall (ball_item b) (radius b) (direction b) s)).

(** [self.direction[0] *= -1], [self.direction[1] *= -1],
    [self.direction[0] = v] *)
Definition flip_x (d : Z * Z) : Z * Z := (d.1 * -1, d.2).
Definition flip_y (d : Z * Z) : Z * Z := (d.1, d.2 * -1).
Definition set_x (v : Z) (d : Z * Z) : Z * Z := (v, d.2).

Definition when {S} (b : bool) (m : M S unit) : M S unit :=
  if b then m else ret tt.

Definition Ball_update (self : ref) : M World unit :=
  ball_coords <- GameObject_get_position self ;;
  width <- gets (fun w => winfo_width (canvas w)) ;;
  c0 <- index ball_coords 0 ;;
  at_side <- (if Qleb c0 0 then ret true
              else c2 <- index ball_coords 2 ;; ret (Qleb (inject_Z width) c2)) ;;
  when at_side (set_direction self flip_x) ;;;
  c1 <- index ball_coords 1 ;;
  when (Qleb c1 0) (set_direction self flip_y) ;;;
  b <- as_ball self ;;
  match speed b with
  | None => raise TypeError
  | Some s =>
      let x := (direction b).1 * s in
      let y := (direction b).2 * s in
      GameObject_move self (inject_Z x) (inject_Z y)
  end.

Definition Ball_collide (self : ref) (game_objects : list ref) : M World unit :=
  ball_coords <- GameObject_get_position self ;;
  c0 <- index ball_coords 0 ;;
  c2 <- index ball_coords 2 ;;
  let ball_center_x := ((c0 + c2) * (1 # 2))%Q in
  (if (1 <? length game_objects)%nat then set_direction self flip_y
   else if (length game_objects =? 1)%nat then
     match game_objects with
     | [] => raise IndexError
     | game_object :: _ =>
         coords <- GameObject_get_position game_object ;;
         right <- index coords 2 ;;
         if Qltb right ball_center_x then set_direction self (set_x 1)
         else
           left <- index coords 0 ;;
           if Qltb ball_center_x left then set_direction self (set_x (-1))
           else set_direction self flip_y
     end
   else ret tt) ;;;
  for_each game_objects (fun game_object =>
    is_brick <- gets (isinstance_Brick game_object) ;;
    when is_brick (Brick_hit game_object)).

(** *** Paddle *)

Definition Paddle_init (x y : Q) : M World ref :=
  let width := 80 in
  let height := 10 in
  it <- on_canvas (create_rectangle (x - inject_Z (width / 2)) (y - inject_Z (height / 2))
                                    (x + inject_Z (width / 2)) (y + inject_Z (height / 2))
                                    "blue" []) ;;
  alloc (OPaddle (MkPaddle it width height None)).

Definition Paddle_set_ball (self : ref) (ball : option ref) : M World unit :=
  p <- as_paddle self ;;
  store self (OPaddle (MkPaddle (paddle_item p) (paddle_width p) (paddle_height p) ball)).

Definition Paddle_move (self : ref) (offset : Q) : M World unit :=
  coords <- GameObject_get_position self ;;
  width <- gets (fun w => winfo_width (canvas w)) ;;
  c0 <- index coords 0 ;;
  in_bounds <- (if Qleb 0 (c0 + offset) then
                  c2 <- index coords 2 ;; ret (Qleb (c2 + offset) (inject_Z width))
                else ret false) ;;
  when in_bounds (
    GameObject_move self offset 0 ;;;
    p <- as_paddle self ;;
    match paddle_ball p with
    | None => ret tt
    | Some ball => GameObject_move ball offset 0
    end).

(** ** Game *)

(** What [after] and [bind] are given: bound methods and the lambdas of
    [__init__] and [setup_game]. *)
Inductive callback : Type :=
  | CbSetupGame             (* [self.setup_game] *)
  | CbGameLoop              (* [self.game_loop] *)
  | CbStartGame             (* [lambda _: self.start_game()] *)
  | CbPaddleMove (offset : Z). (* [lambda _: self.paddle.move(offset)] *)

Record Game : Type := MkGame {
  world : World;
  lives : Z;
  width : Z;
  height : Z;
  items : gmap Z nat;       (* canvas handle -> the object drawn by it *)
  ball : option ref;
  paddle_y_start : Z;
  paddle : option ref;      (* attributes are unset until assigned *)
  hud : option Z;
  text : option Z;
  bindings : gmap string callback;  (* key bindings of the canvas *)
  timers : list (Z * callback)      (* pending [after] calls, oldest first *)
}.

Definition set_world (f : World -> World) (g : Game) : Game :=
  MkGame (f (world g)) (lives g) (width g) (height g) (items g) (ball g)
         (paddle_y_start g) (paddle g) (hud g) (text g) (bindings g) (timers g).
Definition set_lives (v : Z) (g : Game) : Game :=
  MkGame (world g) v (width g) (height g) (items g) (ball g)
         (paddle_y_start g) (paddle g) (hud g) (text g) (bindings g) (timers g).
Definition set_items (f : gmap Z nat -> gmap Z nat) (g : Game) : Game :=
  MkGame (world g) (lives g) (width g) (height g) (f (items g)) (ball g)
         (paddle_y_start g) (paddle g) (hud g) (text g) (bindings g) (timers g).
Definition set_ball (v : option ref) (g : Game) : Game :=
  MkGame (world g) (lives g) (width g) (height g) (items g) v
         (paddle_y_start g) (paddle g) (hud g) (text g) (bindings g) (timers g).
Definition set_paddle (v : option ref) (g : Game) : Game :=
  MkGame (world g) (lives g) (width g) (height g) (items g) (ball g)
         (paddle_y_start g) v (hud g) (text g) (bindings g) (timers g).
Definition set_hud (v : option Z) (g : Game) : Game :=
  MkGame (world g) (lives g) (width g) (height g) (items g) (ball g)
         (paddle_y_start g) (paddle g) v (text g) (bindings g) (timers g).
Definition set_text_attr (v : option Z) (g : Game) : Game :=
  MkGame (world g) (lives g) (width g) (height g) (items g) (ball g)
         (paddle_y_start g) (paddle g) (hud g) v (bindings g) (timers g).
Definition set_bindings (f : gmap string callback -> gmap string callback) (g : Game) : Game :=
  MkGame (world g) (lives g) (width g) (height g) (items g) (ball g)
         (paddle_y_start g) (paddle g) (hud g) (text g) (f (bindings g)) (timers g).
Definition set_timers (f : list (Z * callback) -> list (Z * callback)) (g : Game) : Game :=
  MkGame (world g) (lives g) (width g) (height g) (items g) (ball g)
         (paddle_y_start g) (paddle g) (hud g) (text g) (bindings g) (f (timers g)).

(** An entity method, run inside the game. *)
Definition in_world {A} (m : M World A) : M Game A :=
  zoom world (fun w => set_world (fun _ => w)) m.

(** Reading an attribute that holds an object; [None.attr] raises. *)
Definition attr {A} (f : Game -> option A) : M Game A :=
  fun g => match f g with
           | Some a => (Ok a, g)
           | None => (Raise AttributeError, g)
           end.

(** [self.after(ms, callback)] and [self.canvas.bind] / [unbind] *)
Definition after (ms : Z) (cb : callback) : M Game unit :=
  modify (set_timers (fun l => l ++ [(ms, cb)])).
Definition canvas_bind (key : string) (cb : callback) : M Game unit :=
  modify (set_bindings (<[key := cb]>)).
Definition canvas_unbind (key : string) : M Game unit :=
  modify (set_bindings (delete key)).

(** [range(start, stop, step)] for a positive step. *)
Definition py_range (start stop step : Z) : list Z :=
  (fun i => start + Z.of_nat i * step) <$> seq 0 (Z.to_nat ((stop - start + step - 1) / step)).

(** ["Lives: {}".format(lives)] *)
Definition lives_text (lives : Z) : string := "Lives: " +:+ pretty lives.

Section Game.

(** [canvas.find_overlapping(x0, y0, x1, y1)]: the handles of the items
    that overlap the rectangle.  The geometry is Tk's; the game only relies
    on the handles naming items of the canvas. *)
Variable find_overlapping : Canvas -> Q -> Q -> Q -> Q -> list Z.

(** The font size is the string ['40'] by default and the integer [15] for
    the HUD; Tk reads both as numbers, and so does the model. *)
Definition Game_draw_text (x y : Q) (text : string) (size : Z) : M Game Z :=
  let font := ("Helvetica", size) in
  in_world (on_canvas (create_text x y text font)).

Definition Game_update_lives_text : M Game unit :=
  text <- gets (fun g => lives_text (lives g)) ;;
  hud <- gets hud ;;
  match hud with
  | None =>
      h <- Game_draw_text 50 20 text 15 ;;
      modify (set_hud (Some h))
  | Some h => in_world (modify (set_canvas (itemconfig_text h text)))
  end.

Definition Game_add_ball : M Game unit :=
  old <- gets ball ;;
  match old with
  | Some b => in_world (GameObject_delete b)
  | None => ret tt
  end ;;;
  paddle <- attr paddle ;;
  paddle_coords <- in_world (GameObject_get_position paddle) ;;
  c0 <- index paddle_coords 0 ;;
  c2 <- index paddle_coords 2 ;;
  let x := ((c0 + c2) * (1 # 2))%Q in
  b <- in_world (Ball_init x 310) ;;
  modify (set_ball (Some b)) ;;;
  in_world (Paddle_set_ball paddle (Some b)).

Definition Game_add_brick (x y : Q) (hits : Z) : M Game unit :=
  brick <- in_world (Brick_init x y hits) ;;
  o <- in_world (deref brick) ;;
  modify (set_items (<[item o := brick]>)).

Definition Game_setup_game : M Game unit :=
  Game_add_ball ;;;
  Game_update_lives_text ;;;
  t <- Game_draw_text 300 200 "Press Spacebar to start" 40 ;;
  modify (set_text_attr (Some t)) ;;;
  canvas_bind "<space>" CbStartGame.

Definition Game_check_collisions : M Game unit :=
  ball <- attr ball ;;
  ball_coords <- in_world (GameObject_get_position ball) ;;
  found <- match ball_coords with
           | [x0; y0; x1; y1] =>
               gets (fun g => find_overlapping (canvas (world g)) x0 y0 x1 y1)
           | _ => raise TypeError
           end ;;
  collideables <- gets (fun g => omap (fun x => items g !! x) found) ;;
  in_world (Ball_collide ball collideables).

Definition Game_game_loop : M Game unit :=
  Game_check_collisions ;;;
  num_bricks <- gets (fun g => length (find_withtag "brick" (canvas (world g)))) ;;
  if (num_bricks =? 0)%nat then
    ball <- attr ball ;;
    in_world (set_speed ball None) ;;;
    Game_draw_text 300 200 "You've won!" 40 ;;;
    ret tt
  else
    ball <- attr ball ;;
    pos <- in_world (GameObject_get_position ball) ;;
    bottom <- index pos 3 ;;
    height <- gets height ;;
    if Qleb (inject_Z height) bottom then
      in_world (set_speed ball None) ;;;
      modify (fun g => set_lives (lives g - 1) g) ;;;
      lives <- gets lives ;;
      if lives <? 0 then
        Game_draw_text 300 200 "Game Over" 40 ;;;
        ret tt
      else after 1000 CbSetupGame
    else
      in_world (Ball_update ball) ;;;
      after 50 CbGameLoop.

Definition Game_start_game : M Game unit :=
  canvas_unbind "<space>" ;;;
  t <- attr text ;;
  in_world (modify (set_canvas (canvas_delete t))) ;;;
  paddle <- attr paddle ;;
  in_world (Paddle_set_ball paddle None) ;;;
  Game_game_loop.

(** [Game.__init__]; [ww] is the width Tk reports for the packed canvas. *)
Definition Game_new (ww : Z) : Game :=
  MkGame (MkWorld (MkCanvas ∅ 1 ww) ∅ 0) 3 610 400 ∅ None 326 None None None ∅ [].

Definition Game_init_body : M Game unit :=
  width <- gets width ;;
  y <- gets paddle_y_start ;;
  p <- in_world (Paddle_init (inject_Z (width / 2)) (inject_Z y)) ;;
  modify (set_paddle (Some p)) ;;;
  po <- in_world (deref p) ;;
  modify (set_items (<[item po := p]>)) ;;;
  for_each (py_range 5 (width - 5) 75) (fun x =>
    Game_add_brick (inject_Z x + (75 # 2)) 50 2 ;;;
    Game_add_brick (inject_Z x + (75 # 2)) 70 1 ;;;
    Game_add_brick (inject_Z x + (75 # 2)) 90 1) ;;;
  modify (set_hud None) ;;;
  Game_setup_game ;;;
  canvas_bind "<Left>" (CbPaddleMove (-10)) ;;;
  canvas_bind "<Right>" (CbPaddleMove 10).

Definition Game_init (ww : Z) : result unit * Game := Game_init_body (Game_new ww).

(** What Tk's main loop does with a callback, and with the oldest pending
    timer. *)
Definition run_callback (cb : callback) : M Game unit :=
  match cb with
  | CbSetupGame => Game_setup_game
  | CbGameLoop => Game_game_loop
  | CbStartGame => Game_start_game
  | CbPaddleMove offset => p <- attr paddle ;; in_world (Paddle_move p (inject_Z offset))
  end.

Definition next_callback : M Game (option callback) :=
  pending <- gets timers ;;
  match pending with
  | [] => ret None
  | (_, cb) :: rest => modify (set_timers (fun _ => rest)) ;;; ret (Some cb)
  end.

Definition fire : M Game unit :=
  cb <- next_callback ;;
  match cb with
  | None => ret tt
  | Some cb => run_callback cb
  end.

Fixpoint ticks (n : nat) : M Game unit :=
  match n with
  | O => ret tt
  | S n' => fire ;;; ticks n'
  end.

End Game.

(** An overlap query that compares bounding boxes, borders included; used
    to run the game on concrete states. *)
Definition box_overlaps (x0 y0 x1 y1 : Q) (l : list Q) : bool :=
  match l with
  | [a0; b0; a1; b1] => Qleb a0 x1 && Qleb x0 a1 && Qleb b0 y1 && Qleb y0 b1
  | _ => false
  end.

Definition bbox_overlapping (c : Canvas) (x0 y0 x1 y1 : Q) : list Z :=
  (map_to_list (filter (fun p => box_overlaps x0 y0 x1 y1 (ci_coords p.2) = true)
                       (citems c))).*1.


(** ** Auxiliary definitions for the statements *)

(** The brick after [self.hits -= 1]. *)
Definition dec_hits (b : Brick) : Brick :=
  MkBrick (brick_item b) (brick_width b) (brick_height b) (hits b - 1).

(** The game as [Game.__init__] leaves it, on a canvas 610 wide. *)
Definition game0 : Game := Eval vm_compute in (Game_init 610).2.

(** [game0] after the space bar was pressed and 19 more ticks went by, as
    the main loop is about to call [game_loop] again: the ball (reference
    25) touches the brick at reference 21 from below. *)
Definition game_at_brick : Game :=
  Eval vm_compute in
    ((Game_start_game bbox_overlapping ;;; ticks bbox_overlapping 19 ;;; next_callback) game0).2.

(** ... and after 47 ticks: the ball has come down beside the paddle and
    its bottom edge is at the playfield height. *)
Definition game_at_floor : Game :=
  Eval vm_compute in
    ((Game_start_game bbox_overlapping ;;; ticks bbox_overlapping 47 ;;; next_callback) game0).2.

(** ... and after the tick that notices the miss. *)
Definition game_missed : Game :=
  Eval vm_compute in (Game_game_loop bbox_overlapping game_at_floor).2.

(** [game_at_floor], on the last life. *)
Definition game_at_floor_last_life : Game := Eval vm_compute in set_lives 0 game_at_floor.

(** A game with a single brick, one hit left, placed at the floor, and the
    ball launched and then moved onto it: the ball's bottom edge is at the
    playfield height while it touches the last brick. *)
Definition game_last_brick : Game :=
  Eval vm_compute in
    ((p <- in_world (Paddle_init 305 326) ;;
      modify (set_paddle (Some p)) ;;;
      po <- in_world (deref p) ;;
      modify (set_items (<[item po := p]>)) ;;;
      Game_add_brick 425 395 1 ;;;
      Game_setup_game ;;;
      Game_start_game bbox_overlapping ;;;
      next_callback ;;;
      b <- attr ball ;;
      in_world (GameObject_move b 110 90)) (Game_new 610)).2.

(** [game0] after the brick at reference 2 (one hit left) was hit. *)
Definition game0_hit2 : Game := Eval vm_compute in (in_world (Brick_hit 2) game0).2.

(** The ball with another direction, or another speed. *)
Definition with_direction (b : Ball) (d : Z * Z) : Ball :=
  MkBall (ball_item b) (radius b) d (speed b).
Definition with_speed (b : Ball) (s : option Z) : Ball :=
  MkBall (ball_item b) (radius b) (direction b) s.

(** Both components of a direction are signs. *)
Definition dir_ok (d : Z * Z) : Prop :=
  (d.1 = 1 \/ d.1 = -1) /\ (d.2 = 1 \/ d.2 = -1).

(** The direction update of [collide] in the words of the specification:
    [n] colliding entities, the ball's horizontal centre, and the left and
    right edge of the entity when there is exactly one. *)
Definition collide_direction_spec (n : nat) (center left right : Q) (d : Z * Z) : Z * Z :=
  if (2 <=? n)%nat then (d.1, - d.2)
  else if (n =? 1)%nat then
    if Qltb right center then (1, d.2)
    else if Qltb center left then (-1, d.2)
    else (d.1, - d.2)
  else d.

(** The bounding box the canvas reports for the item of an object. *)
Definition entity_box (w : World) (o : ref) : option (Q * Q * Q * Q) :=
  match heap w !! o with
  | Some ob =>
      match coords (item ob) (canvas w) with
      | [l; t; r; u] => Some (l, t, r, u)
      | _ => None
      end
  | None => None
  end.

(** An entity that can collide: an object drawn on the canvas, with a
    hit-counter in {1,2,3} if it is a brick. *)
Definition live (w : World) (o : ref) : Prop :=
  is_Some (entity_box w o) /\
  forall br, heap w !! o = Some (OBrick br) -> 1 <= hits br <= 3.

(** The loop that ends [collide]. *)
Definition hit_bricks (game_objects : list ref) : M World unit :=
  for_each game_objects (fun game_object =>
    is_brick <- gets (isinstance_Brick game_object) ;;
    when is_brick (Brick_hit game_object)).

(** One hit notification, on the object. *)
Definition hit_obj (o : obj) : obj :=
  match o with
  | OBrick br => OBrick (dec_hits br)
  | _ => o
  end.

(** A computation keeps the property [P] of the state, also when it raises. *)
Definition keeps {S A} (P : S -> Prop) (m : M S A) : Prop :=
  forall s, P s -> P (m s).2.

(** [self] is a ball that satisfies [F]. *)
Definition ball_sat (self : ref) (F : Ball -> Prop) (w : World) : Prop :=
  exists b, heap w !! self = Some (OBall b) /\ F b.

(** [F] survives the direction update [f]. *)
Definition steady (F : Ball -> Prop) (f : Z * Z -> Z * Z) : Prop :=
  forall b, F b -> F (with_direction b (f (direction b))).

(** [g] is [g0] with, at most, another world. *)
Definition same_frame (g0 g : Game) : Prop := g = set_world (fun _ => world g) g0.

(** The ball [b] is [bl] up to its direction. *)
Definition same_ball (bl : Ball) (b' : Ball) : Prop :=
  b' = with_direction bl (direction b').


(** ** The invariant of a game in play *)

(** [f] holds of every entry of a map. *)
Definition all_entries {K A} `{Countable K} (f : K -> A -> bool) (m : gmap K A) : bool :=
  forallb (fun p => f p.1 p.2) (map_to_list m).

(** An entry [k -> r] of [Game.items]: [r] is a paddle or a brick drawn by
    the item [k], a handle the canvas has given out; while the item is on
    the canvas it has a box, and a brick has 1 to 3 hits left. *)
Definition entry_okb (w : World) (k : Z) (r : ref) : bool :=
  (k <? next_id (canvas w)) &&
  match heap w !! r with
  | None | Some (OBall _) => false
  | Some ob =>
      bool_decide (item ob = k) &&
      match citems (canvas w) !! k with
      | None => true
      | Some it =>
          (length (ci_coords it) =? 4)%nat &&
          match ob with
          | OBrick br => (1 <=? hits br) && (hits br <=? 3)
          | _ => true
          end
      end
  end.

(** The game has a ball that is drawn on the canvas by an item of its own. *)
Definition ball_okb (g : Game) : bool :=
  match ball g with
  | Some b =>
      match heap (world g) !! b with
      | Some (OBall bl) =>
          (length (coords (ball_item bl) (canvas (world g))) =? 4)%nat &&
          match items g !! ball_item bl with
          | None => true
          | Some _ => false
          end
      | _ => false
      end
  | None => false
  end.

Definition game_wfb (g : Game) : bool :=
  all_entries (fun k _ => k <? next_id (canvas (world g))) (citems (canvas (world g))) &&
  all_entries (entry_okb (world g)) (items g) &&
  ball_okb g.

(** The same, as propositions. *)
Definition entry_ok (w : World) (k : Z) (r : ref) : Prop :=
  k < next_id (canvas w) /\
  exists ob, heap w !! r = Some ob /\ item ob = k /\ (forall bl, ob <> OBall bl) /\
    forall it, citems (canvas w) !! k = Some it ->
      length (ci_coords it) = 4%nat /\ forall br, ob = OBrick br -> 1 <= hits br <= 3.

Definition ball_ok (g : Game) (b : ref) (bl : Ball) : Prop :=
  ball g = Some b /\ heap (world g) !! b = Some (OBall bl) /\
  length (coords (ball_item bl) (canvas (world g))) = 4%nat /\
  items g !! ball_item bl = None.

Definition game_wf (g : Game) : Prop :=
  (forall k it, citems (canvas (world g)) !! k = Some it -> k < next_id (canvas (world g))) /\
  (forall k r, items g !! k = Some r -> entry_ok (world g) k r) /\
  exists b bl, ball_ok g b bl.

(** What an overlap query may be relied on for: it lists handles of items
    of the canvas, each once. *)
Definition overlap_sound (find_overlapping : Canvas -> Q -> Q -> Q -> Q -> list Z) : Prop :=
  forall c x0 y0 x1 y1,
    NoDup (find_overlapping c x0 y0 x1 y1) /\
    forall k, k ∈ find_overlapping c x0 y0 x1 y1 -> is_Some (citems c !! k).

(** The canvas [c] has the items of [c0] or fewer, with the coordinates they
    had, and has given out no new handle. *)
Definition canvas_shrinks (c0 c : Canvas) : Prop :=
  next_id c = next_id c0 /\
  forall k it, citems c !! k = Some it ->
    exists it0, citems c0 !! k = Some it0 /\ ci_coords it = ci_coords it0.

(** ** Events, and the invariant of the whole game *)

(** What reaches the game from Tk's main loop: a key press, or the expiry
    of the oldest pending timer. *)
Inductive event : Type :=
  | KeyPress (key : string)
  | TimerExpired.

Section Events.

Variable find_overlapping : Canvas -> Q -> Q -> Q -> Q -> list Z.

(** A key press runs the callback bound to the key, if there is one. *)
Definition handle_event (ev : event) : M Game unit :=
  match ev with
  | KeyPress key =>
      bound <- gets (fun g => bindings g !! key) ;;
      match bound with
      | Some cb => run_callback find_overlapping cb
      | None => ret tt
      end
  | TimerExpired => fire find_overlapping
  end.

Definition mainloop (evs : list event) : M Game unit := for_each evs handle_event.

End Events.

(** Two objects of the same class drawn by the same item; a paddle is the
    same paddle. *)
Definition same_kind (o o' : obj) : Prop :=
  match o, o' with
  | OBall b, OBall b' => ball_item b' = ball_item b
  | OBrick b, OBrick b' => brick_item b' = brick_item b
  | OPaddle p, OPaddle p' => p' = p
  | _, _ => False
  end.

(** The heap of [w] has the objects of [h0], of the same kind, and no
    others; no reference was handed out since. *)
Definition heap_like (h0 : gmap nat obj) (n : nat) (w : World) : Prop :=
  next_ref w = n /\
  forall r, match h0 !! r with
            | None => heap w !! r = None
            | Some o => exists o', heap w !! r = Some o' /\ same_kind o o'
            end.

(** References in use are below the next reference. *)
Definition heap_wf (w : World) : Prop :=
  forall r o, heap w !! r = Some o -> (r < next_ref w)%nat.

(** The paddle of the game is registered in [Game.items], drawn, and
    carries no ball or the ball of the game. *)
Definition paddle_ok (g : Game) (p : ref) (pd : Paddle) : Prop :=
  paddle g = Some p /\ heap (world g) !! p = Some (OPaddle pd) /\
  items g !! paddle_item pd = Some p /\
  length (coords (paddle_item pd) (canvas (world g))) = 4%nat /\
  forall r, paddle_ball pd = Some r -> ball g = Some r.

(** What holds of a game whatever its state of play. *)
Definition base (g : Game) : Prop :=
  game_wf g /\ heap_wf (world g) /\ exists p pd, paddle_ok g p pd.

(** Waiting for the space bar: nothing is scheduled, the ball has a speed
    and the prompt is an item of its own. *)
Definition awaiting (g : Game) : Prop :=
  timers g = [] /\
  exists t b bl s,
    text g = Some t /\ ball g = Some b /\ heap (world g) !! b = Some (OBall bl) /\
    speed bl = Some s /\ t <> ball_item bl /\ items g !! t = None.

(** Keys move the paddle; the space bar starts the game, while it is
    awaited. *)
Definition bindings_ok (g : Game) : Prop :=
  forall k cb, bindings g !! k = Some cb ->
    (exists offset, cb = CbPaddleMove offset) \/
    (cb = CbStartGame /\ k = "<space>" /\ awaiting g).

(** At most one timer is pending: the next tick, for a ball that has a
    speed, or the next serve. *)
Definition timers_ok (g : Game) : Prop :=
  timers g = [] \/
  (exists ms, timers g = [(ms, CbSetupGame)]) \/
  (exists ms b bl s, timers g = [(ms, CbGameLoop)] /\ ball g = Some b /\
                     heap (world g) !! b = Some (OBall bl) /\ speed bl = Some s).

Definition game_inv (g : Game) : Prop :=
  base g /\ bindings_ok g /\ timers_ok g.

(** No key starts the game. *)
Definition no_start (g : Game) : Prop :=
  forall k cb, bindings g !! k = Some cb -> exists offset, cb = CbPaddleMove offset.

(** The attributes of the game that only [__init__], [setup_game] and
    [start_game] assign. *)
Definition fixed_attrs (g0 g : Game) : Prop :=
  items g = items g0 /\ ball g = ball g0 /\ paddle g = paddle g0 /\ hud g = hud g0 /\
  text g = text g0 /\ bindings g = bindings g0 /\ width g = width g0 /\ height g = height g0.

(** [g'] differs from [g] at most in the canvas and in the handle of the
    HUD. *)
Definition same_but_canvas (g g' : Game) : Prop :=
  heap (world g') = heap (world g) /\ next_ref (world g') = next_ref (world g) /\
  items g' = items g /\ ball g' = ball g /\ paddle g' = paddle g /\ text g' = text g /\
  bindings g' = bindings g /\ timers g' = timers g /\ lives g' = lives g.


(** Boolean forms of [heap_wf] and of the shape of the bindings. *)
Definition heap_wfb (w : World) : bool :=
  all_entries (fun r _ => Nat.ltb r (next_ref w)) (heap w).

Definition bindings_okb (g : Game) : bool :=
  all_entries (fun k cb => match cb with
                           | CbPaddleMove _ => true
                           | CbStartGame => String.eqb k "<space>"
                           | _ => false
                           end) (bindings g).

(** The canvas reports the width [ww]. *)
Definition set_winfo_width (ww : Z) (c : Canvas) : Canvas :=
  MkCanvas (citems c) (next_id c) ww.


Definition no_startb (g : Game) : bool :=
  all_entries (fun _ cb => match cb with CbPaddleMove _ => true | _ => false end) (bindings g).

(** No brick has more than three hits left. *)
Definition bricks_bounded (w : World) : Prop :=
  forall r b, heap w !! r = Some (OBrick b) -> hits b <= 3.

Definition bricks_boundedb (w : World) : bool :=
  all_entries (fun _ o => match o with OBrick b => hits b <=? 3 | _ => true end) (heap w).

(** * Properties *)

(** ** Running computations *)

Lemma bind_ok {S A B} (m : M S A) (k : A -> M S B) s a s' :
  m s = (Ok a, s') -> bind m k s = k a s'.
Proof. unfold bind. now intros ->. Qed.

Lemma bind_raise {S A B} (m : M S A) (k : A -> M S B) s e s' :
  m s = (Raise e, s') -> bind m k s = (Raise e, s').
Proof. unfold bind. now intros ->. Qed.

Lemma deref_ok w r o : heap w !! r = Some o -> deref r w = (Ok o, w).
Proof. unfold deref. now intros ->. Qed.

Lemma as_ball_ok w r b : heap w !! r = Some (OBall b) -> as_ball r w = (Ok b, w).
Proof. intros H. unfold as_ball. now rewrite (bind_ok _ _ _ _ _ (deref_ok _ _ _ H)). Qed.

Lemma as_brick_ok w r b : heap w !! r = Some (OBrick b) -> as_brick r w = (Ok b, w).
Proof. intros H. unfold as_brick. now rewrite (bind_ok _ _ _ _ _ (deref_ok _ _ _ H)). Qed.

Lemma as_paddle_ok w r p : heap w !! r = Some (OPaddle p) -> as_paddle r w = (Ok p, w).
Proof. intros H. unfold as_paddle. now rewrite (bind_ok _ _ _ _ _ (deref_ok _ _ _ H)). Qed.

Lemma get_position_ok w r o :
  heap w !! r = Some o -> GameObject_get_position r w = (Ok (coords (item o) (canvas w)), w).
Proof.
  intros H. unfold GameObject_get_position.
  now rewrite (bind_ok _ _ _ _ _ (deref_ok _ _ _ H)).
Qed.

(** ** Rationals *)

Lemma Qleb_le a b : Qleb a b = true <-> (a <= b)%Q.
Proof. apply Qle_bool_iff. Qed.

Lemma Qltb_lt a b : Qltb a b = true <-> (a < b)%Q.
Proof.
  unfold Qltb. rewrite negb_true_iff, <- not_true_iff_false, Qle_bool_iff.
  split; [apply Qnot_le_lt | apply Qlt_not_le].
Qed.

Lemma Qleb_nle a b : Qleb a b = false <-> ~ (a <= b)%Q.
Proof. rewrite <- Qleb_le. destruct (Qleb a b); intuition congruence. Qed.

Lemma Qltb_nlt a b : Qltb a b = false <-> ~ (a < b)%Q.
Proof. rewrite <- Qltb_lt. destruct (Qltb a b); intuition congruence. Qed.

(** Adding the literal [0] gives the very same fraction back. *)
Lemma Qplus_0_r_eq (q : Q) : (q + 0)%Q = q.
Proof.
  destruct q as [n d]. unfold Qplus. cbn [Qnum Qden].
  f_equal; [lia | apply Pos.mul_1_r].
Qed.

(** ** The colour table *)

Lemma COLORS_lookup h :
  COLORS !! h =
    if decide (h = 1) then Some "#999999"
    else if decide (h = 2) then Some "#555555"
    else if decide (h = 3) then Some "#222222"
    else None.
Proof.
  unfold COLORS.
  repeat (rewrite lookup_insert; case_decide; [subst; repeat case_decide; try lia; done|]).
  rewrite lookup_empty. repeat case_decide; try lia; done.
Qed.

Lemma COLORS_some h : 1 <= h <= 3 -> exists color, COLORS !! h = Some color.
Proof. intros H. rewrite COLORS_lookup. repeat case_decide; eauto; lia. Qed.

Lemma COLORS_none h : ~ (1 <= h <= 3) -> COLORS !! h = None.
Proof. intros H. rewrite COLORS_lookup. repeat case_decide; try lia; done. Qed.

(** ** Brick *)

(** What [hit] does to a brick that may be hit. *)
Lemma Brick_hit_run w r b :
  heap w !! r = Some (OBrick b) -> 1 <= hits b <= 3 ->
  Brick_hit r w =
    (Ok tt,
     MkWorld (if hits b - 1 =? 0 then canvas_delete (brick_item b) (canvas w)
              else match COLORS !! (hits b - 1) with
                   | Some color => itemconfig_fill (brick_item b) color (canvas w)
                   | None => canvas w
                   end)
             (<[r := OBrick (dec_hits b)]> (heap w)) (next_ref w)).
Proof.
  intros Hr Hh. unfold Brick_hit.
  rewrite (bind_ok _ _ _ _ _ (as_brick_ok _ _ _ Hr)).
  unfold store, modify, bind, set_heap; cbn.
  destruct (hits b - 1 =? 0) eqn:E.
  - unfold GameObject_delete, bind, deref; cbn.
    rewrite lookup_insert_eq. reflexivity.
  - apply Z.eqb_neq in E.
    destruct (COLORS_some (hits b - 1)) as [color ->]; [lia|]. reflexivity.
Qed.

(** C9. Constructing a Brick fails fast on a hit count outside {1,2,3}:
    [Brick.__init__] raises KeyError at the colour lookup, before any canvas
    item is created and leaving the world as it was; with a hit count in
    {1,2,3} it succeeds, drawing one rectangle tagged "brick" and returning
    a Brick with that hit count. *)
Theorem Brick_init_fails_fast (x y : Q) (h : Z) (w : World) :
  (~ (1 <= h <= 3) -> Brick_init x y h w = (Raise KeyError, w)) /\
  (1 <= h <= 3 ->
   exists color,
     COLORS !! h = Some color /\
     Brick_init x y h w =
       (Ok (next_ref w),
        MkWorld (create_rectangle (x - 37) (y - 10) (x + 37) (y + 10) color ["brick"]
                                  (canvas w)).2
                (<[next_ref w := OBrick (MkBrick (next_id (canvas w)) 75 20 h)]> (heap w))
                (S (next_ref w)))).
Proof.
  split; intros H; unfold Brick_init.
  - now rewrite COLORS_none.
  - destruct (COLORS_some h H) as [color Hc]. exists color. split; [exact Hc|].
    rewrite Hc. reflexivity.
Qed.

(** *** The hit counter is bounded *)

Lemma all_entries_lookup {K A} `{Countable K} (f : K -> A -> bool) (m : gmap K A) :
  all_entries f m = true <-> forall k a, m !! k = Some a -> f k a = true.
Proof.
  unfold all_entries. rewrite forallb_forall. split.
  - intros Hall k a Hk. apply (Hall (k, a)). apply list_elem_of_In.
    now apply elem_of_map_to_list.
  - intros Hall [k a] Hin. apply list_elem_of_In, elem_of_map_to_list in Hin. now apply Hall.
Qed.

Lemma bricks_boundedb_spec w : bricks_boundedb w = true -> bricks_bounded w.
Proof.
  unfold bricks_boundedb. rewrite all_entries_lookup. intros Hall r b Hr.
  specialize (Hall r _ Hr). now apply Z.leb_le in Hall.
Qed.

Lemma bricks_bounded_insert w c n r o :
  bricks_bounded w -> (forall b, o = OBrick b -> hits b <= 3) ->
  bricks_bounded (MkWorld c (<[r := o]> (heap w)) n).
Proof.
  intros Hw Ho r' b Hr. cbn in Hr. destruct (decide (r = r')) as [<-|Hne].
  - rewrite lookup_insert_eq in Hr. injection Hr as ->. now apply Ho.
  - rewrite lookup_insert_ne in Hr by exact Hne. exact (Hw r' b Hr).
Qed.

Lemma bricks_bounded_delete r : keeps bricks_bounded (GameObject_delete r).
Proof.
  intros w Hw. unfold GameObject_delete, bind, deref.
  destruct (heap w !! r); exact Hw.
Qed.

(** [Brick.__init__] builds no brick with a counter above 3, ... *)
Lemma bricks_bounded_Brick_init x y h : keeps bricks_bounded (Brick_init x y h).
Proof.
  intros w Hw. unfold Brick_init.
  destruct (decide (1 <= h <= 3)) as [Hin|Hout];
    [|rewrite COLORS_none by exact Hout; exact Hw].
  destruct (COLORS_some h Hin) as [c ->]. unfold bind, on_canvas, alloc. cbn.
  apply bricks_bounded_insert; [exact Hw|]. intros b [= <-]. cbn. lia.
Qed.

(** ... and [hit] only counts down, whether it returns or raises. *)
Lemma bricks_bounded_Brick_hit r : keeps bricks_bounded (Brick_hit r).
Proof.
  intros w Hw. unfold Brick_hit, as_brick, bind, deref.
  destruct (heap w !! r) as [[bl|p|br]|] eqn:Hr; cbn; try exact Hw.
  assert (Hafter : bricks_bounded (set_heap (<[r := OBrick
            (MkBrick (brick_item br) (brick_width br) (brick_height br) (hits br - 1))]>) w)).
  { apply bricks_bounded_insert; [exact Hw|]. intros b [= <-]. cbn.
    specialize (Hw r br Hr). lia. }
  destruct (hits br - 1 =? 0).
  - now apply bricks_bounded_delete.
  - destruct (COLORS !! (hits br - 1)); exact Hafter.
Qed.

(** C10. On a brick of the program, whose counter is at most 3 as
    [Brick.__init__] builds it and [hit] leaves it, [Brick.hit] with the
    counter already 0 is not a safe no-op: the counter becomes -1, the
    canvas is left alone (the brick is not removed) and the colour lookup
    raises KeyError.  More generally [hit] raises KeyError, with the counter
    decremented and the canvas untouched, whenever the decremented counter
    is nonzero and outside {1,2}; when it is 0 or in {1,2}, [hit] returns
    normally.  Either way no counter is above 3 afterwards. *)
Theorem Brick_hit_bad_counter (w : World) (r : ref) (b : Brick) :
  bricks_bounded w ->
  heap w !! r = Some (OBrick b) ->
  (hits b = 0 ->
   Brick_hit r w =
     (Raise KeyError,
      set_heap (<[r := OBrick (MkBrick (brick_item b) (brick_width b) (brick_height b) (-1))]>) w)) /\
  (hits b - 1 <> 0 -> ~ (1 <= hits b - 1 <= 2) ->
   Brick_hit r w = (Raise KeyError, set_heap (<[r := OBrick (dec_hits b)]>) w)) /\
  (hits b - 1 = 0 \/ 1 <= hits b - 1 <= 2 -> (Brick_hit r w).1 = Ok tt) /\
  bricks_bounded (Brick_hit r w).2.
Proof.
  intros Hw Hr. pose proof (Hw r b Hr) as Hle.
  assert (Hbad : hits b - 1 <> 0 -> ~ (1 <= hits b - 1 <= 2) ->
                 Brick_hit r w = (Raise KeyError, set_heap (<[r := OBrick (dec_hits b)]>) w)).
  { intros Hz Hout. unfold Brick_hit.
    rewrite (bind_ok _ _ _ _ _ (as_brick_ok _ _ _ Hr)).
    unfold store, modify, bind. cbn.
    apply Z.eqb_neq in Hz. rewrite Hz. rewrite COLORS_none by lia. reflexivity. }
  split; [|split; [|split]].
  - intros H0. rewrite Hbad by lia. unfold dec_hits. now rewrite H0.
  - exact Hbad.
  - intros Hin. unfold Brick_hit.
    rewrite (bind_ok _ _ _ _ _ (as_brick_ok _ _ _ Hr)).
    unfold store, modify, bind. cbn.
    destruct (hits b - 1 =? 0) eqn:E.
    + unfold GameObject_delete, bind, deref. cbn. now rewrite lookup_insert_eq.
    + apply Z.eqb_neq in E. destruct (COLORS_some (hits b - 1)) as [c ->]; [lia | reflexivity].
  - now apply bricks_bounded_Brick_hit.
Qed.

Lemma Brick_hit_bad_counter_witness :
  bricks_boundedb (world game0_hit2) = true /\
  heap (world game0_hit2) !! 2%nat = Some (OBrick (MkBrick 3 75 20 0)) /\
  Brick_hit 2 (world game0_hit2) =
    (Raise KeyError, set_heap (<[2%nat := OBrick (MkBrick 3 75 20 (-1))]>) (world game0_hit2)).
Proof.
  split; [reflexivity|]. split; [reflexivity|].
  apply (proj1 (Brick_hit_bad_counter (world game0_hit2) 2 (MkBrick 3 75 20 0)
                  (bricks_boundedb_spec (world game0_hit2) eq_refl) eq_refl)).
  reflexivity.
Defined.

(** C6, as stated, fails on the collection: the brick at reference 2 of the
    initial layout has one hit left and is drawn by item 3; after [hit] its
    counter is 0 and the item is gone from the canvas, but [Game.items]
    still maps handle 3 to it. *)
Lemma Brick_hit_keeps_items_entry :
  heap (world game0) !! 2%nat = Some (OBrick (MkBrick 3 75 20 1)) /\
  items game0 !! 3 = Some 2%nat /\
  (in_world (Brick_hit 2) game0).1 = Ok tt /\
  heap (world (in_world (Brick_hit 2) game0).2) !! 2%nat = Some (OBrick (MkBrick 3 75 20 0)) /\
  citems (canvas (world (in_world (Brick_hit 2) game0).2)) !! 3 = None /\
  items (in_world (Brick_hit 2) game0).2 !! 3 = Some 2%nat.
Proof. vm_compute. repeat split. Qed.

(** C6 (amended). For every brick whose hit-counter is in {1,2,3},
    [Brick.hit] returns normally and decrements the counter by 1.  If the
    counter reaches 0 the brick deletes its canvas item, so that the canvas
    no longer reports a box for it; its entry in [Game.items] is kept.
    Otherwise the item is repainted with the colour the table gives for the
    new counter.  Nothing else changes: no other object, no other canvas
    item, no attribute of the game. *)
Theorem Brick_hit_live (g : Game) (r : ref) (b : Brick) :
  heap (world g) !! r = Some (OBrick b) -> 1 <= hits b <= 3 ->
  exists c',
    in_world (Brick_hit r) g =
      (Ok tt,
       set_world (fun _ => MkWorld c' (<[r := OBrick (dec_hits b)]> (heap (world g)))
                                   (next_ref (world g))) g) /\
    hits (dec_hits b) = hits b - 1 /\
    (hits b = 1 ->
     c' = canvas_delete (brick_item b) (canvas (world g)) /\ coords (brick_item b) c' = []) /\
    (hits b <> 1 ->
     exists color, COLORS !! (hits b - 1) = Some color /\
                   c' = itemconfig_fill (brick_item b) color (canvas (world g))) /\
    (forall i, i <> brick_item b -> citems c' !! i = citems (canvas (world g)) !! i) /\
    items (in_world (Brick_hit r) g).2 = items g.
Proof.
  intros Hr Hh.
  unfold in_world, zoom. rewrite (Brick_hit_run _ _ _ Hr Hh).
  eexists. split; [reflexivity|]. split; [reflexivity|].
  destruct (hits b - 1 =? 0) eqn:E.
  - apply Z.eqb_eq in E. split; [|split; [|split]].
    + intros _. split; [reflexivity|].
      unfold coords, canvas_delete, set_citems; cbn. now rewrite lookup_delete_eq.
    + intros Hn. lia.
    + intros i Hi. unfold canvas_delete, set_citems; cbn. now rewrite lookup_delete_ne.
    + reflexivity.
  - apply Z.eqb_neq in E. destruct (COLORS_some (hits b - 1)) as [color Hc]; [lia|].
    rewrite Hc. split; [|split; [|split]].
    + intros H1. lia.
    + intros _. exists color. split; reflexivity.
    + intros i Hi. unfold itemconfig_fill, set_citems; cbn. now rewrite lookup_alter_ne.
    + reflexivity.
Qed.

Lemma Brick_hit_live_witness :
  heap (world game0) !! 2%nat = Some (OBrick (MkBrick 3 75 20 1)) /\
  exists c',
    in_world (Brick_hit 2) game0 =
      (Ok tt,
       set_world (fun _ => MkWorld c' (<[2%nat := OBrick (dec_hits (MkBrick 3 75 20 1))]>
                                         (heap (world game0)))
                                   (next_ref (world game0))) game0) /\
    c' = canvas_delete 3 (canvas (world game0)).
Proof.
  split; [reflexivity|].
  destruct (Brick_hit_live game0 2 (MkBrick 3 75 20 1) eq_refl ltac:(cbn; lia))
    as (c' & Hrun & _ & Hdel & _).
  exists c'. split; [exact Hrun | apply Hdel; reflexivity].
Defined.

(** ** Invariants of computations *)

Lemma keeps_bind {S A B} (P : S -> Prop) (m : M S A) (k : A -> M S B) :
  keeps P m -> (forall a, keeps P (k a)) -> keeps P (bind m k).
Proof.
  intros Hm Hk s Hs. unfold bind. specialize (Hm s Hs).
  destruct (m s) as [[a|e] s']; cbn in *; [now apply Hk | exact Hm].
Qed.

Lemma keeps_same {S A} (P : S -> Prop) (m : M S A) :
  (forall s, (m s).2 = s) -> keeps P m.
Proof. intros H s Hs. now rewrite H. Qed.

Lemma keeps_ret {S A} (P : S -> Prop) (a : A) : keeps P (ret a).
Proof. now apply keeps_same. Qed.

Lemma keeps_raise {S A} (P : S -> Prop) e : keeps P (@raise S A e).
Proof. now apply keeps_same. Qed.

Lemma keeps_gets {S A} (P : S -> Prop) (f : S -> A) : keeps P (gets f).
Proof. now apply keeps_same. Qed.

Lemma keeps_index {S} (P : S -> Prop) l i : keeps P (@index S l i).
Proof. apply keeps_same. intros s. unfold index. now destruct (l !! i). Qed.

Lemma keeps_when {S} (P : S -> Prop) (c : bool) (m : M S unit) :
  keeps P m -> keeps P (when c m).
Proof. destruct c; [auto | intros _; apply keeps_ret]. Qed.

Lemma keeps_for_each {S A} (P : S -> Prop) (l : list A) (body : A -> M S unit) :
  (forall x, keeps P (body x)) -> keeps P (for_each l body).
Proof.
  intros Hb. induction l as [|x l IH]; cbn; [apply keeps_ret|].
  apply keeps_bind; auto.
Qed.

Lemma keeps_deref P r : keeps P (deref r).
Proof. apply keeps_same. intros w. unfold deref. now destruct (heap w !! r). Qed.

Lemma keeps_as_ball P r : keeps P (as_ball r).
Proof.
  apply keeps_bind; [apply keeps_deref|].
  intros [b|p|b]; (apply keeps_ret || apply keeps_raise).
Qed.

Lemma keeps_as_brick P r : keeps P (as_brick r).
Proof.
  apply keeps_bind; [apply keeps_deref|].
  intros [b|p|b]; (apply keeps_ret || apply keeps_raise).
Qed.

Lemma keeps_get_position P r : keeps P (GameObject_get_position r).
Proof. apply keeps_bind; [apply keeps_deref | intros o; apply keeps_gets]. Qed.

Create HintDb keeps.
#[local] Hint Resolve keeps_ret keeps_raise keeps_gets keeps_index keeps_deref
  keeps_as_ball keeps_as_brick keeps_get_position : keeps.

(** Projections of an updated world. *)
Ltac wsimpl := unfold set_heap, set_canvas in *; cbn [heap canvas next_ref] in *.

(** One more statement that reads the state, or may raise. *)
Ltac keeps_step := apply keeps_bind; [solve [auto with keeps] | intros ?].

(** Whatever touches only the canvas keeps every property of the heap. *)
Lemma keeps_set_canvas self F f : keeps (ball_sat self F) (modify (set_canvas f)).
Proof. intros w Hw. exact Hw. Qed.

Lemma keeps_move self F r x y : keeps (ball_sat self F) (GameObject_move r x y).
Proof. apply keeps_bind; [apply keeps_deref | intros o; apply keeps_set_canvas]. Qed.

Lemma keeps_delete self F r : keeps (ball_sat self F) (GameObject_delete r).
Proof. apply keeps_bind; [apply keeps_deref | intros o; apply keeps_set_canvas]. Qed.

Lemma keeps_set_direction self F r f :
  steady F f -> keeps (ball_sat self F) (set_direction r f).
Proof.
  intros Hf w (b & Hb & HF). unfold set_direction, as_ball, bind, deref.
  destruct (heap w !! r) as [[br|p|br]|] eqn:Hr; cbn; try (exists b; now split).
  destruct (decide (r = self)) as [->|Hne].
  - rewrite Hb in Hr. injection Hr as <-.
    exists (with_direction b (f (direction b))).
    split; [wsimpl; apply lookup_insert_eq | now apply Hf].
  - exists b. split; [wsimpl; now rewrite lookup_insert_ne | exact HF].
Qed.

Lemma keeps_Brick_hit self F r : keeps (ball_sat self F) (Brick_hit r).
Proof.
  intros w (b & Hb & HF). unfold Brick_hit, as_brick, bind, deref.
  destruct (heap w !! r) as [[bl|p|br]|] eqn:Hr; cbn; try (exists b; now split).
  assert (Hne : r <> self) by (intros ->; congruence).
  assert (Hafter : ball_sat self F (set_heap (<[r := OBrick
            (MkBrick (brick_item br) (brick_width br) (brick_height br) (hits br - 1))]>) w)).
  { exists b. split; [wsimpl; now rewrite lookup_insert_ne | exact HF]. }
  destruct (hits br - 1 =? 0).
  - now apply keeps_delete.
  - destruct (COLORS !! (hits br - 1)); [now apply keeps_set_canvas | exact Hafter].
Qed.

Lemma keeps_hit_bricks self F objs : keeps (ball_sat self F) (hit_bricks objs).
Proof.
  apply keeps_for_each. intros o.
  apply keeps_bind; [apply keeps_gets|]. intros c. apply keeps_when, keeps_Brick_hit.
Qed.

Lemma keeps_Ball_collide self F r objs :
  steady F flip_y -> steady F (set_x 1) -> steady F (set_x (-1)) ->
  keeps (ball_sat self F) (Ball_collide r objs).
Proof.
  intros Hy H1 H2. unfold Ball_collide.
  do 3 keeps_step.
  apply keeps_bind; [| intros _; apply keeps_hit_bricks].
  destruct (1 <? length objs)%nat; [now apply keeps_set_direction|].
  destruct (length objs =? 1)%nat; [|apply keeps_ret].
  destruct objs as [|o objs]; [apply keeps_raise|].
  do 2 keeps_step.
  destruct (Qltb _ _); [now apply keeps_set_direction|].
  keeps_step.
  destruct (Qltb _ _); now apply keeps_set_direction.
Qed.

Lemma keeps_Ball_update self F r :
  steady F flip_x -> steady F flip_y -> keeps (ball_sat self F) (Ball_update r).
Proof.
  intros Hx Hy. unfold Ball_update.
  do 3 keeps_step.
  apply keeps_bind.
  { destruct (Qleb _ _); [apply keeps_ret|]. keeps_step. apply keeps_ret. }
  intros at_side.
  apply keeps_bind; [now apply keeps_when, keeps_set_direction | intros _].
  keeps_step.
  apply keeps_bind; [now apply keeps_when, keeps_set_direction | intros _].
  apply keeps_bind; [solve [auto with keeps] | intros bl].
  destruct (speed bl); [apply keeps_move | apply keeps_raise].
Qed.

(** ** The direction invariant *)

Lemma dir_ok_steady_flip_x : steady (fun b => dir_ok (direction b)) flip_x.
Proof. intros b [H1 H2]. unfold dir_ok, flip_x in *. cbn. split; [lia | exact H2]. Qed.

Lemma dir_ok_steady_flip_y : steady (fun b => dir_ok (direction b)) flip_y.
Proof. intros b [H1 H2]. unfold dir_ok, flip_y in *. cbn. split; [exact H1 | lia]. Qed.

Lemma dir_ok_steady_set_x v : v = 1 \/ v = -1 -> steady (fun b => dir_ok (direction b)) (set_x v).
Proof. intros Hv b [H1 H2]. unfold dir_ok, set_x in *. cbn. split; [exact Hv | exact H2]. Qed.

(** C8. Both components of the ball's direction are always in {-1, +1}: a
    ball is constructed with direction (1, -1), and [Ball.update] and
    [Ball.collide], whatever the colliding objects and whether they return
    or raise, leave a ball whose direction components are signs with
    direction components that are signs. *)
Theorem direction_invariant :
  (forall (x y : Q) (w : World),
     exists r b0, (Ball_init x y w).1 = Ok r /\
                  heap (Ball_init x y w).2 !! r = Some (OBall b0) /\
                  direction b0 = (1, -1) /\ dir_ok (direction b0)) /\
  (forall (w : World) (self : ref) (b : Ball),
     heap w !! self = Some (OBall b) -> dir_ok (direction b) ->
     exists b', heap (Ball_update self w).2 !! self = Some (OBall b') /\
                dir_ok (direction b')) /\
  (forall (w : World) (self : ref) (b : Ball) (objs : list ref),
     heap w !! self = Some (OBall b) -> dir_ok (direction b) ->
     exists b', heap (Ball_collide self objs w).2 !! self = Some (OBall b') /\
                dir_ok (direction b')).
Proof.
  split; [|split].
  - intros x y w. eexists _, _. cbn. split; [reflexivity|].
    split; [wsimpl; apply lookup_insert_eq|].
    split; [reflexivity|]. unfold dir_ok; cbn. lia.
  - intros w self b Hb Hd.
    apply (keeps_Ball_update self (fun b => dir_ok (direction b)) self
             dir_ok_steady_flip_x dir_ok_steady_flip_y w).
    now exists b.
  - intros w self b objs Hb Hd.
    apply (keeps_Ball_collide self (fun b => dir_ok (direction b)) self objs
             dir_ok_steady_flip_y (dir_ok_steady_set_x 1 (or_introl eq_refl))
             (dir_ok_steady_set_x (-1) (or_intror eq_refl)) w).
    now exists b.
Qed.

(** ** Ball.collide *)

Lemma with_direction_same b : with_direction b (direction b) = b.
Proof. now destruct b. Qed.

Lemma set_heap_insert_id w r o : heap w !! r = Some o -> set_heap (<[r := o]>) w = w.
Proof. intros H. destruct w as [c h n]. unfold set_heap; cbn in *. now rewrite insert_id. Qed.

Lemma set_direction_run w self b f :
  heap w !! self = Some (OBall b) ->
  set_direction self f w =
    (Ok tt, set_heap (<[self := OBall (with_direction b (f (direction b)))]>) w).
Proof.
  intros Hb. unfold set_direction. now rewrite (bind_ok _ _ _ _ _ (as_ball_ok _ _ _ Hb)).
Qed.

Lemma flip_y_opp d : flip_y d = (d.1, - d.2).
Proof. unfold flip_y. f_equal. lia. Qed.

(** [collide] first settles the direction, as the specification words it,
    and then notifies the bricks. *)
Lemma Ball_collide_run w self b x0 y0 x1 y1 objs l t r u :
  heap w !! self = Some (OBall b) ->
  coords (ball_item b) (canvas w) = [x0; y0; x1; y1] ->
  (forall o, objs = [o] -> entity_box w o = Some (l, t, r, u)) ->
  Ball_collide self objs w =
    hit_bricks objs
      (set_heap (<[self := OBall (with_direction b
          (collide_direction_spec (length objs) ((x0 + x1) * (1 # 2)) l r (direction b)))]>) w).
Proof.
  intros Hb Hc Hone. unfold Ball_collide.
  rewrite (bind_ok _ _ _ _ _ (get_position_ok _ _ _ Hb)). cbn [item]. rewrite Hc.
  unfold index at 1 2. cbn [lookup list_lookup].
  change (bind (ret x0) ?k w) with (k x0 w). cbv beta.
  change (bind (ret x1) ?k w) with (k x1 w). cbv beta.
  destruct objs as [|o [|o2 objs]].
  - cbn. rewrite with_direction_same, (set_heap_insert_id _ _ _ Hb). reflexivity.
  - specialize (Hone o eq_refl). unfold entity_box in Hone.
    destruct (heap w !! o) as [ob|] eqn:Ho; [|discriminate].
    destruct (coords (item ob) (canvas w)) as [|? [|? [|? [|? [|]]]]] eqn:Hco;
      try discriminate.
    injection Hone as -> -> -> ->.
    cbn [length Nat.ltb Nat.leb Nat.eqb].
    unfold collide_direction_spec. cbn [Nat.leb Nat.eqb].
    assert (Hpos : GameObject_get_position o w = (Ok [l; t; r; u], w))
      by (now rewrite (get_position_ok _ _ _ Ho), Hco).
    destruct (Qltb r ((x0 + x1) * (1 # 2))) eqn:E1;
      [| destruct (Qltb ((x0 + x1) * (1 # 2)) l) eqn:E2];
      (erewrite (bind_ok _ _ w);
       [| rewrite (bind_ok _ _ _ _ _ Hpos); unfold index; cbn [lookup list_lookup];
          change (bind (ret r) ?k w) with (k r w); cbv beta; rewrite E1;
          try (change (bind (ret l) ?k w) with (k l w); cbv beta; rewrite E2);
          apply set_direction_run, Hb]);
      rewrite ?flip_y_opp; reflexivity.
  - cbn [length Nat.ltb Nat.leb].
    erewrite bind_ok by (apply set_direction_run, Hb).
    unfold collide_direction_spec. cbn [Nat.leb]. now rewrite flip_y_opp.
Qed.

Lemma collide_direction_spec_cases n center left right d :
  ((2 <= n)%nat -> collide_direction_spec n center left right d = (d.1, - d.2)) /\
  (n = 1%nat -> (right < center)%Q ->
   collide_direction_spec n center left right d = (1, d.2)) /\
  (n = 1%nat -> ~ (right < center)%Q -> (center < left)%Q ->
   collide_direction_spec n center left right d = (-1, d.2)) /\
  (n = 1%nat -> ~ (right < center)%Q -> ~ (center < left)%Q ->
   collide_direction_spec n center left right d = (d.1, - d.2)) /\
  (n = 0%nat -> collide_direction_spec n center left right d = d).
Proof.
  unfold collide_direction_spec. repeat split.
  - intros H. apply Nat.leb_le in H. now rewrite H.
  - intros -> H. apply Qltb_lt in H. cbn. now rewrite H.
  - intros -> H1 H2. apply Qltb_nlt in H1. apply Qltb_lt in H2. cbn. now rewrite H1, H2.
  - intros -> H1 H2. apply Qltb_nlt in H1, H2. cbn. now rewrite H1, H2.
  - now intros ->.
Qed.

(** C1. The direction [Ball.collide] leaves is the one the specification's
    case analysis gives ([collide_direction_spec]): with two or more
    colliding entities the vertical component is flipped and the horizontal
    one kept; with exactly one, the horizontal component becomes +1 when the
    ball's horizontal centre is strictly right of the entity's right edge,
    -1 when it is strictly left of its left edge, and otherwise the vertical
    component is flipped and the horizontal one kept; with none the
    direction is unchanged. *)
Theorem Ball_collide_direction (w : World) (self : ref) (b : Ball) (x0 y0 x1 y1 : Q)
    (objs : list ref) (l t r u : Q) :
  heap w !! self = Some (OBall b) ->
  coords (ball_item b) (canvas w) = [x0; y0; x1; y1] ->
  (forall o, objs = [o] -> entity_box w o = Some (l, t, r, u)) ->
  exists b',
    heap (Ball_collide self objs w).2 !! self = Some (OBall b') /\
    direction b' =
      collide_direction_spec (length objs) ((x0 + x1) * (1 # 2)) l r (direction b).
Proof.
  intros Hb Hc Hone. rewrite (Ball_collide_run _ _ _ _ _ _ _ _ _ _ _ _ Hb Hc Hone).
  set (d' := collide_direction_spec _ _ _ _ _).
  destruct (keeps_hit_bricks self (eq (with_direction b d')) objs
              (set_heap (<[self := OBall (with_direction b d')]>) w)) as (b' & Hb' & <-).
  { eexists. split; [wsimpl; apply lookup_insert_eq | reflexivity]. }
  exists (with_direction b d'). split; [exact Hb' | reflexivity].
Qed.

Lemma Ball_collide_direction_witness :
  heap (world game_at_brick) !! 25%nat = Some (OBall (MkBall 26 10 (1, -1) (Some 10))) /\
  coords 26 (canvas (world game_at_brick)) = [990 # 2; 100; 1030 # 2; 120]%Q /\
  entity_box (world game_at_brick) 21 = Some (911 # 2, 80, 1059 # 2, 100)%Q /\
  exists b',
    heap (Ball_collide 25 [21%nat] (world game_at_brick)).2 !! 25%nat = Some (OBall b') /\
    direction b' = (1, 1).
Proof.
  split; [reflexivity|]. split; [reflexivity|]. split; [reflexivity|].
  apply (Ball_collide_direction (world game_at_brick) 25 (MkBall 26 10 (1, -1) (Some 10))
           (990 # 2) 100 (1030 # 2) 120 [21%nat] (911 # 2) 80 (1059 # 2) 100 eq_refl eq_refl).
  intros o [= <-]. reflexivity.
Defined.

Lemma hit_bricks_cons x objs w :
  hit_bricks (x :: objs) w =
    match heap w !! x with
    | Some (OBrick _) => bind (Brick_hit x) (fun _ => hit_bricks objs) w
    | _ => hit_bricks objs w
    end.
Proof.
  unfold hit_bricks. cbn [for_each]. unfold bind, gets, isinstance_Brick.
  destruct (heap w !! x) as [[bl|p|br]|]; reflexivity.
Qed.

(** The loop over the colliding objects: every brick in the list is hit
    once, nothing else is touched. *)
Lemma hit_bricks_run objs : forall w,
  NoDup objs ->
  (forall o br, o ∈ objs -> heap w !! o = Some (OBrick br) -> 1 <= hits br <= 3) ->
  (hit_bricks objs w).1 = Ok tt /\
  (forall o, heap (hit_bricks objs w).2 !! o =
             if decide (o ∈ objs) then hit_obj <$> heap w !! o else heap w !! o) /\
  (forall i, (forall o br, o ∈ objs -> heap w !! o = Some (OBrick br) -> brick_item br <> i) ->
             citems (canvas (hit_bricks objs w).2) !! i = citems (canvas w) !! i).
Proof.
  induction objs as [|x objs IH]; intros w Hnd Hlive.
  - cbn. split; [reflexivity|]. split; [|reflexivity].
    intros o. case_decide as Hin; [|reflexivity]. now apply elem_of_nil in Hin.
  - apply NoDup_cons in Hnd as [Hx Hnd].
    rewrite hit_bricks_cons.
    destruct (heap w !! x) as [[bl|p|br]|] eqn:Hxw.
    1,2,4: (destruct (IH w Hnd) as (Hok & Hheap & Hcanvas);
            [intros o br' Ho; apply Hlive; now right|];
            split; [exact Hok|]; split;
            [ intros o; rewrite Hheap;
              destruct (decide (o = x)) as [->|Hne];
              [ rewrite (decide_True (P := x ∈ x :: objs)) by (now left);
                rewrite (decide_False (P := x ∈ objs)) by exact Hx;
                now rewrite Hxw
              | destruct (decide (o ∈ objs)) as [Hin|Hnin];
                [ now rewrite (decide_True (P := o ∈ x :: objs)) by (now right)
                | rewrite (decide_False (P := o ∈ x :: objs)); [reflexivity|];
                  rewrite elem_of_cons; tauto ] ]
            | intros i Hi; apply Hcanvas; intros o br' Ho; apply Hi; now right ]).
    erewrite bind_ok
      by (apply (Brick_hit_run _ _ _ Hxw), (Hlive x); [now left | exact Hxw]).
    match goal with |- context [hit_bricks objs ?w1] => set (w' := w1) end.
    destruct (IH w' Hnd) as (Hok & Hheap & Hcanvas).
    { intros o br' Ho Hbr. apply (Hlive o); [now right|].
      subst w'. cbn [heap] in Hbr. rewrite lookup_insert_ne in Hbr; [exact Hbr|].
      intros <-. contradiction. }
    split; [exact Hok|]. split.
    + intros o. rewrite Hheap. subst w'. cbn [heap].
      destruct (decide (o = x)) as [->|Hne].
      * rewrite (decide_True (P := x ∈ x :: objs)) by (now left).
        rewrite (decide_False (P := x ∈ objs)) by exact Hx.
        now rewrite lookup_insert_eq, Hxw.
      * rewrite lookup_insert_ne by congruence.
        destruct (decide (o ∈ objs)) as [Hin|Hnin].
        -- now rewrite (decide_True (P := o ∈ x :: objs)) by (now right).
        -- rewrite (decide_False (P := o ∈ x :: objs)); [reflexivity|].
           rewrite elem_of_cons; tauto.
    + intros i Hi. rewrite Hcanvas.
      * subst w'. cbn [canvas].
        assert (Hxi : brick_item br <> i) by (apply (Hi x); [now left | exact Hxw]).
        destruct (hits br - 1 =? 0).
        -- unfold canvas_delete, set_citems; cbn. now rewrite lookup_delete_ne.
        -- destruct (COLORS !! (hits br - 1)); [|reflexivity].
           unfold itemconfig_fill, set_citems; cbn. now rewrite lookup_alter_ne.
      * intros o br' Ho Hbr. apply (Hi o); [now right|].
        subst w'. cbn [heap] in Hbr. rewrite lookup_insert_ne in Hbr; [exact Hbr|].
        intros <-. contradiction.
Qed.

(** C7. Whatever branch settles the direction, [Ball.collide] on a set of
    colliding entities returns normally, every entity of the set that is a
    Brick is hit exactly once (its hit-counter goes down by one), and
    nothing that is not a Brick is damaged: every other object, and every
    brick outside the set, is as before, and so is every canvas item that
    is not the item of a brick of the set. *)
Theorem Ball_collide_hits (w : World) (self : ref) (b : Ball) (x0 y0 x1 y1 : Q)
    (objs : list ref) :
  heap w !! self = Some (OBall b) ->
  coords (ball_item b) (canvas w) = [x0; y0; x1; y1] ->
  NoDup objs ->
  (forall o, o ∈ objs -> live w o) ->
  (Ball_collide self objs w).1 = Ok tt /\
  (forall o br, o ∈ objs -> heap w !! o = Some (OBrick br) ->
     heap (Ball_collide self objs w).2 !! o = Some (OBrick (dec_hits br))) /\
  (forall o ob, o <> self -> heap w !! o = Some ob ->
     o ∉ objs \/ (forall br, ob <> OBrick br) ->
     heap (Ball_collide self objs w).2 !! o = Some ob) /\
  (forall i, (forall o br, o ∈ objs -> heap w !! o = Some (OBrick br) -> brick_item br <> i) ->
     citems (canvas (Ball_collide self objs w).2) !! i = citems (canvas w) !! i).
Proof.
  intros Hb Hc Hnd Hlive.
  assert (Hbox : exists l t r u, forall o, objs = [o] -> entity_box w o = Some (l, t, r, u)).
  { destruct objs as [|o [|o2 objs]].
    - exists 0%Q, 0%Q, 0%Q, 0%Q. discriminate.
    - destruct (Hlive o) as [[[[[l t] r] u] Hbox] _]; [now left|].
      exists l, t, r, u. now intros o' [= <-].
    - exists 0%Q, 0%Q, 0%Q, 0%Q. discriminate. }
  destruct Hbox as (l & t & r & u & Hone).
  rewrite (Ball_collide_run _ _ _ _ _ _ _ _ _ _ _ _ Hb Hc Hone).
  match goal with |- context [hit_bricks objs ?w0] => set (w1 := w0) end.
  assert (Hother : forall o, o <> self -> heap w1 !! o = heap w !! o).
  { intros o Ho. subst w1. wsimpl. now rewrite lookup_insert_ne. }
  assert (Hbrick : forall o br, heap w1 !! o = Some (OBrick br) -> heap w !! o = Some (OBrick br)).
  { intros o br Ho. destruct (decide (o = self)) as [->|Hne].
    - subst w1. wsimpl. rewrite lookup_insert_eq in Ho. discriminate.
    - now rewrite <- Hother. }
  assert (Hself : forall o br, heap w !! o = Some (OBrick br) -> o <> self).
  { intros o br Ho ->. congruence. }
  destruct (hit_bricks_run objs w1 Hnd) as (Hok & Hheap & Hcanvas).
  { intros o br Ho Hbr. apply (Hlive o Ho), Hbrick, Hbr. }
  split; [exact Hok|]. split; [|split].
  - intros o br Ho Hbr. rewrite Hheap, decide_True by exact Ho.
    rewrite Hother by (eapply Hself, Hbr). now rewrite Hbr.
  - intros o ob Hne Hob Hcase. rewrite Hheap, (Hother o Hne), Hob.
    case_decide as Hin; [|reflexivity].
    destruct Hcase as [Hout|Hnb]; [contradiction|].
    destruct ob as [bl|p|br]; try reflexivity. now destruct (Hnb br).
  - intros i Hi. rewrite Hcanvas; [reflexivity|].
    intros o br Ho Hbr. apply (Hi o br Ho), Hbrick, Hbr.
Qed.

Lemma Ball_collide_hits_witness :
  heap (world game_at_brick) !! 21%nat = Some (OBrick (MkBrick 22 75 20 1)) /\
  (Ball_collide 25 [21%nat] (world game_at_brick)).1 = Ok tt /\
  heap (Ball_collide 25 [21%nat] (world game_at_brick)).2 !! 21%nat
    = Some (OBrick (MkBrick 22 75 20 0)).
Proof.
  split; [reflexivity|].
  destruct (Ball_collide_hits (world game_at_brick) 25 (MkBall 26 10 (1, -1) (Some 10))
              (990 # 2) 100 (1030 # 2) 120 [21%nat] eq_refl eq_refl)
    as (Hok & Hhit & _).
  - apply NoDup_singleton.
  - intros o Ho. apply list_elem_of_singleton in Ho as ->.
    split; [eexists; reflexivity|]. intros br [= <-]. cbn. lia.
  - split; [exact Hok|].
    apply (Hhit 21%nat (MkBrick 22 75 20 1)); [apply list_elem_of_singleton|]; reflexivity.
Defined.

(** ** Ball.update *)

Lemma set_heap_insert_insert w r o1 o2 :
  set_heap (<[r := o2]>) (set_heap (<[r := o1]>) w) = set_heap (<[r := o2]>) w.
Proof. unfold set_heap; cbn. now rewrite insert_insert_eq. Qed.

Lemma when_set_direction_run w self b (c : bool) f :
  heap w !! self = Some (OBall b) ->
  when c (set_direction self f) w =
    (Ok tt, set_heap (<[self := OBall (with_direction b
                                         (if c then f (direction b) else direction b))]>) w).
Proof.
  intros Hb. destruct c; cbn [when].
  - now apply set_direction_run.
  - now rewrite with_direction_same, set_heap_insert_id.
Qed.

(** What [update] does to a ball that is on the canvas: the bounces, then
    the move, or TypeError for a ball without speed. *)
Lemma Ball_update_run w self b x0 y0 x1 y1 :
  heap w !! self = Some (OBall b) ->
  coords (ball_item b) (canvas w) = [x0; y0; x1; y1] ->
  let at_side := Qleb x0 0 || Qleb (inject_Z (winfo_width (canvas w))) x1 in
  let at_top := Qleb y0 0 in
  let d1 := if at_side then flip_x (direction b) else direction b in
  let d2 := if at_top then flip_y d1 else d1 in
  let w2 := set_heap (<[self := OBall (with_direction b d2)]>) w in
  Ball_update self w =
    match speed b with
    | None => (Raise TypeError, w2)
    | Some s =>
        (Ok tt, set_canvas (canvas_move (ball_item b) (inject_Z (d2.1 * s))
                                        (inject_Z (d2.2 * s))) w2)
    end.
Proof.
  intros Hb Hc at_side at_top d1 d2 w2.
  unfold Ball_update.
  rewrite (bind_ok _ _ _ _ _ (get_position_ok _ _ _ Hb)). cbn [item]. rewrite Hc.
  unfold gets at 1. unfold bind at 1. cbv beta iota.
  unfold index at 1. cbn [lookup list_lookup].
  change (bind (ret x0) ?k w) with (k x0 w). cbv beta.
  erewrite (bind_ok _ _ w at_side w)
    by (subst at_side; destruct (Qleb x0 0); reflexivity).
  rewrite (bind_ok _ _ _ _ _ (when_set_direction_run _ _ _ at_side flip_x Hb)).
  fold d1.
  set (w1 := set_heap (<[self := OBall (with_direction b d1)]>) w).
  assert (Hb1 : heap w1 !! self = Some (OBall (with_direction b d1)))
    by (subst w1; wsimpl; apply lookup_insert_eq).
  unfold index at 1. cbn [lookup list_lookup].
  change (bind (ret y0) ?k w1) with (k y0 w1). cbv beta.
  rewrite (bind_ok _ _ _ _ _ (when_set_direction_run _ _ _ (Qleb y0 0) flip_y Hb1)).
  subst w1. rewrite set_heap_insert_insert.
  change (with_direction (with_direction b d1) ?d) with (with_direction b d).
  change (direction (with_direction b d1)) with d1. fold at_top. fold d2. fold w2.
  assert (Hb2 : heap w2 !! self = Some (OBall (with_direction b d2)))
    by (subst w2; wsimpl; apply lookup_insert_eq).
  rewrite (bind_ok _ _ _ _ _ (as_ball_ok _ _ _ Hb2)).
  cbn [speed with_direction direction].
  destruct (speed b) as [s|]; [|reflexivity].
  unfold GameObject_move. rewrite (bind_ok _ _ _ _ _ (deref_ok _ _ _ Hb2)).
  reflexivity.
Qed.

(** C4, as stated, fails: [update] on the frozen ball of [game_missed] raises
    TypeError. *)
Lemma Ball_update_frozen_raises :
  heap (world game_missed) !! 25%nat = Some (OBall (MkBall 26 10 (-1, 1) None)) /\
  (Ball_update 25 (world game_missed)).1 = Raise TypeError.
Proof. split; reflexivity. Qed.

(** C4 (amended). For every ball whose speed is null, [Ball.update] does not
    move the ball (the canvas is left as it was) but raises TypeError at the
    product of a direction component and the speed; before that it has
    reversed the horizontal direction of a ball whose left edge is <= 0 or
    whose right edge is >= the canvas width, and the vertical direction of
    a ball whose top edge is <= 0.  Only for a ball strictly inside these
    bounds is the state unchanged. *)
Theorem Ball_update_frozen (w : World) (self : ref) (b : Ball) (x0 y0 x1 y1 : Q) :
  heap w !! self = Some (OBall b) -> speed b = None ->
  coords (ball_item b) (canvas w) = [x0; y0; x1; y1] ->
  let at_side := Qleb x0 0 || Qleb (inject_Z (winfo_width (canvas w))) x1 in
  let at_top := Qleb y0 0 in
  let d1 := if at_side then flip_x (direction b) else direction b in
  let d2 := if at_top then flip_y d1 else d1 in
  Ball_update self w =
    (Raise TypeError, set_heap (<[self := OBall (with_direction b d2)]>) w) /\
  canvas (Ball_update self w).2 = canvas w /\
  (at_side = false -> at_top = false -> (Ball_update self w).2 = w).
Proof.
  intros Hb Hs Hc at_side at_top d1 d2.
  pose proof (Ball_update_run w self b x0 y0 x1 y1 Hb Hc) as Hrun.
  cbv zeta in Hrun. rewrite Hs in Hrun. fold at_side at_top d1 d2 in Hrun.
  rewrite Hrun. split; [reflexivity|]. split; [reflexivity|].
  intros H1 H2. subst d2 d1. rewrite H1, H2. cbn [snd].
  now rewrite with_direction_same, set_heap_insert_id.
Qed.

Lemma Ball_update_frozen_witness :
  heap (world game_missed) !! 25%nat = Some (OBall (MkBall 26 10 (-1, 1) None)) /\
  coords 26 (canvas (world game_missed)) = [830 # 2; 380; 870 # 2; 400]%Q /\
  (Ball_update 25 (world game_missed)).1 = Raise TypeError /\
  (Ball_update 25 (world game_missed)).2 = world game_missed.
Proof.
  split; [reflexivity|]. split; [reflexivity|].
  destruct (Ball_update_frozen (world game_missed) 25 (MkBall 26 10 (-1, 1) None)
              (830 # 2) 380 (870 # 2) 400 eq_refl eq_refl eq_refl) as (Hrun & _ & Hsame).
  split; [now rewrite Hrun | exact (Hsame eq_refl eq_refl)].
Defined.

(** ** Paddle.move *)

Lemma coords_canvas_move_eq i dx dy c :
  coords i (canvas_move i dx dy c) = shift dx dy (coords i c).
Proof.
  unfold coords, canvas_move, set_citems. cbn. rewrite lookup_alter_eq.
  now destruct (citems c !! i).
Qed.

Lemma citems_canvas_move_ne i j dx dy c :
  i <> j -> citems (canvas_move i dx dy c) !! j = citems c !! j.
Proof. intros H. unfold canvas_move, set_citems. cbn. now rewrite lookup_alter_ne. Qed.

Lemma coords_canvas_move_ne i j dx dy c :
  i <> j -> coords j (canvas_move i dx dy c) = coords j c.
Proof. intros H. unfold coords. now rewrite citems_canvas_move_ne. Qed.

(** A horizontal translation of a box leaves its vertical coordinates as
    they are. *)
Lemma shift_box_x dx x0 y0 x1 y1 :
  shift dx 0 [x0; y0; x1; y1] = [x0 + dx; y0; x1 + dx; y1]%Q.
Proof. cbn. now rewrite !Qplus_0_r_eq. Qed.

Lemma GameObject_move_run w r o x y :
  heap w !! r = Some o ->
  GameObject_move r x y w = (Ok tt, set_canvas (canvas_move (item o) x y) w).
Proof. intros H. unfold GameObject_move. now rewrite (bind_ok _ _ _ _ _ (deref_ok _ _ _ H)). Qed.

Lemma Paddle_move_run w self p x0 y0 x1 y1 offset :
  heap w !! self = Some (OPaddle p) ->
  coords (paddle_item p) (canvas w) = [x0; y0; x1; y1] ->
  Paddle_move self offset w =
    if Qleb 0 (x0 + offset) && Qleb (x1 + offset) (inject_Z (winfo_width (canvas w)))
    then (GameObject_move self offset 0 ;;;
          p <- as_paddle self ;;
          match paddle_ball p with
          | None => ret tt
          | Some ball => GameObject_move ball offset 0
          end) w
    else (Ok tt, w).
Proof.
  intros Hp Hc. unfold Paddle_move.
  rewrite (bind_ok _ _ _ _ _ (get_position_ok _ _ _ Hp)). cbn [item]. rewrite Hc.
  unfold gets at 1. unfold bind at 1. cbv beta iota.
  unfold index. cbn [lookup list_lookup].
  change (bind (ret x0) ?k w) with (k x0 w). cbv beta.
  destruct (Qleb 0 (x0 + offset)); [|reflexivity].
  change (bind (ret x1) ?k) with (fun s : World => k x1 s). cbv beta.
  unfold bind at 1. unfold ret at 1. cbn [andb].
  destruct (Qleb (x1 + offset) _); reflexivity.
Qed.

(** C5. [Paddle.move(offset)] does nothing (neither the paddle nor a carried
    ball moves) when the translated box would leave the horizontal interval
    from 0 to the canvas width; otherwise it translates the paddle by
    [offset] horizontally, with no vertical change, and a carried ball by
    the same offset; no other canvas item and no object changes. *)
Theorem Paddle_move_spec (w : World) (self : ref) (p : Paddle) (x0 y0 x1 y1 offset : Q) :
  heap w !! self = Some (OPaddle p) ->
  coords (paddle_item p) (canvas w) = [x0; y0; x1; y1] ->
  (forall r, paddle_ball p = Some r ->
     exists b, heap w !! r = Some (OBall b) /\ ball_item b <> paddle_item p) ->
  (~ ((0 <= x0 + offset)%Q /\ (x1 + offset <= inject_Z (winfo_width (canvas w)))%Q) ->
   Paddle_move self offset w = (Ok tt, w)) /\
  ((0 <= x0 + offset)%Q -> (x1 + offset <= inject_Z (winfo_width (canvas w)))%Q ->
   exists c',
     Paddle_move self offset w = (Ok tt, set_canvas (fun _ => c') w) /\
     coords (paddle_item p) c' = [x0 + offset; y0; x1 + offset; y1]%Q /\
     (paddle_ball p = None ->
      forall i, i <> paddle_item p -> citems c' !! i = citems (canvas w) !! i) /\
     (forall r b, paddle_ball p = Some r -> heap w !! r = Some (OBall b) ->
        coords (ball_item b) c' = shift offset 0 (coords (ball_item b) (canvas w)) /\
        forall i, i <> paddle_item p -> i <> ball_item b ->
                  citems c' !! i = citems (canvas w) !! i)).
Proof.
  intros Hp Hc Hball. rewrite (Paddle_move_run _ _ _ _ _ _ _ _ Hp Hc).
  split.
  - intros Hout.
    destruct (Qleb 0 (x0 + offset)) eqn:E0; [|reflexivity].
    destruct (Qleb (x1 + offset) _) eqn:E1; [|reflexivity].
    exfalso. apply Hout. split; now apply Qleb_le.
  - intros H0 H1. apply Qleb_le in H0, H1. rewrite H0, H1. cbn [andb].
    rewrite (bind_ok _ _ _ _ _ (GameObject_move_run _ _ _ _ _ Hp)). cbn [item].
    set (w1 := set_canvas (canvas_move (paddle_item p) offset 0) w).
    assert (Hp1 : heap w1 !! self = Some (OPaddle p)) by exact Hp.
    rewrite (bind_ok _ _ _ _ _ (as_paddle_ok _ _ _ Hp1)).
    destruct (paddle_ball p) as [r|] eqn:Hpb.
    + destruct (Hball r eq_refl) as (b & Hr & Hne).
      assert (Hr1 : heap w1 !! r = Some (OBall b)) by exact Hr.
      rewrite (GameObject_move_run _ _ _ _ _ Hr1). cbn [item].
      eexists. split; [reflexivity|]. split; [|split].
      * rewrite coords_canvas_move_ne by exact Hne. subst w1. cbn [canvas set_canvas].
        now rewrite coords_canvas_move_eq, Hc, shift_box_x.
      * discriminate.
      * intros r' b' [= <-] Hr'. rewrite Hr in Hr'. injection Hr' as <-.
        split.
        -- rewrite coords_canvas_move_eq. subst w1. cbn [canvas set_canvas].
           now rewrite coords_canvas_move_ne by congruence.
        -- intros i Hi1 Hi2. rewrite citems_canvas_move_ne by congruence.
           subst w1. cbn [canvas set_canvas]. now rewrite citems_canvas_move_ne by congruence.
    + eexists. split; [reflexivity|]. split; [|split].
      * subst w1. cbn [canvas set_canvas].
        now rewrite coords_canvas_move_eq, Hc, shift_box_x.
      * intros _ i Hi. subst w1. cbn [canvas set_canvas].
        now rewrite citems_canvas_move_ne by congruence.
      * discriminate.
Qed.

Lemma Paddle_move_spec_witness :
  heap (world game0) !! 0%nat = Some (OPaddle (MkPaddle 1 80 10 (Some 25%nat))) /\
  coords 1 (canvas (world game0)) = [265; 321; 345; 331]%Q /\
  coords 26 (canvas (world game0)) = [590 # 2; 300; 630 # 2; 320]%Q /\
  exists c',
    Paddle_move 0 (-10) (world game0) = (Ok tt, set_canvas (fun _ => c') (world game0)) /\
    coords 1 c' = [265 + -10; 321; 345 + -10; 331]%Q /\
    coords 26 c' = shift (-10) 0 [590 # 2; 300; 630 # 2; 320]%Q.
Proof.
  split; [reflexivity|]. split; [reflexivity|]. split; [reflexivity|].
  destruct (Paddle_move_spec (world game0) 0 (MkPaddle 1 80 10 (Some 25%nat))
              265 321 345 331 (-10) eq_refl eq_refl) as [_ Hin].
  - intros r [= <-]. exists (MkBall 26 10 (1, -1) (Some 10)). split; [reflexivity | discriminate].
  - destruct Hin as (c' & Hrun & Hpad & _ & Hball); [discriminate | discriminate |].
    exists c'. split; [exact Hrun|]. split; [exact Hpad|].
    apply (Hball 25%nat (MkBall 26 10 (1, -1) (Some 10)) eq_refl eq_refl).
Defined.

(** ** The game loop *)

Lemma in_world_run {A} (m : M World A) g r w' :
  m (world g) = (r, w') -> in_world m g = (r, set_world (fun _ => w') g).
Proof. intros H. unfold in_world, zoom. now rewrite H. Qed.

Lemma same_frame_refl g : same_frame g g.
Proof. now destruct g. Qed.

Lemma keeps_in_world {A} g0 (P : World -> Prop) (m : M World A) :
  keeps P m ->
  keeps (fun g => same_frame g0 g /\ P (world g)) (in_world m).
Proof.
  intros Hm g [Hg HP]. unfold in_world, zoom.
  specialize (Hm _ HP). destruct (m (world g)) as [r w']. cbn in *.
  split; [|exact Hm]. unfold same_frame in *. rewrite Hg. reflexivity.
Qed.

Lemma keeps_attr {A} (P : Game -> Prop) (f : Game -> option A) : keeps P (attr f).
Proof. apply keeps_same. intros g. unfold attr. now destruct (f g). Qed.

Lemma same_ball_steady bl f : steady (same_ball bl) f.
Proof. intros b' H. unfold same_ball in *. rewrite H. reflexivity. Qed.

Lemma same_frame_fields g0 g :
  same_frame g0 g ->
  lives g = lives g0 /\ height g = height g0 /\ ball g = ball g0 /\
  timers g = timers g0 /\ hud g = hud g0 /\ items g = items g0.
Proof. intros H. rewrite H. now repeat split. Qed.

Lemma set_speed_run w self b s :
  heap w !! self = Some (OBall b) ->
  set_speed self s w = (Ok tt, set_heap (<[self := OBall (with_speed b s)]>) w).
Proof.
  intros Hb. unfold set_speed. now rewrite (bind_ok _ _ _ _ _ (as_ball_ok _ _ _ Hb)).
Qed.

Section GameLoop.

Variable find_overlapping : Canvas -> Q -> Q -> Q -> Q -> list Z.

Lemma keeps_check_collisions g0 self F :
  steady F flip_y -> steady F (set_x 1) -> steady F (set_x (-1)) ->
  keeps (fun g => same_frame g0 g /\ ball_sat self F (world g))
        (Game_check_collisions find_overlapping).
Proof.
  intros Hy H1 H2. unfold Game_check_collisions.
  apply keeps_bind; [apply keeps_attr | intros b].
  apply keeps_bind; [apply keeps_in_world, keeps_get_position | intros pos].
  apply keeps_bind.
  { destruct pos as [|? [|? [|? [|? [|]]]]]; (apply keeps_raise || apply keeps_gets). }
  intros found. apply keeps_bind; [apply keeps_gets | intros objs].
  apply keeps_in_world. now apply keeps_Ball_collide.
Qed.

(** The collisions of a tick change nothing of the game but the world, and
    of the ball nothing but its direction. *)
Lemma check_collisions_frame g g1 r b bl :
  heap (world g) !! b = Some (OBall bl) ->
  Game_check_collisions find_overlapping g = (r, g1) ->
  same_frame g g1 /\
  exists d1, heap (world g1) !! b = Some (OBall (with_direction bl d1)).
Proof.
  intros Hb Hrun.
  destruct (keeps_check_collisions g b (same_ball bl)
              (same_ball_steady _ _) (same_ball_steady _ _) (same_ball_steady _ _) g)
    as (Hframe & b' & Hb' & Hsame).
  { split; [apply same_frame_refl|]. exists bl. split; [exact Hb|].
    unfold same_ball. now rewrite with_direction_same. }
  rewrite Hrun in *. cbn [snd] in *. split; [exact Hframe|].
  exists (direction b'). now rewrite <- Hsame.
Qed.


(** One tick, once the collisions are resolved: the win check, then the
    miss check, then the move. *)
Lemma game_loop_after_collisions g g1 b bl1 :
  ball g1 = Some b -> heap (world g1) !! b = Some (OBall bl1) ->
  Game_check_collisions find_overlapping g = (Ok tt, g1) ->
  Game_game_loop find_overlapping g =
    if (length (find_withtag "brick" (canvas (world g1))) =? 0)%nat then
      (Ok tt,
       set_world (fun w =>
         MkWorld (create_text 300 200 "You've won!" ("Helvetica", 40) (canvas w)).2
                 (<[b := OBall (with_speed bl1 None)]> (heap w)) (next_ref w)) g1)
    else
      match coords (ball_item bl1) (canvas (world g1)) !! 3%nat with
      | None => (Raise IndexError, g1)
      | Some bottom =>
          if Qleb (inject_Z (height g1)) bottom then
            let g2 := set_lives (lives g1 - 1)
                        (set_world (set_heap (<[b := OBall (with_speed bl1 None)]>)) g1) in
            if lives g1 - 1 <? 0 then
              (Ok tt,
               set_world (set_canvas (fun c =>
                 (create_text 300 200 "Game Over" ("Helvetica", 40) c).2)) g2)
            else (Ok tt, set_timers (fun l => l ++ [(1000, CbSetupGame)]) g2)
          else (in_world (Ball_update b) ;;; after 50 CbGameLoop) g1
      end.
Proof.
  intros Hball Hb Hcc. unfold Game_game_loop.
  rewrite (bind_ok _ _ _ _ _ Hcc).
  unfold gets at 1. unfold bind at 1. cbv beta iota.
  assert (Hattr : attr ball g1 = (Ok b, g1)) by (unfold attr; now rewrite Hball).
  assert (Hfreeze : in_world (set_speed b None) g1 =
            (Ok tt, set_world (fun _ => set_heap (<[b := OBall (with_speed bl1 None)]>)
                                                  (world g1)) g1))
    by (apply in_world_run, set_speed_run, Hb).
  destruct (length _ =? 0)%nat.
  - rewrite (bind_ok _ _ _ _ _ Hattr), (bind_ok _ _ _ _ _ Hfreeze). reflexivity.
  - rewrite (bind_ok _ _ _ _ _ Hattr).
    erewrite bind_ok by (apply in_world_run, get_position_ok, Hb). cbn [item].
    replace (set_world (fun _ => world g1) g1) with g1 by (now destruct g1).
    unfold index. destruct (coords (ball_item bl1) (canvas (world g1)) !! 3%nat) as [bottom|];
      [|reflexivity].
    change (bind (ret bottom) ?k g1) with (k bottom g1). cbv beta.
    unfold gets at 1. unfold bind at 1. cbv beta iota.
    destruct (Qleb (inject_Z (height g1)) bottom); [|reflexivity].
    rewrite (bind_ok _ _ _ _ _ Hfreeze).
    unfold modify at 1. unfold bind at 1. cbv beta iota.
    unfold gets at 1. unfold bind at 1. cbv beta iota.
    cbn [lives set_lives set_world].
    destruct (lives g1 - 1 <? 0); reflexivity.
Qed.


(** C2. Within a tick, the collisions are resolved first; the win check
    comes next and reads the canvas the collisions left; the miss check comes
    after it and the move last.  So when the collisions of the tick destroy
    the last brick, the game is won whatever the position of the ball, also
    with its bottom edge at or past the playfield height: the ball is frozen
    (speed None) and not moved, "You've won!" is drawn, the lives are not
    decremented and nothing is scheduled.  While bricks remain, a ball at or
    below the playfield height costs a life and is not moved; only a ball
    above it is updated, and the next tick scheduled. *)
Theorem game_loop_order (g g1 : Game) (b : ref) (bl : Ball) :
  ball g = Some b -> heap (world g) !! b = Some (OBall bl) ->
  Game_check_collisions find_overlapping g = (Ok tt, g1) ->
  exists d1,
    heap (world g1) !! b = Some (OBall (with_direction bl d1)) /\
    (find_withtag "brick" (canvas (world g1)) = [] ->
     exists g',
       Game_game_loop find_overlapping g = (Ok tt, g') /\
       heap (world g') !! b = Some (OBall (with_speed (with_direction bl d1) None)) /\
       canvas (world g') =
         (create_text 300 200 "You've won!" ("Helvetica", 40) (canvas (world g1))).2 /\
       lives g' = lives g /\ timers g' = timers g) /\
    (forall x0 y0 x1 y1,
       find_withtag "brick" (canvas (world g1)) <> [] ->
       coords (ball_item bl) (canvas (world g1)) = [x0; y0; x1; y1] ->
       ((inject_Z (height g) <= y1)%Q ->
        exists g',
          Game_game_loop find_overlapping g = (Ok tt, g') /\
          lives g' = lives g - 1 /\
          canvas (world g') =
            if lives g - 1 <? 0
            then (create_text 300 200 "Game Over" ("Helvetica", 40) (canvas (world g1))).2
            else canvas (world g1)) /\
       (~ (inject_Z (height g) <= y1)%Q ->
        Game_game_loop find_overlapping g =
          (in_world (Ball_update b) ;;; after 50 CbGameLoop) g1)).
Proof.
  intros Hball Hb Hcc.
  destruct (check_collisions_frame _ _ _ _ _ Hb Hcc) as (Hframe & d1 & Hb1).
  destruct (same_frame_fields _ _ Hframe) as (Hlives & Hheight & Hball1 & Htimers & _).
  rewrite Hball in Hball1.
  pose proof (game_loop_after_collisions g g1 b _ Hball1 Hb1 Hcc) as Hrun.
  exists d1. split; [exact Hb1|]. split.
  - intros Hnone. rewrite Hnone in Hrun. cbn [length Nat.eqb] in Hrun.
    eexists. split; [exact Hrun|]. cbn [world set_world heap canvas].
    split; [apply lookup_insert_eq|]. split; [reflexivity|].
    split; [exact Hlives | exact Htimers].
  - intros x0 y0 x1 y1 Hsome Hc.
    destruct (find_withtag "brick" (canvas (world g1))) as [|i rest]; [contradiction|].
    cbn [length Nat.eqb] in Hrun.
    change (ball_item (with_direction bl d1)) with (ball_item bl) in Hrun.
    rewrite Hc in Hrun. cbn [lookup list_lookup] in Hrun. rewrite Hheight, Hlives in Hrun.
    split; intros Hy.
    + apply Qleb_le in Hy. rewrite Hy in Hrun. cbv zeta in Hrun.
      destruct (lives g - 1 <? 0); (eexists; split; [exact Hrun|]);
        (split; reflexivity).
    + apply Qleb_nle in Hy. now rewrite Hy in Hrun.
Qed.

(** C3 (amended). On a tick where bricks remain after the collisions and the
    ball's bottom edge is at or past the playfield height, the game freezes
    the ball (speed None, nothing else of the heap changes) and decrements
    the lives by one.  The HUD is not touched on that tick: if the new lives
    value is negative the canvas only gains the text "Game Over" and nothing
    is scheduled (so from 0 lives the game is over, with no re-serve);
    otherwise the canvas is left as it is and [setup_game], the fresh serve,
    is scheduled 1000 ms later. *)
Theorem game_loop_miss (g g1 : Game) (b : ref) (bl : Ball) (x0 y0 x1 y1 : Q) :
  ball g = Some b -> heap (world g) !! b = Some (OBall bl) ->
  Game_check_collisions find_overlapping g = (Ok tt, g1) ->
  find_withtag "brick" (canvas (world g1)) <> [] ->
  coords (ball_item bl) (canvas (world g1)) = [x0; y0; x1; y1] ->
  (inject_Z (height g) <= y1)%Q ->
  exists d1 g',
    Game_game_loop find_overlapping g = (Ok tt, g') /\
    heap (world g') =
      <[b := OBall (with_speed (with_direction bl d1) None)]> (heap (world g1)) /\
    lives g' = lives g - 1 /\
    hud g' = hud g /\
    (lives g - 1 < 0 ->
     canvas (world g') =
       (create_text 300 200 "Game Over" ("Helvetica", 40) (canvas (world g1))).2 /\
     timers g' = timers g) /\
    (0 <= lives g - 1 ->
     canvas (world g') = canvas (world g1) /\
     timers g' = timers g ++ [(1000, CbSetupGame)]).
Proof.
  intros Hball Hb Hcc Hsome Hc Hy.
  destruct (check_collisions_frame _ _ _ _ _ Hb Hcc) as (Hframe & d1 & Hb1).
  destruct (same_frame_fields _ _ Hframe) as (Hlives & Hheight & Hball1 & Htimers & Hhud & _).
  rewrite Hball in Hball1.
  pose proof (game_loop_after_collisions g g1 b _ Hball1 Hb1 Hcc) as Hrun.
  destruct (find_withtag "brick" (canvas (world g1))) as [|i rest]; [contradiction|].
  cbn [length Nat.eqb] in Hrun.
  change (ball_item (with_direction bl d1)) with (ball_item bl) in Hrun.
  rewrite Hc in Hrun. cbn [lookup list_lookup] in Hrun. rewrite Hheight, Hlives in Hrun.
  apply Qleb_le in Hy. rewrite Hy in Hrun. cbv zeta in Hrun.
  exists d1.
  destruct (lives g - 1 <? 0) eqn:E; (eexists; split; [exact Hrun|]);
    cbn [world set_world set_timers set_lives heap canvas lives hud timers set_heap set_canvas];
    (split; [reflexivity|]); (split; [reflexivity|]); (split; [exact Hhud|]).
  - apply Z.ltb_lt in E. split; [intros _; split; [reflexivity | exact Htimers] | lia].
  - apply Z.ltb_ge in E. split; [lia|]. intros _. split; [reflexivity | now rewrite Htimers].
Qed.

End GameLoop.

Lemma game_loop_order_witness :
  coords 3 (canvas (world game_last_brick)) = [830 # 2; 380; 870 # 2; 400]%Q /\
  height game_last_brick = 400 /\
  find_withtag "brick" (canvas (world game_last_brick)) = [2] /\
  exists g',
    Game_game_loop bbox_overlapping game_last_brick = (Ok tt, g') /\
    heap (world g') !! 2%nat = Some (OBall (MkBall 3 10 (1, 1) None)) /\
    find_withtag "brick" (canvas (world g')) = [] /\
    lives g' = 3 /\ timers g' = [].
Proof.
  split; [reflexivity|]. split; [reflexivity|]. split; [reflexivity|].
  destruct (game_loop_order bbox_overlapping game_last_brick
              (Game_check_collisions bbox_overlapping game_last_brick).2
              2 (MkBall 3 10 (1, -1) (Some 10)) eq_refl eq_refl)
    as (d1 & Hb1 & Hwin & _).
  - vm_compute. reflexivity.
  - destruct (Hwin ltac:(vm_compute; reflexivity)) as (g' & Hrun & Hb' & Hcanvas & Hlives & Htimers).
    exists g'. split; [exact Hrun|].
    assert (Hd1 : d1 = (1, 1)) by (vm_compute in Hb1; congruence).
    subst d1. split; [exact Hb'|]. split; [rewrite Hcanvas; vm_compute; reflexivity|].
    split; [exact Hlives | exact Htimers].
Defined.

(** C3, as stated, fails on the HUD: after the tick that notices the miss in
    [game_at_floor] the lives are 2, and the HUD item still reads
    "Lives: 3". *)
Lemma game_loop_miss_leaves_hud :
  hud game_at_floor = Some 27 /\
  lives game_at_floor = 3 /\
  (Game_game_loop bbox_overlapping game_at_floor).1 = Ok tt /\
  lives (Game_game_loop bbox_overlapping game_at_floor).2 = 2 /\
  ci_text <$> citems (canvas (world (Game_game_loop bbox_overlapping game_at_floor).2)) !! 27
    = Some "Lives: 3" /\
  lives_text 2 = "Lives: 2".
Proof. repeat split; vm_compute; reflexivity. Qed.

Lemma game_loop_miss_witness :
  (lives game_at_floor = 3 /\
   exists g',
     Game_game_loop bbox_overlapping game_at_floor = (Ok tt, g') /\
     lives g' = 2 /\ timers g' = [(1000, CbSetupGame)]) /\
  (lives game_at_floor_last_life = 0 /\
   exists g',
     Game_game_loop bbox_overlapping game_at_floor_last_life = (Ok tt, g') /\
     lives g' = -1 /\ timers g' = [] /\
     canvas (world g') =
       (create_text 300 200 "Game Over" ("Helvetica", 40)
          (canvas (world game_at_floor_last_life))).2).
Proof.
  split; (split; [reflexivity|]).
  - destruct (game_loop_miss bbox_overlapping game_at_floor
                (Game_check_collisions bbox_overlapping game_at_floor).2
                25 (MkBall 26 10 (-1, 1) (Some 10)) (830 # 2) 380 (870 # 2) 400
                eq_refl eq_refl)
      as (d1 & g' & Hrun & _ & Hlives & _ & _ & Hserve);
      [vm_compute; reflexivity | vm_compute; discriminate | vm_compute; reflexivity
      | vm_compute; discriminate |].
    exists g'. split; [exact Hrun|]. split; [exact Hlives|].
    apply Hserve. vm_compute. discriminate.
  - destruct (game_loop_miss bbox_overlapping game_at_floor_last_life
                (Game_check_collisions bbox_overlapping game_at_floor_last_life).2
                25 (MkBall 26 10 (-1, 1) (Some 10)) (830 # 2) 380 (870 # 2) 400
                eq_refl eq_refl)
      as (d1 & g' & Hrun & _ & Hlives & _ & Hover & _);
      [vm_compute; reflexivity | vm_compute; discriminate | vm_compute; reflexivity
      | vm_compute; discriminate |].
    exists g'. split; [exact Hrun|]. split; [exact Hlives|].
    destruct (Hover ltac:(vm_compute; reflexivity)) as [Hc Ht].
    split; [exact Ht | exact Hc].
Defined.

(** ** Concrete instances *)

Lemma direction_invariant_witness :
  heap (world game_at_brick) !! 25%nat = Some (OBall (MkBall 26 10 (1, -1) (Some 10))) /\
  dir_ok (1, -1) /\
  (exists b', heap (Ball_update 25 (world game_at_brick)).2 !! 25%nat = Some (OBall b') /\
              dir_ok (direction b')) /\
  (exists b', heap (Ball_collide 25 [21%nat] (world game_at_brick)).2 !! 25%nat
                = Some (OBall b') /\
              dir_ok (direction b')).
Proof.
  split; [reflexivity|].
  assert (Hd : dir_ok (1, -1)) by (unfold dir_ok; cbn; lia).
  split; [exact Hd|].
  destruct direction_invariant as (_ & Hupdate & Hcollide).
  split.
  - exact (Hupdate (world game_at_brick) 25%nat (MkBall 26 10 (1, -1) (Some 10)) eq_refl Hd).
  - exact (Hcollide (world game_at_brick) 25%nat (MkBall 26 10 (1, -1) (Some 10)) [21%nat]
             eq_refl Hd).
Defined.

Lemma Brick_init_fails_fast_witness :
  Brick_init (85 # 2) 50 0 (MkWorld (MkCanvas ∅ 1 610) ∅ 0)
    = (Raise KeyError, MkWorld (MkCanvas ∅ 1 610) ∅ 0) /\
  exists color,
    COLORS !! 2 = Some color /\
    Brick_init (85 # 2) 50 2 (MkWorld (MkCanvas ∅ 1 610) ∅ 0) =
      (Ok 0%nat,
       MkWorld (create_rectangle ((85 # 2) - 37) (50 - 10) ((85 # 2) + 37) (50 + 10) color
                                 ["brick"] (MkCanvas ∅ 1 610)).2
               (<[0%nat := OBrick (MkBrick 1 75 20 2)]> ∅) 1).
Proof.
  split.
  - apply (proj1 (Brick_init_fails_fast (85 # 2) 50 0 (MkWorld (MkCanvas ∅ 1 610) ∅ 0))). lia.
  - apply (proj2 (Brick_init_fails_fast (85 # 2) 50 2 (MkWorld (MkCanvas ∅ 1 610) ∅ 0))). lia.
Defined.

(** * Further properties of the program *)

(** ** Ball.update on a moving ball, and on a ball that is not drawn *)



(** X2. On an object whose canvas item is gone (the canvas reports no
    coordinates for it), [Ball.update] and [Ball.collide] raise IndexError at
    the first coordinate they read and change nothing: no direction is
    reversed, nothing is moved and no brick is hit. *)
Theorem Ball_without_item (w : World) (self : ref) (o : obj) (objs : list ref) :
  heap w !! self = Some o -> coords (item o) (canvas w) = [] ->
  Ball_update self w = (Raise IndexError, w) /\
  Ball_collide self objs w = (Raise IndexError, w).
Proof.
  intros Ho Hc. split.
  - unfold Ball_update. rewrite (bind_ok _ _ _ _ _ (get_position_ok _ _ _ Ho)), Hc.
    reflexivity.
  - unfold Ball_collide. rewrite (bind_ok _ _ _ _ _ (get_position_ok _ _ _ Ho)), Hc.
    reflexivity.
Qed.

Lemma Ball_without_item_witness :
  heap (GameObject_delete 25 (world game_at_brick)).2 !! 25%nat
    = Some (OBall (MkBall 26 10 (1, -1) (Some 10))) /\
  coords 26 (canvas (GameObject_delete 25 (world game_at_brick)).2) = [] /\
  Ball_update 25 (GameObject_delete 25 (world game_at_brick)).2
    = (Raise IndexError, (GameObject_delete 25 (world game_at_brick)).2) /\
  Ball_collide 25 [21%nat] (GameObject_delete 25 (world game_at_brick)).2
    = (Raise IndexError, (GameObject_delete 25 (world game_at_brick)).2).
Proof.
  split; [reflexivity|]. split; [reflexivity|].
  apply (Ball_without_item (GameObject_delete 25 (world game_at_brick)).2 25
           (OBall (MkBall 26 10 (1, -1) (Some 10))) [21%nat]); reflexivity.
Defined.

(** ** The paddle stays on the canvas *)

(** X3. A paddle whose box lies within the horizontal interval from 0 to the
    canvas width still lies within it after [Paddle.move], whatever the
    offset; the move returns normally, the vertical coordinates are the
    same and the box keeps its width. *)
Theorem Paddle_stays_in_bounds (w : World) (self : ref) (p : Paddle)
    (x0 y0 x1 y1 offset : Q) :
  heap w !! self = Some (OPaddle p) ->
  coords (paddle_item p) (canvas w) = [x0; y0; x1; y1] ->
  (forall r, paddle_ball p = Some r ->
     exists b, heap w !! r = Some (OBall b) /\ ball_item b <> paddle_item p) ->
  (0 <= x0)%Q -> (x1 <= inject_Z (winfo_width (canvas w)))%Q ->
  exists w' x0' x1',
    Paddle_move self offset w = (Ok tt, w') /\
    winfo_width (canvas w') = winfo_width (canvas w) /\
    coords (paddle_item p) (canvas w') = [x0'; y0; x1'; y1] /\
    (0 <= x0')%Q /\ (x1' <= inject_Z (winfo_width (canvas w)))%Q /\
    (x1' - x0' == x1 - x0)%Q.
Proof.
  intros Hp Hc Hball H0 H1. rewrite (Paddle_move_run _ _ _ _ _ _ _ _ Hp Hc).
  destruct (Qleb 0 (x0 + offset)) eqn:E0;
    [destruct (Qleb (x1 + offset) (inject_Z (winfo_width (canvas w)))) eqn:E1|];
    cbn [andb].
  2,3: (exists w, x0, x1; repeat split; try assumption; reflexivity).
  apply Qleb_le in E0, E1.
  rewrite (bind_ok _ _ _ _ _ (GameObject_move_run _ _ _ _ _ Hp)). cbn [item].
  set (w1 := set_canvas (canvas_move (paddle_item p) offset 0) w).
  assert (Hp1 : heap w1 !! self = Some (OPaddle p)) by exact Hp.
  assert (Hc1 : coords (paddle_item p) (canvas w1) = [x0 + offset; y0; x1 + offset; y1]%Q).
  { subst w1. cbn [canvas set_canvas]. now rewrite coords_canvas_move_eq, Hc, shift_box_x. }
  rewrite (bind_ok _ _ _ _ _ (as_paddle_ok _ _ _ Hp1)).
  assert (Hw : (x1 + offset - (x0 + offset) == x1 - x0)%Q) by ring.
  destruct (paddle_ball p) as [r|] eqn:Hpb.
  - destruct (Hball r eq_refl) as (b & Hr & Hne).
    assert (Hr1 : heap w1 !! r = Some (OBall b)) by exact Hr.
    rewrite (GameObject_move_run _ _ _ _ _ Hr1). cbn [item].
    eexists _, (x0 + offset)%Q, (x1 + offset)%Q. split; [reflexivity|].
    split; [reflexivity|]. split.
    + cbn [canvas set_canvas]. rewrite coords_canvas_move_ne by exact Hne. exact Hc1.
    + repeat split; assumption.
  - eexists _, (x0 + offset)%Q, (x1 + offset)%Q. split; [reflexivity|].
    split; [reflexivity|]. split; [exact Hc1|]. repeat split; assumption.
Qed.

Lemma Paddle_stays_in_bounds_witness :
  heap (world game0) !! 0%nat = Some (OPaddle (MkPaddle 1 80 10 (Some 25%nat))) /\
  coords 1 (canvas (world game0)) = [265; 321; 345; 331]%Q /\
  exists w' x0' x1',
    Paddle_move 0 (-300) (world game0) = (Ok tt, w') /\
    coords 1 (canvas w') = [x0'; 321; x1'; 331]%Q /\
    (0 <= x0')%Q /\ (x1' <= 610)%Q.
Proof.
  split; [reflexivity|]. split; [reflexivity|].
  destruct (Paddle_stays_in_bounds (world game0) 0 (MkPaddle 1 80 10 (Some 25%nat))
              265 321 345 331 (-300) eq_refl eq_refl)
    as (w' & x0' & x1' & Hrun & _ & Hc & H0 & H1 & _).
  - intros r [= <-]. exists (MkBall 26 10 (1, -1) (Some 10)). split; [reflexivity | discriminate].
  - discriminate.
  - discriminate.
  - exists w', x0', x1'. repeat split; assumption.
Defined.

(** ** Game.add_brick *)

Lemma length_find_withtag tag c :
  length (find_withtag tag c) = size (filter (fun p => has_tag tag p.2 = true) (citems c)).
Proof. unfold find_withtag. now rewrite length_fmap, length_map_to_list. Qed.

Lemma in_world_same g : set_world (fun _ => world g) g = g.
Proof. now destruct g. Qed.

(** X4. [Game.add_brick] with a hit count in {1,2,3} returns normally: it
    draws one rectangle, 74 by 20 around (x, y) and tagged "brick", creates
    a Brick with that hit count, and registers the brick in [Game.items]
    under the handle of its rectangle; on a canvas where that handle is new
    the number of items tagged "brick" goes up by one.  Lives, ball, paddle,
    HUD, timers and every other object and canvas item are as before. *)
Theorem Game_add_brick_registers (g : Game) (x y : Q) (h : Z) :
  1 <= h <= 3 ->
  exists g' color,
    Game_add_brick x y h g = (Ok tt, g') /\
    COLORS !! h = Some color /\
    g' = set_items (<[next_id (canvas (world g)) := next_ref (world g)]>)
           (set_world (fun w =>
              MkWorld (create_rectangle (x - 37) (y - 10) (x + 37) (y + 10) color ["brick"]
                                        (canvas w)).2
                      (<[next_ref w := OBrick (MkBrick (next_id (canvas w)) 75 20 h)]> (heap w))
                      (S (next_ref w))) g) /\
    items g' !! next_id (canvas (world g)) = Some (next_ref (world g)) /\
    heap (world g') !! next_ref (world g)
      = Some (OBrick (MkBrick (next_id (canvas (world g))) 75 20 h)) /\
    coords (next_id (canvas (world g))) (canvas (world g'))
      = [x - 37; y - 10; x + 37; y + 10]%Q /\
    (citems (canvas (world g)) !! next_id (canvas (world g)) = None ->
     length (find_withtag "brick" (canvas (world g')))
       = S (length (find_withtag "brick" (canvas (world g))))).
Proof.
  intros Hh. destruct (COLORS_some h Hh) as [color Hc].
  eexists _, color.
  assert (Hrun : Game_add_brick x y h g =
            (Ok tt, set_items (<[next_id (canvas (world g)) := next_ref (world g)]>)
           (set_world (fun w =>
              MkWorld (create_rectangle (x - 37) (y - 10) (x + 37) (y + 10) color ["brick"]
                                        (canvas w)).2
                      (<[next_ref w := OBrick (MkBrick (next_id (canvas w)) 75 20 h)]> (heap w))
                      (S (next_ref w))) g))).
  { unfold Game_add_brick, Brick_init. rewrite Hc.
    unfold bind, in_world, zoom, on_canvas, alloc, deref, modify. cbn.
    rewrite lookup_insert_eq. reflexivity. }
  split; [exact Hrun|]. split; [exact Hc|]. split; [reflexivity|].
  cbn. split; [apply lookup_insert_eq|]. split; [apply lookup_insert_eq|]. split.
  - unfold coords. cbn. now rewrite lookup_insert_eq.
  - intros Hfresh. rewrite !length_find_withtag. cbn.
    rewrite map_filter_insert_True by reflexivity.
    apply map_size_insert_None, map_lookup_filter_None_2. now left.
Qed.

Lemma Game_add_brick_registers_witness :
  citems (canvas (world game0)) !! 29 = None /\
  length (find_withtag "brick" (canvas (world game0))) = 24%nat /\
  exists g',
    Game_add_brick 305 130 3 game0 = (Ok tt, g') /\
    items g' !! 29 = Some 26%nat /\
    heap (world g') !! 26%nat = Some (OBrick (MkBrick 29 75 20 3)) /\
    length (find_withtag "brick" (canvas (world g'))) = 25%nat.
Proof.
  split; [reflexivity|]. split; [reflexivity|].
  destruct (Game_add_brick_registers game0 305 130 3 ltac:(lia))
    as (g' & color & Hrun & _ & _ & Hitems & Hheap & _ & Hcount).
  exists g'. split; [exact Hrun|]. split; [exact Hitems|]. split; [exact Hheap|].
  exact (Hcount eq_refl).
Defined.

(** X5. [Game.add_brick] with a hit count outside {1,2,3} raises KeyError
    and leaves the game as it was: no rectangle is drawn, no object is
    created and [Game.items] gets no entry. *)
Theorem Game_add_brick_bad_hits (g : Game) (x y : Q) (h : Z) :
  ~ (1 <= h <= 3) -> Game_add_brick x y h g = (Raise KeyError, g).
Proof.
  intros Hh. unfold Game_add_brick, Brick_init. rewrite COLORS_none by exact Hh.
  unfold bind, in_world, zoom, raise. now rewrite in_world_same.
Qed.

Lemma Game_add_brick_bad_hits_witness :
  Game_add_brick 305 130 4 game0 = (Raise KeyError, game0).
Proof. apply Game_add_brick_bad_hits. lia. Defined.

(** ** Game.update_lives_text *)

(** X6. After [Game.update_lives_text] the HUD item reads "Lives: " followed
    by the lives counter.  The first call (no HUD yet) draws the text at
    (50, 20) and remembers its handle; a later call rewrites the text of the
    remembered item and creates nothing.  Lives and the heap are as
    before. *)
Theorem update_lives_text_shows_lives (g : Game) :
  (forall h, hud g = Some h -> is_Some (citems (canvas (world g)) !! h)) ->
  exists g' h it,
    Game_update_lives_text g = (Ok tt, g') /\
    hud g' = Some h /\
    citems (canvas (world g')) !! h = Some it /\
    ci_text it = lives_text (lives g) /\
    lives g' = lives g /\ heap (world g') = heap (world g) /\
    (hud g = None ->
     h = next_id (canvas (world g)) /\ ci_coords it = [50; 20]%Q /\
     next_id (canvas (world g')) = next_id (canvas (world g)) + 1) /\
    (forall h0, hud g = Some h0 ->
     h = h0 /\ next_id (canvas (world g')) = next_id (canvas (world g)) /\
     forall i, i <> h0 -> citems (canvas (world g')) !! i = citems (canvas (world g)) !! i).
Proof.
  intros Hhud. unfold Game_update_lives_text.
  unfold gets, bind. cbv beta iota.
  destruct (hud g) as [h0|] eqn:E.
  - destruct (Hhud h0 eq_refl) as [it Hit].
    unfold in_world, zoom, modify. cbn.
    eexists _, h0, (set_text (lives_text (lives g)) it).
    split; [reflexivity|]. cbn. split; [exact E|].
    split; [now rewrite lookup_alter_eq, Hit|]. split; [reflexivity|].
    split; [reflexivity|]. split; [reflexivity|]. split; [discriminate|].
    intros h1 [= <-]. split; [reflexivity|]. split; [reflexivity|].
    intros i Hi. now rewrite lookup_alter_ne by congruence.
  - unfold Game_draw_text, in_world, zoom, on_canvas, modify. cbn.
    eexists _, _, _. split; [reflexivity|]. cbn. split; [reflexivity|].
    split; [apply lookup_insert_eq|]. split; [reflexivity|].
    split; [reflexivity|]. split; [reflexivity|].
    split; [intros _; now repeat split | discriminate].
Qed.

Lemma update_lives_text_shows_lives_witness :
  hud game_missed = Some 27 /\ lives game_missed = 2 /\
  ci_text <$> citems (canvas (world game_missed)) !! 27 = Some "Lives: 3" /\
  exists g' it,
    Game_update_lives_text game_missed = (Ok tt, g') /\
    citems (canvas (world g')) !! 27 = Some it /\
    ci_text it = "Lives: 2".
Proof.
  split; [reflexivity|]. split; [reflexivity|]. split; [reflexivity|].
  destruct (update_lives_text_shows_lives game_missed)
    as (g' & h & it & Hrun & _ & Hit & Ht & _ & _ & _ & Hsame).
  - intros h [= <-]. eexists. reflexivity.
  - exists g', it. split; [exact Hrun|].
    destruct (Hsame 27 eq_refl) as [-> _].
    split; [exact Hit|]. rewrite Ht. reflexivity.
Defined.

(** ** Game.add_ball *)

Lemma Ball_init_run x y w :
  Ball_init x y w =
    (Ok (next_ref w),
     MkWorld (create_oval (x - 10) (y - 10) (x + 10) (y + 10) "white" (canvas w)).2
             (<[next_ref w := OBall (MkBall (next_id (canvas w)) 10 (1, -1) (Some 10))]> (heap w))
             (S (next_ref w))).
Proof. reflexivity. Qed.

Lemma Paddle_set_ball_run w p pd v :
  heap w !! p = Some (OPaddle pd) ->
  Paddle_set_ball p v w =
    (Ok tt, set_heap (<[p := OPaddle (MkPaddle (paddle_item pd) (paddle_width pd)
                                               (paddle_height pd) v)]>) w).
Proof.
  intros Hp. unfold Paddle_set_ball. now rewrite (bind_ok _ _ _ _ _ (as_paddle_ok _ _ _ Hp)).
Qed.

(** X7. [Game.add_ball] serves a new ball: it deletes the canvas item of
    the previous ball, if there is one, draws an oval of radius 10 centred
    above the middle of the paddle at height 310, creates a Ball with
    direction (1, -1) and speed 10, makes it the ball of the game and makes
    the paddle carry that very ball.  Lives, HUD and timers are as
    before. *)
Theorem Game_add_ball_serves (g : Game) (p : ref) (pd : Paddle) (x0 y0 x1 y1 : Q) :
  paddle g = Some p ->
  heap (world g) !! p = Some (OPaddle pd) ->
  coords (paddle_item pd) (canvas (world g)) = [x0; y0; x1; y1] ->
  p <> next_ref (world g) ->
  (forall b, ball g = Some b ->
     exists o, heap (world g) !! b = Some o /\ item o <> paddle_item pd) ->
  exists g',
    Game_add_ball g = (Ok tt, g') /\
    ball g' = Some (next_ref (world g)) /\
    heap (world g') !! next_ref (world g)
      = Some (OBall (MkBall (next_id (canvas (world g))) 10 (1, -1) (Some 10))) /\
    heap (world g') !! p
      = Some (OPaddle (MkPaddle (paddle_item pd) (paddle_width pd) (paddle_height pd)
                                (Some (next_ref (world g))))) /\
    coords (next_id (canvas (world g))) (canvas (world g'))
      = [(x0 + x1) * (1 # 2) - 10; 310 - 10; (x0 + x1) * (1 # 2) + 10; 310 + 10]%Q /\
    (forall b o, ball g = Some b -> heap (world g) !! b = Some o ->
       item o <> next_id (canvas (world g)) ->
       citems (canvas (world g')) !! item o = None) /\
    lives g' = lives g /\ hud g' = hud g /\ timers g' = timers g /\ items g' = items g.
Proof.
  intros Hp Hpd Hc Hnew Hold.
  unfold Game_add_ball. unfold gets at 1. unfold bind at 1. cbv beta iota.
  assert (Hdel : exists c1,
    (match ball g with
     | Some b => in_world (GameObject_delete b)
     | None => ret tt
     end) g = (Ok tt, set_world (set_canvas (fun _ => c1)) g) /\
    coords (paddle_item pd) c1 = [x0; y0; x1; y1] /\
    next_id c1 = next_id (canvas (world g)) /\
    (forall b o, ball g = Some b -> heap (world g) !! b = Some o -> citems c1 !! item o = None)).
  { destruct (ball g) as [b|] eqn:Eb.
    - destruct (Hold b eq_refl) as (o & Ho & Hne).
      exists (canvas_delete (item o) (canvas (world g))). split; [|split; [|split]].
      + unfold in_world, zoom, GameObject_delete. rewrite (bind_ok _ _ _ _ _ (deref_ok _ _ _ Ho)).
        reflexivity.
      + unfold coords, canvas_delete, set_citems in *. cbn.
        now rewrite lookup_delete_ne by exact Hne.
      + reflexivity.
      + intros b' o' [= <-] Ho'. rewrite Ho in Ho'. injection Ho' as <-.
        unfold canvas_delete, set_citems. cbn. apply lookup_delete_eq.
    - exists (canvas (world g)). split; [|split; [|split]]; try reflexivity; try assumption.
      + unfold ret. f_equal. now destruct g as [[? ? ?] ? ? ? ? ? ? ? ? ? ? ?].
      + discriminate. }
  destruct Hdel as (c1 & Hdel & Hc1 & Hid & Hgone).
  rewrite (bind_ok _ _ _ _ _ Hdel).
  set (g1 := set_world (set_canvas (fun _ => c1)) g).
  assert (Hattr : attr paddle g1 = (Ok p, g1)) by (unfold attr; cbn; now rewrite Hp).
  rewrite (bind_ok _ _ _ _ _ Hattr).
  assert (Hpd1 : heap (world g1) !! p = Some (OPaddle pd)) by exact Hpd.
  erewrite bind_ok by (apply in_world_run, get_position_ok, Hpd1).
  rewrite in_world_same. cbn [item]. change (canvas (world g1)) with c1. rewrite Hc1.
  unfold index. cbn [lookup list_lookup].
  change (bind (ret x0) ?k g1) with (k x0 g1). cbv beta.
  change (bind (ret x1) ?k g1) with (k x1 g1). cbv beta.
  erewrite bind_ok by (apply in_world_run, Ball_init_run).
  unfold modify at 1. unfold bind at 1. cbv beta iota.
  erewrite in_world_run; cycle 1.
  { apply (Paddle_set_ball_run _ _ pd). cbn [world set_world set_ball heap].
    rewrite lookup_insert_ne by (intros E; apply Hnew; symmetry; exact E). exact Hpd. }
  subst g1. eexists. split; [reflexivity|].
  cbn [world set_world set_ball set_heap set_canvas heap canvas ball lives hud timers items
       next_ref fst snd create_oval create_item citems next_id].
  rewrite !Hid.
  split; [reflexivity|].
  split; [rewrite lookup_insert_ne by congruence; apply lookup_insert_eq|].
  split; [apply lookup_insert_eq|]. split.
  - unfold coords. cbn [citems]. now rewrite lookup_insert_eq.
  - split; [|now repeat split].
    intros b o Hb Ho Hne. rewrite lookup_insert_ne by congruence. now apply (Hgone b o).
Qed.

Lemma Game_add_ball_serves_witness :
  ball game_missed = Some 25%nat /\
  heap (world game_missed) !! 25%nat = Some (OBall (MkBall 26 10 (-1, 1) None)) /\
  coords 1 (canvas (world game_missed)) = [265; 321; 345; 331]%Q /\
  exists g',
    Game_add_ball game_missed = (Ok tt, g') /\
    ball g' = Some 26%nat /\
    heap (world g') !! 26%nat = Some (OBall (MkBall 29 10 (1, -1) (Some 10))) /\
    heap (world g') !! 0%nat = Some (OPaddle (MkPaddle 1 80 10 (Some 26%nat))) /\
    citems (canvas (world g')) !! 26 = None.
Proof.
  split; [reflexivity|]. split; [reflexivity|]. split; [reflexivity|].
  destruct (Game_add_ball_serves game_missed 0 (MkPaddle 1 80 10 None) 265 321 345 331
              eq_refl eq_refl eq_refl)
    as (g' & Hrun & Hball & Hnew & Hpad & _ & Hgone & _).
  - discriminate.
  - intros b [= <-]. eexists. split; [reflexivity | discriminate].
  - exists g'. split; [exact Hrun|]. split; [exact Hball|]. split; [exact Hnew|].
    split; [exact Hpad|].
    apply (Hgone 25%nat (OBall (MkBall 26 10 (-1, 1) None)) eq_refl eq_refl). discriminate.
Defined.

(** ** The invariant of a game in play *)

Lemma entry_okb_spec w k r : entry_okb w k r = true <-> entry_ok w k r.
Proof.
  unfold entry_okb, entry_ok. rewrite andb_true_iff, Z.ltb_lt.
  split.
  - intros [Hk H]. split; [exact Hk|].
    destruct (heap w !! r) as [[bl|pd|br]|]; try discriminate.
    + apply andb_true_iff in H as [Hi H]. apply bool_decide_eq_true_1 in Hi.
      eexists. split; [reflexivity|]. split; [exact Hi|]. split; [discriminate|].
      intros it Hit. rewrite Hit in H. apply andb_true_iff in H as [Hl _].
      apply Nat.eqb_eq in Hl. split; [exact Hl | discriminate].
    + apply andb_true_iff in H as [Hi H]. apply bool_decide_eq_true_1 in Hi.
      eexists. split; [reflexivity|]. split; [exact Hi|]. split; [discriminate|].
      intros it Hit. rewrite Hit in H. apply andb_true_iff in H as [Hl Hh].
      apply Nat.eqb_eq in Hl. split; [exact Hl|]. intros br' [= <-].
      apply andb_true_iff in Hh as [H1 H3]. apply Z.leb_le in H1, H3. lia.
  - intros [Hk (ob & Hr & Hi & Hnb & Hit)]. split; [exact Hk|]. rewrite Hr.
    destruct ob as [bl|pd|br]; [now destruct (Hnb bl)| |].
    + apply andb_true_iff. split; [now apply bool_decide_eq_true_2|].
      destruct (citems (canvas w) !! k) as [it|]; [|reflexivity].
      destruct (Hit it eq_refl) as [Hl _]. rewrite Hl. reflexivity.
    + apply andb_true_iff. split; [now apply bool_decide_eq_true_2|].
      destruct (citems (canvas w) !! k) as [it|]; [|reflexivity].
      destruct (Hit it eq_refl) as [Hl Hh]. rewrite Hl. cbn.
      specialize (Hh br eq_refl). apply andb_true_iff. split; apply Z.leb_le; lia.
Qed.

Lemma ball_okb_spec g : ball_okb g = true <-> exists b bl, ball_ok g b bl.
Proof.
  unfold ball_okb, ball_ok. split.
  - intros H. destruct (ball g) as [b|] eqn:Eb; [|discriminate].
    destruct (heap (world g) !! b) as [[bl|pd|br]|] eqn:Eh; try discriminate.
    apply andb_true_iff in H as [Hl Hi]. apply Nat.eqb_eq in Hl.
    exists b, bl. split; [reflexivity|]. split; [exact Eh|]. split; [exact Hl|].
    destruct (items g !! ball_item bl); [discriminate | reflexivity].
  - intros (b & bl & -> & -> & Hl & ->). now rewrite Hl.
Qed.

Lemma game_wfb_spec g : game_wfb g = true <-> game_wf g.
Proof.
  unfold game_wfb, game_wf. rewrite !andb_true_iff, !all_entries_lookup, ball_okb_spec.
  split.
  - intros [[H1 H2] H3]. split; [|split; [|exact H3]].
    + intros k it Hk. apply Z.ltb_lt. eapply H1, Hk.
    + intros k r Hk. apply entry_okb_spec. now apply H2.
  - intros (H1 & H2 & H3). split; [split|exact H3].
    + intros k it Hk. apply Z.ltb_lt. eapply H1, Hk.
    + intros k r Hk. apply entry_okb_spec. now apply H2.
Qed.

Lemma canvas_shrinks_refl c : canvas_shrinks c c.
Proof. split; [reflexivity|]. intros k it H. now exists it. Qed.

Lemma canvas_shrinks_trans c0 c1 c2 :
  canvas_shrinks c0 c1 -> canvas_shrinks c1 c2 -> canvas_shrinks c0 c2.
Proof.
  intros [Hn1 H1] [Hn2 H2]. split; [congruence|].
  intros k it Hk. destruct (H2 k it Hk) as (it1 & Hk1 & Hc1).
  destruct (H1 k it1 Hk1) as (it0 & Hk0 & Hc0). exists it0. split; [exact Hk0 | congruence].
Qed.

Lemma canvas_shrinks_delete c i : canvas_shrinks c (canvas_delete i c).
Proof.
  split; [reflexivity|]. intros k it Hk. unfold canvas_delete, set_citems in Hk. cbn in Hk.
  apply lookup_delete_Some in Hk as [_ Hk]. now exists it.
Qed.

Lemma canvas_shrinks_fill c i fill : canvas_shrinks c (itemconfig_fill i fill c).
Proof.
  split; [reflexivity|]. intros k it Hk. unfold itemconfig_fill, set_citems in Hk. cbn in Hk.
  destruct (decide (i = k)) as [->|Hne].
  - rewrite lookup_alter_eq in Hk. destruct (citems c !! k) as [it0|]; [|discriminate].
    injection Hk as <-. now exists it0.
  - rewrite lookup_alter_ne in Hk by exact Hne. now exists it.
Qed.

Lemma keeps_canvas_same {A} (P : Canvas -> Prop) (m : M World A) :
  (forall w, canvas (m w).2 = canvas w) -> keeps (fun w => P (canvas w)) m.
Proof. intros H w Hw. now rewrite H. Qed.

Lemma keeps_shrinks_Brick_hit c0 r :
  keeps (fun w => canvas_shrinks c0 (canvas w)) (Brick_hit r).
Proof.
  intros w Hw. unfold Brick_hit, as_brick, bind, deref.
  destruct (heap w !! r) as [[bl|p|br]|]; cbn; try exact Hw.
  destruct (hits br - 1 =? 0).
  - unfold GameObject_delete, bind, deref. cbn. rewrite lookup_insert_eq. cbn.
    eapply canvas_shrinks_trans; [exact Hw | apply canvas_shrinks_delete].
  - destruct (COLORS !! (hits br - 1)); cbn; [|exact Hw].
    eapply canvas_shrinks_trans; [exact Hw | apply canvas_shrinks_fill].
Qed.

Lemma keeps_shrinks_hit_bricks c0 objs :
  keeps (fun w => canvas_shrinks c0 (canvas w)) (hit_bricks objs).
Proof.
  apply keeps_for_each. intros o.
  apply keeps_bind; [apply keeps_gets|]. intros c. apply keeps_when, keeps_shrinks_Brick_hit.
Qed.

(** A brick of the list that had one hit left is no longer on the canvas
    after the loop. *)
Lemma hit_bricks_deletes objs : forall w,
  NoDup objs ->
  (forall o br, o ∈ objs -> heap w !! o = Some (OBrick br) -> 1 <= hits br <= 3) ->
  forall o br, o ∈ objs -> heap w !! o = Some (OBrick br) -> hits br = 1 ->
  citems (canvas (hit_bricks objs w).2) !! brick_item br = None.
Proof.
  induction objs as [|x objs IH]; intros w Hnd Hlive o br Ho Hbr H1.
  - now apply elem_of_nil in Ho.
  - apply NoDup_cons in Hnd as [Hx Hnd]. rewrite hit_bricks_cons.
    assert (Htail : forall w', heap w' !! o = Some (OBrick br) ->
              (forall o' br', o' ∈ objs -> heap w' !! o' = Some (OBrick br') ->
                              1 <= hits br' <= 3) ->
              o ∈ objs -> citems (canvas (hit_bricks objs w').2) !! brick_item br = None).
    { intros w' Hbr' Hlive' Hin. now apply (IH w' Hnd Hlive' o br). }
    destruct (heap w !! x) as [[bl|p|brx]|] eqn:Hxw.
    1,2,4: (apply Htail; [exact Hbr | intros o' br' Ho'; apply Hlive; now right |];
            apply elem_of_cons in Ho as [->|Ho]; [congruence | exact Ho]).
    erewrite bind_ok
      by (apply (Brick_hit_run _ _ _ Hxw), (Hlive x); [now left | exact Hxw]).
    match goal with |- context [hit_bricks objs ?w1] => set (w' := w1) end.
    assert (Hlive' : forall o' br', o' ∈ objs -> heap w' !! o' = Some (OBrick br') ->
                                    1 <= hits br' <= 3).
    { intros o' br' Ho' Hbr'. apply (Hlive o'); [now right|].
      subst w'. cbn [heap] in Hbr'. rewrite lookup_insert_ne in Hbr'; [exact Hbr'|].
      intros <-. contradiction. }
    apply elem_of_cons in Ho as [->|Ho].
    + rewrite Hxw in Hbr. injection Hbr as ->.
      destruct (citems (canvas (hit_bricks objs w').2) !! brick_item br) as [it|] eqn:E;
        [|reflexivity].
      destruct (keeps_shrinks_hit_bricks (canvas w') objs w' (canvas_shrinks_refl _))
        as [_ Hsub].
      destruct (Hsub _ _ E) as (it0 & Hit0 & _).
      subst w'. cbn [canvas] in Hit0. rewrite H1 in Hit0.
      change (1 - 1 =? 0) with true in Hit0. cbv iota in Hit0.
      unfold canvas_delete, set_citems in Hit0. cbn [citems] in Hit0.
      now rewrite lookup_delete_eq in Hit0.
    + apply Htail; [|exact Hlive'|exact Ho].
      subst w'. cbn [heap]. rewrite lookup_insert_ne; [exact Hbr|].
      intros <-. contradiction.
Qed.

Lemma NoDup_omap_inj {A B} (f : A -> option B) (l : list A) :
  NoDup l ->
  (forall x y z, x ∈ l -> y ∈ l -> f x = Some z -> f y = Some z -> x = y) ->
  NoDup (omap f l).
Proof.
  induction l as [|a l IH]; intros Hnd Hinj; [constructor|].
  apply NoDup_cons in Hnd as [Ha Hnd]. cbn.
  assert (Hl : NoDup (omap f l)).
  { apply IH; [exact Hnd|]. intros x y z Hx Hy. apply Hinj; now right. }
  destruct (f a) as [b|] eqn:Efa; [|exact Hl].
  apply NoDup_cons. split; [|exact Hl].
  intros Hin. apply list_elem_of_omap in Hin as (x & Hx & Hfx).
  assert (a = x) by (apply (Hinj a x b); [now left | now right | exact Efa | exact Hfx]).
  subst x. contradiction.
Qed.

Lemma length_4 {A} (l : list A) : length l = 4%nat -> exists a b c d, l = [a; b; c; d].
Proof.
  destruct l as [|a [|b [|c [|d [|]]]]]; try discriminate. intros _. now exists a, b, c, d.
Qed.

(** The overlap query used on concrete states is sound. *)
Lemma bbox_overlapping_sound : overlap_sound bbox_overlapping.
Proof.
  intros c x0 y0 x1 y1. unfold bbox_overlapping. split.
  - apply NoDup_fst_map_to_list.
  - intros k Hk. apply list_elem_of_fmap in Hk as ([k' it] & -> & Hin).
    apply elem_of_map_to_list, map_lookup_filter_Some in Hin as [Hin _]. now exists it.
Qed.

Section Safety.

Variable find_overlapping : Canvas -> Q -> Q -> Q -> Q -> list Z.

Lemma check_collisions_run g b bl x0 y0 x1 y1 :
  ball g = Some b -> heap (world g) !! b = Some (OBall bl) ->
  coords (ball_item bl) (canvas (world g)) = [x0; y0; x1; y1] ->
  Game_check_collisions find_overlapping g =
    in_world (Ball_collide b (omap (fun x => items g !! x)
                                   (find_overlapping (canvas (world g)) x0 y0 x1 y1))) g.
Proof.
  intros Hball Hb Hc. unfold Game_check_collisions.
  assert (Hattr : attr ball g = (Ok b, g)) by (unfold attr; now rewrite Hball).
  rewrite (bind_ok _ _ _ _ _ Hattr).
  erewrite bind_ok by (apply in_world_run, get_position_ok, Hb).
  rewrite in_world_same. cbn [item]. rewrite Hc. reflexivity.
Qed.

Hypothesis Hsound : overlap_sound find_overlapping.

(** The objects [check_collisions] hands to [collide] are distinct and can
    collide. *)
Lemma collideables_live g x0 y0 x1 y1 :
  game_wf g ->
  NoDup (omap (fun x => items g !! x) (find_overlapping (canvas (world g)) x0 y0 x1 y1)) /\
  forall o,
    o ∈ omap (fun x => items g !! x) (find_overlapping (canvas (world g)) x0 y0 x1 y1) ->
    live (world g) o /\
    exists k ob, items g !! k = Some o /\ heap (world g) !! o = Some ob /\ item ob = k.
Proof.
  intros (W1 & W2 & _). destruct (Hsound (canvas (world g)) x0 y0 x1 y1) as [Hnd Hon].
  split.
  - apply NoDup_omap_inj; [exact Hnd|]. intros k1 k2 r _ _ H1 H2.
    destruct (W2 k1 r H1) as (_ & ob1 & Hh1 & Hi1 & _).
    destruct (W2 k2 r H2) as (_ & ob2 & Hh2 & Hi2 & _).
    rewrite Hh1 in Hh2. injection Hh2 as <-. congruence.
  - intros o Ho. apply list_elem_of_omap in Ho as (k & Hk & Hit).
    destruct (W2 k o Hit) as (_ & ob & Hh & Hi & Hnb & Hcanvas).
    destruct (Hon k Hk) as [it Hcit]. destruct (Hcanvas it Hcit) as [Hlen Hhits].
    split; [|now exists k, ob].
    split.
    + unfold entity_box, coords. rewrite Hh, Hi, Hcit.
      destruct (length_4 _ Hlen) as (a & b & c & d & ->). now eexists.
    + intros br Hbr. rewrite Hh in Hbr. injection Hbr as ->. now apply Hhits.
Qed.

(** What the collisions of a tick do to a game that satisfies the
    invariant. *)
Lemma check_collisions_effect (g : Game) :
  game_wf g ->
  (Game_check_collisions find_overlapping g).1 = Ok tt /\
  game_wf (Game_check_collisions find_overlapping g).2 /\
  (forall k r pd, items g !! k = Some r -> heap (world g) !! r = Some (OPaddle pd) ->
     citems (canvas (world (Game_check_collisions find_overlapping g).2)) !! k
       = citems (canvas (world g)) !! k).
Proof.
  intros Hwf. pose proof Hwf as (W1 & W2 & b & bl & Hball & Hb & Hlen & Hnone).
  destruct (length_4 _ Hlen) as (x0 & y0 & x1 & y1 & Hc).
  rewrite (check_collisions_run g b bl x0 y0 x1 y1 Hball Hb Hc).
  set (objs := omap (fun x => items g !! x)
                    (find_overlapping (canvas (world g)) x0 y0 x1 y1)).
  destruct (collideables_live g x0 y0 x1 y1 Hwf) as [Hnd Hobjs]. fold objs in Hnd, Hobjs.
  assert (Hbox : exists l t r u, forall o, objs = [o] ->
                                 entity_box (world g) o = Some (l, t, r, u)).
  { destruct objs as [|o [|o2 rest]] eqn:E.
    - exists 0%Q, 0%Q, 0%Q, 0%Q. discriminate.
    - destruct (Hobjs o) as [[[[[[l t] r] u] Hbox] _] _]; [now left|].
      exists l, t, r, u. now intros o' [= <-].
    - exists 0%Q, 0%Q, 0%Q, 0%Q. discriminate. }
  destruct Hbox as (l & t & r & u & Hone).
  unfold in_world, zoom.
  rewrite (Ball_collide_run _ _ _ _ _ _ _ _ _ _ _ _ Hb Hc Hone).
  match goal with |- context [hit_bricks objs ?w0] => set (w1 := w0) end.
  match type of w1 with _ => set (bl1 := with_direction bl
    (collide_direction_spec (length objs) ((x0 + x1) * (1 # 2)) l r (direction bl))) in * end.
  assert (Hother : forall o, o <> b -> heap w1 !! o = heap (world g) !! o).
  { intros o Ho. subst w1. wsimpl. now rewrite lookup_insert_ne. }
  assert (Hb1 : heap w1 !! b = Some (OBall bl1)) by (subst w1; wsimpl; apply lookup_insert_eq).
  assert (Hentry : forall k r' ob, items g !! k = Some r' -> heap (world g) !! r' = Some ob ->
                                  (forall bl', ob <> OBall bl') -> heap w1 !! r' = Some ob).
  { intros k r' ob _ Hr Hnb. rewrite Hother; [exact Hr|]. intros ->.
    rewrite Hb in Hr. injection Hr as <-. now destruct (Hnb bl). }
  assert (Hbrick : forall o br, heap w1 !! o = Some (OBrick br) ->
                                heap (world g) !! o = Some (OBrick br)).
  { intros o br Ho. destruct (decide (o = b)) as [->|Hne]; [congruence|].
    now rewrite <- Hother. }
  assert (Hlive1 : forall o br, o ∈ objs -> heap w1 !! o = Some (OBrick br) ->
                                1 <= hits br <= 3).
  { intros o br Ho Hbr. destruct (Hobjs o Ho) as [[_ Hl] _]. apply Hl, Hbrick, Hbr. }
  assert (Hitem : forall o br, o ∈ objs -> heap w1 !! o = Some (OBrick br) ->
                               items g !! brick_item br = Some o).
  { intros o br Ho Hbr. destruct (Hobjs o Ho) as [_ (k & ob & Hk & Hh & Hi)].
    apply Hbrick in Hbr. rewrite Hh in Hbr. injection Hbr as ->. cbn in Hi. now subst k. }
  destruct (hit_bricks_run objs w1 Hnd Hlive1) as (Hok & Hheap & Hframe).
  pose proof (hit_bricks_deletes objs w1 Hnd Hlive1) as Hdel.
  destruct (keeps_shrinks_hit_bricks (canvas (world g)) objs w1 (canvas_shrinks_refl _))
    as [Hnext Hsub].
  destruct (hit_bricks objs w1) as [res w'] eqn:Erun. cbn [fst snd] in *.
  split; [exact Hok|].
  split; [|intros k r' pd Hk Hr; cbn [world set_world]; apply Hframe;
           intros o br Ho Hbr <-; pose proof (Hitem o br Ho Hbr) as Hk';
           rewrite Hk in Hk'; injection Hk' as ->; apply Hbrick in Hbr; congruence].
  split; [|split].
  - intros k it Hk. cbn [world set_world] in *. rewrite Hnext.
    destruct (Hsub k it Hk) as (it0 & Hk0 & _). eapply W1, Hk0.
  - intros k r' Hk. cbn [items set_world] in Hk. cbn [world set_world].
    destruct (W2 k r' Hk) as (Hlt & ob & Hr & Hi & Hnb & Hcanvas).
    pose proof (Hentry k r' ob Hk Hr Hnb) as Hr1.
    split; [now rewrite Hnext|].
    exists (if decide (r' ∈ objs) then hit_obj ob else ob).
    split; [rewrite Hheap, Hr1; now case_decide|].
    split; [case_decide; [destruct ob|]; exact Hi|].
    split; [intros bl'; case_decide; [destruct ob|]; try discriminate; apply Hnb|].
    intros it Hit. destruct (Hsub k it Hit) as (it0 & Hk0 & Hco).
    destruct (Hcanvas it0 Hk0) as [Hl0 Hh0].
    split; [now rewrite Hco|].
    intros br' Hbr'. case_decide as Hin; [|now apply Hh0].
    destruct ob as [bl0|pd|br]; try discriminate. cbn in Hbr'. injection Hbr' as <-.
    specialize (Hh0 br eq_refl). cbn.
    destruct (decide (hits br = 1)) as [H1|H1]; [|lia].
    exfalso. cbn in Hi. rewrite <- Hi in Hit.
    rewrite (Hdel r' br Hin Hr1 H1) in Hit. discriminate.
  - exists b, bl1. cbn [world set_world ball items].
    split; [exact Hball|]. split.
    + rewrite Hheap, Hb1. now case_decide.
    + change (ball_item bl1) with (ball_item bl). split; [|exact Hnone].
      unfold coords. rewrite Hframe; [exact Hlen|].
      intros o br Ho Hbr Heq. apply (Hitem o br Ho) in Hbr. congruence.
Qed.

(** X8. In a game that satisfies the invariant ([Game.items] maps handles the
    canvas has given out to the paddle and the bricks they draw, a brick that
    is on the canvas has 1 to 3 hits left, and the ball is drawn by an item
    of its own), [Game.check_collisions] returns normally, for every overlap
    query that lists items of the canvas without repetition, and the
    invariant holds again afterwards: a brick is never hit after its item
    was deleted, so the failing colour lookup of [Brick.hit] is not
    reached. *)
Theorem check_collisions_safe (g : Game) :
  game_wf g ->
  (Game_check_collisions find_overlapping g).1 = Ok tt /\
  game_wf (Game_check_collisions find_overlapping g).2.
Proof.
  intros Hwf. destruct (check_collisions_effect g Hwf) as (Hok & Hwf1 & _).
  now split.
Qed.

End Safety.

(** The invariant looks at the world, [Game.items] and the ball only. *)
Lemma game_wf_ext g g' :
  world g' = world g -> items g' = items g -> ball g' = ball g ->
  game_wf g -> game_wf g'.
Proof.
  intros Hw Hi Hb (W1 & W2 & b & bl & Hball). unfold game_wf, ball_ok in *.
  rewrite Hw, Hi, Hb. eauto 10.
Qed.

Lemma ball_on_canvas g b bl :
  ball_ok g b bl -> is_Some (citems (canvas (world g)) !! ball_item bl).
Proof.
  intros (_ & _ & Hlen & _). unfold coords in Hlen.
  destruct (citems (canvas (world g)) !! ball_item bl); [now eexists | discriminate].
Qed.

(** Changing direction or speed of the ball keeps the invariant. *)
Lemma game_wf_set_ball g b bl bl' :
  game_wf g -> ball g = Some b -> heap (world g) !! b = Some (OBall bl) ->
  ball_item bl' = ball_item bl ->
  game_wf (set_world (set_heap (<[b := OBall bl']>)) g).
Proof.
  intros (W1 & W2 & b0 & bl0 & Hball0 & Hb0 & Hlen & Hnone) Hball Hb Hitem.
  rewrite Hball in Hball0. injection Hball0 as <-. rewrite Hb in Hb0. injection Hb0 as <-.
  split; [exact W1|]. split.
  - intros k r Hk. destruct (W2 k r Hk) as (Hlt & ob & Hr & Hrest).
    split; [exact Hlt|]. exists ob. split; [|exact Hrest].
    cbn. rewrite lookup_insert_ne; [exact Hr|].
    intros <-. rewrite Hb in Hr. injection Hr as <-. destruct Hrest as (_ & Hnb & _).
    now destruct (Hnb bl).
  - exists b, bl'. split; [exact Hball|]. split; [cbn; apply lookup_insert_eq|].
    rewrite Hitem. split; [exact Hlen | exact Hnone].
Qed.

(** Drawing a text keeps the invariant. *)
Lemma game_wf_create_text g x y t f :
  game_wf g -> game_wf (set_world (set_canvas (fun c => (create_text x y t f c).2)) g).
Proof.
  intros (W1 & W2 & b & bl & Hbok). pose proof Hbok as (Hball & Hb & Hlen & Hnone).
  split; [|split].
  - intros k it Hk. cbn in *. destruct (decide (next_id (canvas (world g)) = k)) as [<-|Hne]; [lia|].
    rewrite lookup_insert_ne in Hk by exact Hne. specialize (W1 k it Hk). lia.
  - intros k r Hk. destruct (W2 k r Hk) as (Hlt & ob & Hr & Hi & Hnb & Hcanvas).
    split; [cbn; lia|]. exists ob. split; [exact Hr|]. split; [exact Hi|]. split; [exact Hnb|].
    intros it Hit. cbn in Hit. rewrite lookup_insert_ne in Hit by lia. now apply Hcanvas.
  - exists b, bl. split; [exact Hball|]. split; [exact Hb|]. split; [|exact Hnone].
    destruct (ball_on_canvas _ _ _ Hbok) as [it Hit]. specialize (W1 _ _ Hit).
    unfold coords in *. cbn. now rewrite lookup_insert_ne by lia.
Qed.

(** Moving the ball keeps the invariant. *)
Lemma game_wf_move_ball g b bl dx dy :
  game_wf g -> ball g = Some b -> heap (world g) !! b = Some (OBall bl) ->
  game_wf (set_world (set_canvas (canvas_move (ball_item bl) dx dy)) g).
Proof.
  intros (W1 & W2 & b0 & bl0 & Hball0 & Hb0 & Hlen & Hnone) Hball Hb.
  rewrite Hball in Hball0. injection Hball0 as <-. rewrite Hb in Hb0. injection Hb0 as <-.
  split; [|split].
  - intros k it Hk. cbn in *. destruct (decide (ball_item bl = k)) as [<-|Hne].
    + rewrite lookup_alter_eq in Hk.
      destruct (citems (canvas (world g)) !! ball_item bl) as [it0|] eqn:E; [|discriminate].
      eapply W1, E.
    + rewrite lookup_alter_ne in Hk by exact Hne. eapply W1, Hk.
  - intros k r Hk. destruct (W2 k r Hk) as (Hlt & ob & Hr & Hi & Hnb & Hcanvas).
    split; [exact Hlt|]. exists ob. split; [exact Hr|]. split; [exact Hi|]. split; [exact Hnb|].
    intros it Hit. cbn in Hit, Hk.
    rewrite lookup_alter_ne in Hit by (intros E; rewrite E in Hnone; congruence).
    now apply Hcanvas.
  - exists b, bl. split; [exact Hball|]. split; [exact Hb|]. split; [|exact Hnone].
    cbn [world set_world canvas set_canvas]. rewrite coords_canvas_move_eq.
    destruct (length_4 _ Hlen) as (a0 & a1 & a2 & a3 & ->). reflexivity.
Qed.

Section Ticks.

Variable find_overlapping : Canvas -> Q -> Q -> Q -> Q -> list Z.
Hypothesis Hsound : overlap_sound find_overlapping.

(** What a tick does to a game that satisfies the invariant and whose ball
    has a speed. *)
Lemma game_loop_effect (g : Game) (b : ref) (bl : Ball) (s : Z) :
  game_wf g -> ball g = Some b -> heap (world g) !! b = Some (OBall bl) ->
  speed bl = Some s ->
  exists g' bl',
    Game_game_loop find_overlapping g = (Ok tt, g') /\
    game_wf g' /\
    ball g' = Some b /\ heap (world g') !! b = Some (OBall bl') /\
    items g' = items g /\
    ((speed bl' = None /\
      (timers g' = timers g \/ timers g' = timers g ++ [(1000, CbSetupGame)])) \/
     (speed bl' = Some s /\ lives g' = lives g /\
      timers g' = timers g ++ [(50, CbGameLoop)])) /\
    (forall k r pd, items g !! k = Some r -> heap (world g) !! r = Some (OPaddle pd) ->
       citems (canvas (world g')) !! k = citems (canvas (world g)) !! k).
Proof.
  intros Hwf Hball Hb Hs.
  destruct (check_collisions_effect find_overlapping Hsound g Hwf) as (Hok & Hwf1 & Hpad1).
  destruct (Game_check_collisions find_overlapping g) as [res g1] eqn:Hcc.
  cbn [fst snd] in *. subst res.
  destruct (check_collisions_frame _ _ _ _ _ _ Hb Hcc) as (Hframe & d1 & Hb1).
  destruct (same_frame_fields _ _ Hframe) as (Hlives & Hheight & Hball1 & Htimers & _ & Hitems).
  rewrite Hball in Hball1.
  set (bl1 := with_direction bl d1) in *.
  pose proof (game_loop_after_collisions find_overlapping g g1 b bl1 Hball1 Hb1 Hcc) as Hrun.
  assert (Hfrozen : game_wf (set_world (set_heap (<[b := OBall (with_speed bl1 None)]>)) g1))
    by (now apply (game_wf_set_ball g1 b bl1)).
  pose proof Hwf1 as (_ & W2 & b' & bl' & Hball' & Hb' & Hlen & Hnone).
  rewrite Hball1 in Hball'. injection Hball' as <-. rewrite Hb1 in Hb'. injection Hb' as <-.
  assert (Hkey : forall k r, items g !! k = Some r ->
                             k < next_id (canvas (world g1)) /\ k <> ball_item bl1).
  { intros k r Hk. rewrite <- Hitems in Hk. split; [apply (W2 k r Hk)|]. congruence. }
  assert (Htext : forall k r pd t, items g !! k = Some r ->
            heap (world g) !! r = Some (OPaddle pd) ->
            citems (create_text 300 200 t ("Helvetica", 40) (canvas (world g1))).2 !! k
              = citems (canvas (world g)) !! k).
  { intros k r pd t Hk Hr. destruct (Hkey k r Hk) as [Hlt _]. cbn.
    rewrite lookup_insert_ne by lia. now apply (Hpad1 k r pd). }
  destruct (length _ =? 0)%nat.
  - eexists _, (with_speed bl1 None). split; [exact Hrun|].
    split; [exact (game_wf_create_text _ 300 200 "You've won!" ("Helvetica", 40) Hfrozen)|].
    split; [exact Hball1|]. split; [cbn; apply lookup_insert_eq|].
    split; [exact Hitems|].
    split; [left; split; [reflexivity|]; left; exact Htimers|].
    intros k r pd Hk Hr. exact (Htext k r pd _ Hk Hr).
  - destruct (length_4 _ Hlen) as (x0 & y0 & x1 & y1 & Hc).
    rewrite Hc in Hrun. cbn [lookup list_lookup] in Hrun.
    destruct (Qleb (inject_Z (height g1)) y1).
    + cbv zeta in Hrun. destruct (lives g1 - 1 <? 0).
      * eexists _, (with_speed bl1 None). split; [exact Hrun|]. split.
        { apply (game_wf_create_text _ 300 200 "Game Over" ("Helvetica", 40)).
          eapply game_wf_ext; [| | |exact Hfrozen]; reflexivity. }
        split; [exact Hball1|]. split; [cbn; apply lookup_insert_eq|].
        split; [exact Hitems|].
        split; [left; split; [reflexivity|]; left; exact Htimers|].
        intros k r pd Hk Hr. exact (Htext k r pd _ Hk Hr).
      * eexists _, (with_speed bl1 None). split; [exact Hrun|]. split.
        { eapply game_wf_ext; [| | |exact Hfrozen]; reflexivity. }
        split; [exact Hball1|]. split; [cbn; apply lookup_insert_eq|].
        split; [exact Hitems|].
        split; [left; split; [reflexivity|]; right; cbn; now rewrite Htimers|].
        intros k r pd Hk Hr. exact (Hpad1 k r pd Hk Hr).
    + pose proof (Ball_update_run (world g1) b bl1 x0 y0 x1 y1 Hb1 Hc) as Hupd.
      cbv zeta in Hupd. change (speed bl1) with (speed bl) in Hupd. rewrite Hs in Hupd.
      erewrite bind_ok in Hrun by (apply in_world_run, Hupd).
      match type of Hupd with
      | _ = (_, set_canvas _ (set_heap (<[b := OBall ?b2]>) _)) => set (bl2 := b2) in *
      end.
      eexists _, bl2. split; [exact Hrun|]. split.
      { assert (Hset : game_wf (set_world (set_heap (<[b := OBall bl2]>)) g1))
          by exact (game_wf_set_ball g1 b bl1 bl2 Hwf1 Hball1 Hb1 eq_refl).
        assert (Hb2 : heap (world (set_world (set_heap (<[b := OBall bl2]>)) g1)) !! b
                      = Some (OBall bl2)) by (cbn; apply lookup_insert_eq).
        pose proof (game_wf_move_ball _ b bl2 (inject_Z ((direction bl2).1 * s))
                      (inject_Z ((direction bl2).2 * s)) Hset Hball1 Hb2) as Hmove.
        eapply game_wf_ext; [| | |exact Hmove]; reflexivity. }
      split; [exact Hball1|]. split; [cbn; apply lookup_insert_eq|].
      split; [exact Hitems|].
      split; [right; split; [exact Hs|]; split; [exact Hlives|]; cbn; now rewrite Htimers|].
      intros k r pd Hk Hr. destruct (Hkey k r Hk) as [_ Hne]. cbn.
      rewrite lookup_alter_ne by (intros E; apply Hne; symmetry; exact E).
      exact (Hpad1 k r pd Hk Hr).
Qed.

(** X9. A tick of a game that satisfies the invariant and whose ball has a
    speed never raises: [Game.game_loop] returns normally and the invariant
    holds again.  Either the ball is then frozen (speed None) and no further
    tick is scheduled (nothing on a win or at game over, [setup_game] after
    1000 ms otherwise), or the ball has the speed it had, the lives are
    unchanged and exactly the next tick is scheduled, after 50 ms. *)
Theorem game_loop_safe (g : Game) (b : ref) (bl : Ball) (s : Z) :
  game_wf g -> ball g = Some b -> heap (world g) !! b = Some (OBall bl) ->
  speed bl = Some s ->
  exists g' bl',
    Game_game_loop find_overlapping g = (Ok tt, g') /\
    game_wf g' /\
    ball g' = Some b /\ heap (world g') !! b = Some (OBall bl') /\
    items g' = items g /\
    ((speed bl' = None /\
      (timers g' = timers g \/ timers g' = timers g ++ [(1000, CbSetupGame)])) \/
     (speed bl' = Some s /\ lives g' = lives g /\
      timers g' = timers g ++ [(50, CbGameLoop)])).
Proof.
  intros Hwf Hball Hb Hs.
  destruct (game_loop_effect g b bl s Hwf Hball Hb Hs)
    as (g' & bl' & Hrun & Hwf' & Hball' & Hb' & Hitems & Hmode & _).
  exists g', bl'. repeat (split; [assumption|]). exact Hmode.
Qed.

End Ticks.

Lemma check_collisions_safe_witness :
  game_wfb game_at_brick = true /\
  (Game_check_collisions bbox_overlapping game_at_brick).1 = Ok tt /\
  game_wf (Game_check_collisions bbox_overlapping game_at_brick).2.
Proof.
  split; [reflexivity|].
  apply (check_collisions_safe bbox_overlapping bbox_overlapping_sound game_at_brick).
  apply game_wfb_spec. reflexivity.
Defined.

Lemma game_loop_safe_witness :
  game_wfb game_at_brick = true /\
  heap (world game_at_brick) !! 25%nat = Some (OBall (MkBall 26 10 (1, -1) (Some 10))) /\
  exists g' bl',
    Game_game_loop bbox_overlapping game_at_brick = (Ok tt, g') /\
    game_wf g' /\
    heap (world g') !! 25%nat = Some (OBall bl').
Proof.
  split; [reflexivity|]. split; [reflexivity|].
  destruct (game_loop_safe bbox_overlapping bbox_overlapping_sound game_at_brick 25
              (MkBall 26 10 (1, -1) (Some 10)) 10)
    as (g' & bl' & Hrun & Hwf & _ & Hb & _).
  - apply game_wfb_spec. reflexivity.
  - reflexivity.
  - reflexivity.
  - reflexivity.
  - exists g', bl'. split; [exact Hrun|]. split; [exact Hwf | exact Hb].
Defined.

(** ** The objects of the heap keep their class and their item *)

Lemma same_kind_refl o : same_kind o o.
Proof. now destruct o. Qed.

Lemma same_kind_trans o1 o2 o3 : same_kind o1 o2 -> same_kind o2 o3 -> same_kind o1 o3.
Proof. destruct o1, o2, o3; cbn; try tauto; congruence. Qed.

Lemma heap_like_refl w : heap_like (heap w) (next_ref w) w.
Proof.
  split; [reflexivity|]. intros r. destruct (heap w !! r) as [o|]; [|reflexivity].
  exists o. split; [reflexivity | apply same_kind_refl].
Qed.

Lemma heap_like_insert h0 n w r o o' :
  heap_like h0 n w -> heap w !! r = Some o -> same_kind o o' ->
  heap_like h0 n (set_heap (<[r := o']>) w).
Proof.
  intros [Hn Hh] Hr Hk. split; [exact Hn|]. intros r'. specialize (Hh r'). cbn.
  destruct (decide (r = r')) as [<-|Hne].
  - rewrite lookup_insert_eq. destruct (h0 !! r) as [o0|]; [|congruence].
    destruct Hh as (o1 & Ho1 & Hk1). rewrite Hr in Ho1. injection Ho1 as <-.
    exists o'. split; [reflexivity | eapply same_kind_trans; eassumption].
  - now rewrite lookup_insert_ne.
Qed.

Lemma keeps_like_canvas h0 n f : keeps (heap_like h0 n) (modify (set_canvas f)).
Proof. intros w Hw. exact Hw. Qed.

Lemma keeps_like_move h0 n r x y : keeps (heap_like h0 n) (GameObject_move r x y).
Proof. apply keeps_bind; [apply keeps_deref | intros o; apply keeps_like_canvas]. Qed.

Lemma keeps_like_delete h0 n r : keeps (heap_like h0 n) (GameObject_delete r).
Proof. apply keeps_bind; [apply keeps_deref | intros o; apply keeps_like_canvas]. Qed.

Lemma keeps_like_set_direction h0 n r f : keeps (heap_like h0 n) (set_direction r f).
Proof.
  intros w Hw. unfold set_direction, as_ball, bind, deref.
  destruct (heap w !! r) as [[b|p|b]|] eqn:Hr; cbn; try exact Hw.
  now apply (heap_like_insert _ _ _ _ (OBall b)).
Qed.

Lemma keeps_like_set_speed h0 n r s : keeps (heap_like h0 n) (set_speed r s).
Proof.
  intros w Hw. unfold set_speed, as_ball, bind, deref.
  destruct (heap w !! r) as [[b|p|b]|] eqn:Hr; cbn; try exact Hw.
  now apply (heap_like_insert _ _ _ _ (OBall b)).
Qed.

Lemma keeps_like_Brick_hit h0 n r : keeps (heap_like h0 n) (Brick_hit r).
Proof.
  intros w Hw. unfold Brick_hit, as_brick, bind, deref.
  destruct (heap w !! r) as [[bl|p|br]|] eqn:Hr; cbn; try exact Hw.
  assert (Hafter : heap_like h0 n (set_heap (<[r := OBrick
            (MkBrick (brick_item br) (brick_width br) (brick_height br) (hits br - 1))]>) w))
    by now apply (heap_like_insert _ _ _ _ (OBrick br)).
  destruct (hits br - 1 =? 0).
  - now apply keeps_like_delete.
  - destruct (COLORS !! (hits br - 1)); [now apply keeps_like_canvas | exact Hafter].
Qed.

Lemma keeps_like_Ball_collide h0 n r objs : keeps (heap_like h0 n) (Ball_collide r objs).
Proof.
  unfold Ball_collide. do 3 keeps_step. apply keeps_bind.
  - destruct (1 <? length objs)%nat; [apply keeps_like_set_direction|].
    destruct (length objs =? 1)%nat; [|apply keeps_ret].
    destruct objs as [|o objs]; [apply keeps_raise|].
    do 2 keeps_step.
    destruct (Qltb _ _); [apply keeps_like_set_direction|].
    keeps_step.
    destruct (Qltb _ _); apply keeps_like_set_direction.
  - intros _. apply keeps_for_each. intros o.
    apply keeps_bind; [apply keeps_gets|]. intros c. apply keeps_when, keeps_like_Brick_hit.
Qed.

Lemma keeps_like_Ball_update h0 n r : keeps (heap_like h0 n) (Ball_update r).
Proof.
  unfold Ball_update. do 3 keeps_step.
  apply keeps_bind.
  { destruct (Qleb _ _); [apply keeps_ret|]. keeps_step. apply keeps_ret. }
  intros at_side.
  apply keeps_bind; [apply keeps_when, keeps_like_set_direction | intros _].
  keeps_step.
  apply keeps_bind; [apply keeps_when, keeps_like_set_direction | intros _].
  apply keeps_bind; [solve [auto with keeps] | intros bl].
  destruct (speed bl); [apply keeps_like_move | apply keeps_raise].
Qed.

(** ** What the game loop never touches *)

Lemma keeps_world {A} (P : World -> Prop) (Q : Game -> Prop) (m : M World A) :
  keeps P m ->
  (forall g w, Q g -> Q (set_world (fun _ => w) g)) ->
  keeps (fun g => P (world g) /\ Q g) (in_world m).
Proof.
  intros Hm HQ g [HP Hg]. unfold in_world, zoom.
  specialize (Hm _ HP). destruct (m (world g)) as [r w']. cbn in *.
  split; [exact Hm | now apply HQ].
Qed.


Lemma fixed_attrs_refl g : fixed_attrs g g.
Proof. now repeat split. Qed.

Lemma keeps_like_on_canvas {A} h0 n (f : Canvas -> A * Canvas) :
  keeps (heap_like h0 n) (on_canvas f).
Proof. intros w Hw. unfold on_canvas. now destruct (f (canvas w)). Qed.

Section Frame.

Variable find_overlapping : Canvas -> Q -> Q -> Q -> Q -> list Z.
Variables (h0 : gmap nat obj) (n : nat) (g0 : Game).

Let steady_game (g : Game) : Prop := heap_like h0 n (world g) /\ fixed_attrs g0 g.

Lemma keeps_frame_world {A} (m : M World A) :
  keeps (heap_like h0 n) m -> keeps steady_game (in_world m).
Proof. intros Hm. apply keeps_world; [exact Hm|]. intros g w Hg. exact Hg. Qed.

Lemma keeps_frame_modify (f : Game -> Game) :
  (forall g, world (f g) = world g) -> (forall g, fixed_attrs g0 g -> fixed_attrs g0 (f g)) ->
  keeps steady_game (modify f).
Proof. intros Hw Hf g [H1 H2]. split; [cbn; now rewrite Hw | now apply Hf]. Qed.

Lemma keeps_frame_draw_text x y t size : keeps steady_game (Game_draw_text x y t size).
Proof. apply keeps_frame_world, keeps_like_on_canvas. Qed.

Lemma keeps_frame_after ms cb : keeps steady_game (after ms cb).
Proof. apply keeps_frame_modify; intros g; [reflexivity | now intros H]. Qed.

Lemma keeps_frame_check_collisions :
  keeps steady_game (Game_check_collisions find_overlapping).
Proof.
  unfold Game_check_collisions.
  apply keeps_bind; [apply keeps_attr | intros b].
  apply keeps_bind; [apply keeps_frame_world, keeps_get_position | intros pos].
  apply keeps_bind.
  { destruct pos as [|? [|? [|? [|? [|]]]]]; (apply keeps_raise || apply keeps_gets). }
  intros found. apply keeps_bind; [apply keeps_gets | intros objs].
  apply keeps_frame_world, keeps_like_Ball_collide.
Qed.

Lemma keeps_frame_game_loop : keeps steady_game (Game_game_loop find_overlapping).
Proof.
  unfold Game_game_loop.
  apply keeps_bind; [apply keeps_frame_check_collisions | intros _].
  apply keeps_bind; [apply keeps_gets | intros num].
  destruct (num =? 0)%nat.
  - apply keeps_bind; [apply keeps_attr | intros b].
    apply keeps_bind; [apply keeps_frame_world, keeps_like_set_speed | intros _].
    apply keeps_bind; [apply keeps_frame_draw_text | intros _; apply keeps_ret].
  - apply keeps_bind; [apply keeps_attr | intros b].
    apply keeps_bind; [apply keeps_frame_world, keeps_get_position | intros pos].
    apply keeps_bind; [apply keeps_index | intros bottom].
    apply keeps_bind; [apply keeps_gets | intros h].
    destruct (Qleb _ _).
    + apply keeps_bind; [apply keeps_frame_world, keeps_like_set_speed | intros _].
      apply keeps_bind;
        [apply keeps_frame_modify; intros g; [reflexivity | now intros H] | intros _].
      apply keeps_bind; [apply keeps_gets | intros l].
      destruct (l <? 0); [|apply keeps_frame_after].
      apply keeps_bind; [apply keeps_frame_draw_text | intros _; apply keeps_ret].
    + apply keeps_bind; [apply keeps_frame_world, keeps_like_Ball_update | intros _].
      apply keeps_frame_after.
Qed.

End Frame.

(** X10. Whatever the state of the game, and whether it returns or raises,
    [Game.game_loop] assigns none of [items], [ball], [paddle], [hud],
    [text], the key bindings, [width] and [height]; it creates no object,
    and every object is afterwards an object of the same class drawn by the
    same item, a paddle being unchanged. *)
Theorem game_loop_frame (find_overlapping : Canvas -> Q -> Q -> Q -> Q -> list Z) (g : Game) :
  fixed_attrs g (Game_game_loop find_overlapping g).2 /\
  heap_like (heap (world g)) (next_ref (world g)) (world (Game_game_loop find_overlapping g).2).
Proof.
  destruct (keeps_frame_game_loop find_overlapping (heap (world g)) (next_ref (world g)) g g)
    as [H1 H2]; [split; [apply heap_like_refl | apply fixed_attrs_refl]|].
  now split.
Qed.

(** ** Steps that keep the invariant *)

Lemma length_shift dx dy l : length (shift dx dy l) = length l.
Proof.
  assert (H : forall n l, (length l <= n)%nat -> length (shift dx dy l) = length l).
  { intros n. induction n as [|n IH]; intros [|x [|y l']] Hl; cbn in *; try reflexivity; try lia.
    rewrite IH by lia. reflexivity. }
  now apply (H (length l)).
Qed.

Lemma coords_alter_length f k k' c :
  (forall it, length (ci_coords (f it)) = length (ci_coords it)) ->
  length (coords k' (set_citems (alter f k) c)) = length (coords k' c).
Proof.
  intros Hf. unfold coords, set_citems. cbn.
  destruct (decide (k = k')) as [<-|Hne].
  - rewrite lookup_alter_eq. destruct (citems c !! k); cbn; [apply Hf | reflexivity].
  - now rewrite lookup_alter_ne.
Qed.

Lemma shift_item_length dx dy it :
  length (ci_coords (shift_item dx dy it)) = length (ci_coords it).
Proof. apply length_shift. Qed.

Lemma game_wf_alter g f k :
  (forall it, length (ci_coords (f it)) = length (ci_coords it)) ->
  game_wf g -> game_wf (set_world (set_canvas (set_citems (alter f k))) g).
Proof.
  intros Hf (W1 & W2 & b & bl & Hball & Hb & Hlen & Hnone).
  split; [|split].
  - intros k' it Hk. cbn in *. destruct (decide (k = k')) as [<-|Hne].
    + rewrite lookup_alter_eq in Hk. destruct (citems (canvas (world g)) !! k) eqn:E;
        [|discriminate]. eapply W1, E.
    + rewrite lookup_alter_ne in Hk by exact Hne. eapply W1, Hk.
  - intros k' r Hk. destruct (W2 k' r Hk) as (Hlt & ob & Hr & Hi & Hnb & Hcanvas).
    split; [exact Hlt|]. exists ob. split; [exact Hr|]. split; [exact Hi|]. split; [exact Hnb|].
    intros it Hit. cbn in Hit. destruct (decide (k = k')) as [<-|Hne].
    + rewrite lookup_alter_eq in Hit.
      destruct (citems (canvas (world g)) !! k) as [it0|] eqn:E; [|discriminate].
      injection Hit as <-. rewrite Hf. now apply Hcanvas.
    + rewrite lookup_alter_ne in Hit by exact Hne. now apply Hcanvas.
  - exists b, bl. split; [exact Hball|]. split; [exact Hb|]. split; [|exact Hnone].
    cbn [world set_world canvas set_canvas]. now rewrite coords_alter_length.
Qed.

Lemma game_wf_delete g t :
  game_wf g -> (forall b bl, ball_ok g b bl -> t <> ball_item bl) ->
  game_wf (set_world (set_canvas (canvas_delete t)) g).
Proof.
  intros (W1 & W2 & b & bl & Hbok) Ht. pose proof Hbok as (Hball & Hb & Hlen & Hnone).
  split; [|split].
  - intros k it Hk. cbn in Hk. apply lookup_delete_Some in Hk as [_ Hk]. eapply W1, Hk.
  - intros k r Hk. destruct (W2 k r Hk) as (Hlt & ob & Hr & Hi & Hnb & Hcanvas).
    split; [exact Hlt|]. exists ob. split; [exact Hr|]. split; [exact Hi|]. split; [exact Hnb|].
    intros it Hit. cbn in Hit. apply lookup_delete_Some in Hit as [_ Hit]. now apply Hcanvas.
  - exists b, bl. split; [exact Hball|]. split; [exact Hb|]. split; [|exact Hnone].
    unfold coords in *. cbn. rewrite lookup_delete_ne; [exact Hlen|]. now apply (Ht b bl).
Qed.

Lemma game_wf_set_paddle g p pd v :
  game_wf g -> heap (world g) !! p = Some (OPaddle pd) ->
  game_wf (set_world (set_heap (<[p := OPaddle (MkPaddle (paddle_item pd) (paddle_width pd)
                                                          (paddle_height pd) v)]>)) g).
Proof.
  intros (W1 & W2 & b & bl & Hball & Hb & Hlen & Hnone) Hp.
  split; [exact W1|]. split.
  - intros k r Hk. destruct (W2 k r Hk) as (Hlt & ob & Hr & Hi & Hnb & Hcanvas).
    split; [exact Hlt|]. cbn. destruct (decide (p = r)) as [<-|Hne].
    + rewrite Hp in Hr. injection Hr as <-. eexists. split; [apply lookup_insert_eq|].
      split; [exact Hi|]. split; [discriminate|].
      intros it Hit. destruct (Hcanvas it Hit) as [Hl _]. split; [exact Hl | discriminate].
    + exists ob. rewrite lookup_insert_ne by exact Hne.
      split; [exact Hr|]. split; [exact Hi|]. split; [exact Hnb | exact Hcanvas].
  - exists b, bl. split; [exact Hball|]. split; [|split; [exact Hlen | exact Hnone]].
    cbn. rewrite lookup_insert_ne; [exact Hb|]. intros <-. congruence.
Qed.

Lemma heap_wf_insert w r o o' :
  heap_wf w -> heap w !! r = Some o -> heap_wf (set_heap (<[r := o']>) w).
Proof.
  intros Hw Hr r' o'' H. cbn in *. destruct (decide (r = r')) as [<-|Hne].
  - eapply Hw, Hr.
  - rewrite lookup_insert_ne in H by exact Hne. eapply Hw, H.
Qed.

Lemma paddle_ok_canvas g g' p pd :
  paddle_ok g p pd ->
  paddle g' = paddle g -> heap (world g') = heap (world g) -> items g' = items g ->
  ball g' = ball g ->
  length (coords (paddle_item pd) (canvas (world g')))
    = length (coords (paddle_item pd) (canvas (world g))) ->
  paddle_ok g' p pd.
Proof.
  intros (H1 & H2 & H3 & H4 & H5) Ep Eh Ei Eb El. unfold paddle_ok.
  rewrite Ep, Eh, Ei, Eb, El. now repeat split.
Qed.

Lemma base_ext g g' :
  world g' = world g -> items g' = items g -> ball g' = ball g -> paddle g' = paddle g ->
  base g -> base g'.
Proof.
  intros Hw Hi Hb Hp (Hwf & Hh & p & pd & Hpad). split; [|split].
  - now apply (game_wf_ext g g').
  - now rewrite Hw.
  - exists p, pd. apply (paddle_ok_canvas g g'); try assumption; now rewrite Hw.
Qed.

Lemma base_alter g f k :
  (forall it, length (ci_coords (f it)) = length (ci_coords it)) ->
  base g -> base (set_world (set_canvas (set_citems (alter f k))) g).
Proof.
  intros Hf (Hwf & Hh & p & pd & Hpad). split; [|split].
  - now apply game_wf_alter.
  - exact Hh.
  - exists p, pd. apply (paddle_ok_canvas g); try assumption; try reflexivity.
    cbn [world set_world canvas set_canvas]. now apply coords_alter_length.
Qed.

Lemma key_on_canvas_lt g k :
  game_wf g -> is_Some (citems (canvas (world g)) !! k) -> k < next_id (canvas (world g)).
Proof. intros (W1 & _) [it Hit]. eapply W1, Hit. Qed.

Lemma coords_is_Some c k : length (coords k c) = 4%nat -> is_Some (citems c !! k).
Proof. unfold coords. destruct (citems c !! k); [now eexists | discriminate]. Qed.

Lemma base_create_text g x y t f :
  base g -> base (set_world (set_canvas (fun c => (create_text x y t f c).2)) g).
Proof.
  intros (Hwf & Hh & p & pd & Hpad). split; [|split].
  - now apply game_wf_create_text.
  - exact Hh.
  - exists p, pd. apply (paddle_ok_canvas g); try assumption; try reflexivity.
    destruct Hpad as (_ & _ & _ & Hlen & _).
    pose proof (key_on_canvas_lt g _ Hwf (coords_is_Some _ _ Hlen)) as Hlt.
    unfold coords. cbn. now rewrite lookup_insert_ne by lia.
Qed.

Lemma base_delete g t :
  base g -> (forall b bl, ball_ok g b bl -> t <> ball_item bl) -> items g !! t = None ->
  base (set_world (set_canvas (canvas_delete t)) g).
Proof.
  intros (Hwf & Hh & p & pd & Hpad) Ht Hnone. split; [|split].
  - now apply game_wf_delete.
  - exact Hh.
  - exists p, pd. apply (paddle_ok_canvas g); try assumption; try reflexivity.
    destruct Hpad as (_ & _ & Hitem & _).
    unfold coords. cbn. rewrite lookup_delete_ne; [reflexivity|]. intros ->. congruence.
Qed.

Lemma base_set_paddle_ball g p pd v :
  base g -> paddle g = Some p -> heap (world g) !! p = Some (OPaddle pd) ->
  (forall r, v = Some r -> ball g = Some r) ->
  base (set_world (set_heap (<[p := OPaddle (MkPaddle (paddle_item pd) (paddle_width pd)
                                                       (paddle_height pd) v)]>)) g).
Proof.
  intros (Hwf & Hh & p0 & pd0 & Hp0 & Hpd0 & Hitem & Hlen & Hcarry) Hp Hpd Hv.
  rewrite Hp in Hp0. injection Hp0 as <-. rewrite Hpd in Hpd0. injection Hpd0 as <-.
  split; [|split].
  - now apply game_wf_set_paddle.
  - eapply heap_wf_insert; eassumption.
  - eexists p, _. split; [exact Hp|]. split; [cbn; apply lookup_insert_eq|].
    split; [exact Hitem|]. split; [exact Hlen | exact Hv].
Qed.

(** ** The handlers keep the invariant *)

Lemma awaiting_ext g g' :
  timers g' = timers g -> text g' = text g -> ball g' = ball g ->
  heap (world g') = heap (world g) -> items g' = items g ->
  awaiting g -> awaiting g'.
Proof.
  intros Et Ex Eb Eh Ei (Ht & t & b & bl & s & H). unfold awaiting.
  rewrite Et, Ex, Eb, Eh, Ei. split; [exact Ht|]. now exists t, b, bl, s.
Qed.

Lemma mode_ext g g' :
  timers g' = timers g -> text g' = text g -> ball g' = ball g ->
  heap (world g') = heap (world g) -> items g' = items g -> bindings g' = bindings g ->
  bindings_ok g /\ timers_ok g -> bindings_ok g' /\ timers_ok g'.
Proof.
  intros Et Ex Eb Eh Ei Ebd [Hb Ht]. split.
  - intros k cb Hk. rewrite Ebd in Hk. destruct (Hb k cb Hk) as [H|(H1 & H2 & H3)];
      [now left | right]. split; [exact H1|]. split; [exact H2|].
    now apply (awaiting_ext g g').
  - unfold timers_ok in *. now rewrite Et, Eb, Eh.
Qed.

Lemma no_start_inv g : base g -> no_start g -> timers_ok g -> game_inv g.
Proof.
  intros Hb Hn Ht. split; [exact Hb|]. split; [|exact Ht].
  intros k cb Hk. left. eapply Hn, Hk.
Qed.

Lemma inv_no_start g : game_inv g -> timers g <> [] -> no_start g.
Proof.
  intros (_ & Hb & _) Ht k cb Hk. destruct (Hb k cb Hk) as [H|(_ & _ & Ha & _)];
    [exact H | contradiction].
Qed.

Section Handlers.

Variable find_overlapping : Canvas -> Q -> Q -> Q -> Q -> list Z.
Hypothesis Hsound : overlap_sound find_overlapping.

Lemma game_loop_inv g b bl s :
  base g -> no_start g -> timers g = [] ->
  ball g = Some b -> heap (world g) !! b = Some (OBall bl) -> speed bl = Some s ->
  exists g', Game_game_loop find_overlapping g = (Ok tt, g') /\ game_inv g'.
Proof.
  intros (Hwf & Hh & p & pd & Hp & Hpd & Hitem & Hlen & Hcarry) Hns Ht Hball Hb Hs.
  destruct (game_loop_effect find_overlapping Hsound g b bl s Hwf Hball Hb Hs)
    as (g' & bl' & Hrun & Hwf' & Hball' & Hb' & Hitems & Hmode & Hpad).
  destruct (keeps_frame_game_loop find_overlapping (heap (world g)) (next_ref (world g)) g g)
    as [[Hnext Hlike] Hfix]; [split; [apply heap_like_refl | apply fixed_attrs_refl]|].
  rewrite Hrun in Hnext, Hlike, Hfix. cbn [snd] in *.
  destruct Hfix as (_ & _ & Hpaddle & _ & _ & Hbind & _).
  exists g'. split; [exact Hrun|]. apply no_start_inv.
  - split; [exact Hwf'|]. split.
    + intros r o Hr. specialize (Hlike r). rewrite Hnext.
      destruct (heap (world g) !! r) as [o0|] eqn:E; [eapply Hh, E | congruence].
    + exists p, pd. split; [congruence|]. split.
      * specialize (Hlike p). rewrite Hpd in Hlike. destruct Hlike as (o' & Ho' & Hk).
        destruct o'; cbn in Hk; try contradiction. now subst.
      * split; [congruence|]. split; [|intros r Hr; rewrite Hball'; rewrite <- Hball; auto].
        unfold coords. now rewrite (Hpad _ _ _ Hitem Hpd).
  - intros k cb Hk. rewrite Hbind in Hk. eapply Hns, Hk.
  - rewrite Ht in Hmode. destruct Hmode as [[_ [Hm|Hm]]|(Hs' & _ & Hm)].
    + left. congruence.
    + right. left. now exists 1000.
    + right. right. now exists 50, b, bl', s.
Qed.

Lemma paddle_move_inv g offset :
  game_inv g ->
  exists g', run_callback find_overlapping (CbPaddleMove offset) g = (Ok tt, g') /\ game_inv g'.
Proof.
  intros (Hbase & Hmode). pose proof Hbase as (Hwf & Hh & p & pd & Hp & Hpd & Hitem & Hlen & Hcarry).
  destruct (length_4 _ Hlen) as (x0 & y0 & x1 & y1 & Hc).
  cbn [run_callback].
  assert (Hattr : attr paddle g = (Ok p, g)) by (unfold attr; now rewrite Hp).
  rewrite (bind_ok _ _ _ _ _ Hattr).
  pose proof (Paddle_move_run (world g) p pd x0 y0 x1 y1 (inject_Z offset) Hpd Hc) as Hrun.
  destruct (Qleb 0 (x0 + inject_Z offset) &&
            Qleb (x1 + inject_Z offset) (inject_Z (winfo_width (canvas (world g))))).
  - rewrite (bind_ok _ _ _ _ _ (GameObject_move_run _ _ _ _ _ Hpd)) in Hrun. cbn [item] in Hrun.
    erewrite bind_ok in Hrun by (apply as_paddle_ok; exact Hpd).
    assert (Hstep1 : base (set_world (set_canvas (canvas_move (paddle_item pd)
                                                   (inject_Z offset) 0)) g))
      by (apply (base_alter g); [apply shift_item_length | exact Hbase]).
    destruct (paddle_ball pd) as [r|] eqn:Hpb.
    + pose proof Hwf as (_ & _ & b & bl & Hball & Hb & _).
      rewrite (Hcarry r eq_refl) in Hball. injection Hball as <-.
      erewrite GameObject_move_run in Hrun by exact Hb. cbn [item] in Hrun.
      eexists. split; [apply in_world_run, Hrun|]. split.
      * pose proof (base_alter _ (shift_item (inject_Z offset) 0) (ball_item bl)
                      (shift_item_length _ _) Hstep1) as Hstep2.
        eapply base_ext; [| | | |exact Hstep2]; reflexivity.
      * apply (mode_ext g); try reflexivity. exact Hmode.
    + eexists. split; [apply in_world_run, Hrun|]. split.
      * eapply base_ext; [| | | |exact Hstep1]; reflexivity.
      * apply (mode_ext g); try reflexivity. exact Hmode.
  - eexists. split; [apply in_world_run, Hrun|]. rewrite in_world_same. now split.
Qed.

Lemma start_game_inv g :
  game_inv g -> awaiting g ->
  exists g', Game_start_game find_overlapping g = (Ok tt, g') /\ game_inv g'.
Proof.
  intros (Hbase & Hbind & _) (Ht & t & b & bl & s & Htext & Hball & Hb & Hs & Hne & Hnone).
  pose proof Hbase as (Hwf & Hh & p & pd & Hp & Hpd & Hitem & Hlen & Hcarry).
  unfold Game_start_game, canvas_unbind.
  unfold modify at 1. unfold bind at 1. cbv beta iota.
  set (g1 := set_bindings (delete "<space>") g).
  assert (Hattr : attr text g1 = (Ok t, g1)) by (unfold attr; cbn; now rewrite Htext).
  rewrite (bind_ok _ _ _ _ _ Hattr).
  unfold in_world at 1, zoom, modify. unfold bind at 1. cbv beta iota.
  match goal with |- context [bind (attr paddle) _ ?g0] => set (g2 := g0) end.
  assert (Hbase2 : base g2).
  { assert (Hdel : base (set_world (set_canvas (canvas_delete t)) g)).
    { apply (base_delete g t Hbase); [|exact Hnone].
      intros b' bl' (Hb1 & Hb2 & _). rewrite Hball in Hb1. injection Hb1 as <-.
      rewrite Hb in Hb2. now injection Hb2 as <-. }
    eapply base_ext; [| | | |exact Hdel]; reflexivity. }
  assert (Hattr2 : attr paddle g2 = (Ok p, g2)) by (unfold attr; cbn; now rewrite Hp).
  rewrite (bind_ok _ _ _ _ _ Hattr2).
  assert (Hpd2 : heap (world g2) !! p = Some (OPaddle pd)) by exact Hpd.
  erewrite bind_ok by (apply in_world_run, (Paddle_set_ball_run _ _ pd), Hpd2).
  match goal with |- context [Game_game_loop _ ?g0] => set (g3 := g0) end.
  assert (Hbase3 : base g3).
  { assert (Hset : base (set_world (set_heap (<[p := OPaddle
               (MkPaddle (paddle_item pd) (paddle_width pd) (paddle_height pd) None)]>)) g2))
      by (apply (base_set_paddle_ball g2 p pd None Hbase2 Hp Hpd2); discriminate).
    eapply base_ext; [| | | |exact Hset]; reflexivity. }
  apply (game_loop_inv g3 b bl s Hbase3).
  - intros k cb Hk. cbn in Hk. apply lookup_delete_Some in Hk as [Hk1 Hk].
    destruct (Hbind k cb Hk) as [H|(_ & H & _)]; [exact H | congruence].
  - exact Ht.
  - exact Hball.
  - cbn. rewrite lookup_insert_ne; [exact Hb|]. intros <-. congruence.
  - exact Hs.
Qed.

End Handlers.

(** ** Serving *)

Lemma GameObject_delete_run w r o :
  heap w !! r = Some o ->
  GameObject_delete r w = (Ok tt, set_canvas (canvas_delete (item o)) w).
Proof. intros H. unfold GameObject_delete. now rewrite (bind_ok _ _ _ _ _ (deref_ok _ _ _ H)). Qed.

(** [add_ball] in a game that has a ball and a drawn paddle. *)
Lemma Game_add_ball_run g b bl p pd x0 y0 x1 y1 :
  ball g = Some b -> heap (world g) !! b = Some (OBall bl) ->
  paddle g = Some p -> heap (world g) !! p = Some (OPaddle pd) ->
  coords (paddle_item pd) (canvas (world g)) = [x0; y0; x1; y1] ->
  paddle_item pd <> ball_item bl -> p <> next_ref (world g) ->
  Game_add_ball g =
    (Ok tt,
     set_ball (Some (next_ref (world g)))
       (set_world (fun w =>
          MkWorld (create_oval ((x0 + x1) * (1 # 2) - 10) (310 - 10)
                               ((x0 + x1) * (1 # 2) + 10) (310 + 10) "white"
                               (canvas_delete (ball_item bl) (canvas w))).2
                  (<[p := OPaddle (MkPaddle (paddle_item pd) (paddle_width pd)
                                            (paddle_height pd) (Some (next_ref w)))]>
                     (<[next_ref w := OBall (MkBall (next_id (canvas w)) 10 (1, -1) (Some 10))]>
                        (heap w)))
                  (S (next_ref w))) g)).
Proof.
  intros Hball Hb Hp Hpd Hc Hne Hnew.
  unfold Game_add_ball. unfold gets at 1. unfold bind at 1. cbv beta iota. rewrite Hball.
  erewrite bind_ok by (apply in_world_run, (GameObject_delete_run _ _ _ Hb)). cbn [item].
  set (g1 := set_world _ g).
  assert (Hattr : attr paddle g1 = (Ok p, g1)) by (unfold attr; cbn; now rewrite Hp).
  rewrite (bind_ok _ _ _ _ _ Hattr).
  assert (Hpd1 : heap (world g1) !! p = Some (OPaddle pd)) by exact Hpd.
  erewrite bind_ok by (apply in_world_run, get_position_ok, Hpd1).
  rewrite in_world_same. cbn [item].
  assert (Hc1 : coords (paddle_item pd) (canvas (world g1)) = [x0; y0; x1; y1]).
  { unfold coords in *. cbn. now rewrite lookup_delete_ne by congruence. }
  rewrite Hc1. unfold index. cbn [lookup list_lookup].
  change (bind (ret x0) ?k g1) with (k x0 g1). cbv beta.
  change (bind (ret x1) ?k g1) with (k x1 g1). cbv beta.
  erewrite bind_ok by (apply in_world_run, Ball_init_run).
  unfold modify at 1. unfold bind at 1. cbv beta iota.
  erewrite in_world_run; cycle 1.
  { apply (Paddle_set_ball_run _ _ pd). cbn [world set_world set_ball heap].
    rewrite lookup_insert_ne by (intros E; apply Hnew; symmetry; exact E). exact Hpd. }
  reflexivity.
Qed.

Lemma add_ball_base g :
  base g ->
  exists g' bl,
    Game_add_ball g = (Ok tt, g') /\ base g' /\
    ball g' = Some (next_ref (world g)) /\
    heap (world g') !! next_ref (world g) = Some (OBall bl) /\
    speed bl = Some 10 /\ ball_item bl = next_id (canvas (world g)) /\
    next_id (canvas (world g')) = next_id (canvas (world g)) + 1 /\
    items g' = items g /\ text g' = text g /\ bindings g' = bindings g /\
    timers g' = timers g.
Proof.
  intros (Hwf & Hh & p & pd & Hp & Hpd & Hitem & Hlen & Hcarry).
  pose proof Hwf as (W1 & W2 & b & bl & Hbok). pose proof Hbok as (Hball & Hb & Hblen & Hnone).
  destruct (length_4 _ Hlen) as (x0 & y0 & x1 & y1 & Hc).
  assert (Hne : paddle_item pd <> ball_item bl) by congruence.
  assert (Hnew : p <> next_ref (world g)) by (specialize (Hh p _ Hpd); lia).
  assert (Hnewb : b <> next_ref (world g)) by (specialize (Hh b _ Hb); lia).
  pose proof (key_on_canvas_lt g _ Hwf (coords_is_Some _ _ Hlen)) as Hplt.
  eexists _, _. split; [exact (Game_add_ball_run g b bl p pd x0 y0 x1 y1 Hball Hb Hp Hpd Hc Hne Hnew)|].
  cbn [world set_world set_ball heap canvas ball items text bindings timers next_id
       create_oval create_item snd fst canvas_delete set_citems citems].
  split; [|split; [reflexivity|]].
  2: { split; [rewrite lookup_insert_ne by exact Hnew; apply lookup_insert_eq|].
       now repeat split. }
  split; [|split].
  - (* game_wf *)
    split; [|split].
    + intros k it Hk. cbn in Hk.
      destruct (decide (next_id (canvas (world g)) = k)) as [<-|Hk'];
        [cbn; lia|]. rewrite lookup_insert_ne in Hk by exact Hk'.
      apply lookup_delete_Some in Hk as [_ Hk]. specialize (W1 k it Hk). cbn. lia.
    + intros k r Hk. cbn in Hk. destruct (W2 k r Hk) as (Hlt & ob & Hr & Hi & Hnb & Hcanvas).
      split; [cbn; lia|]. cbn.
      assert (Hcan : forall it,
                <[next_id (canvas (world g)) :=
                    CItem Oval [((x0 + x1) * (1 # 2) - 10)%Q; (310 - 10)%Q;
                                ((x0 + x1) * (1 # 2) + 10)%Q; (310 + 10)%Q] "white" [] "" None]>
                  (delete (ball_item bl) (citems (canvas (world g)))) !! k = Some it ->
                citems (canvas (world g)) !! k = Some it).
      { intros it Hit. rewrite lookup_insert_ne in Hit by lia.
        now apply lookup_delete_Some in Hit as [_ Hit]. }
      destruct (decide (p = r)) as [<-|Hpr].
      * rewrite Hpd in Hr. injection Hr as <-. eexists. split; [apply lookup_insert_eq|].
        split; [exact Hi|]. split; [discriminate|].
        intros it Hit. destruct (Hcanvas it (Hcan it Hit)) as [Hl _].
        split; [exact Hl | discriminate].
      * exists ob. rewrite lookup_insert_ne by exact Hpr.
        rewrite lookup_insert_ne by (specialize (Hh r _ Hr); lia).
        split; [exact Hr|]. split; [exact Hi|]. split; [exact Hnb|].
        intros it Hit. exact (Hcanvas it (Hcan it Hit)).
    + eexists _, _. split; [reflexivity|]. split.
      * cbn. rewrite lookup_insert_ne by exact Hnew. apply lookup_insert_eq.
      * cbn [ball_item]. split.
        -- unfold coords. cbn. now rewrite lookup_insert_eq.
        -- cbn. destruct (items g !! next_id (canvas (world g))) as [r|] eqn:E; [|reflexivity].
           destruct (W2 _ _ E) as [Hlt _]. lia.
  - (* heap_wf *)
    intros r o Hr. cbn in *. destruct (decide (p = r)) as [<-|Hpr].
    + specialize (Hh p _ Hpd). lia.
    + rewrite lookup_insert_ne in Hr by exact Hpr.
      destruct (decide (next_ref (world g) = r)) as [<-|Hnr]; [lia|].
      rewrite lookup_insert_ne in Hr by exact Hnr. specialize (Hh r _ Hr). lia.
  - (* paddle_ok *)
    eexists p, _. split; [exact Hp|]. split; [cbn; apply lookup_insert_eq|].
    cbn [paddle_item paddle_ball]. split; [exact Hitem|]. split.
    + unfold coords in *. cbn. rewrite lookup_insert_ne by lia.
      now rewrite lookup_delete_ne by congruence.
    + intros r [= <-]. reflexivity.
Qed.

Lemma same_but_canvas_refl g : same_but_canvas g g.
Proof. now repeat split. Qed.

Lemma set_text_length t it : length (ci_coords (set_text t it)) = length (ci_coords it).
Proof. reflexivity. Qed.

Lemma update_lives_text_base g :
  base g ->
  exists g',
    Game_update_lives_text g = (Ok tt, g') /\ base g' /\ same_but_canvas g g' /\
    next_id (canvas (world g)) <= next_id (canvas (world g')).
Proof.
  intros Hbase. unfold Game_update_lives_text. unfold gets, bind. cbv beta iota.
  destruct (hud g) as [h|].
  - unfold in_world, zoom, modify. cbv beta iota.
    eexists. split; [reflexivity|]. split; [|split; [now repeat split | cbn; lia]].
    pose proof (base_alter g (set_text (lives_text (lives g))) h (set_text_length _) Hbase) as H.
    eapply base_ext; [| | | |exact H]; reflexivity.
  - unfold Game_draw_text, in_world, zoom, on_canvas, modify. cbn.
    eexists. split; [reflexivity|]. split; [|split; [now repeat split | cbn; lia]].
    pose proof (base_create_text g 50 20 (lives_text (lives g)) ("Helvetica", 15) Hbase) as H.
    eapply base_ext; [| | | |exact H]; reflexivity.
Qed.

Lemma draw_text_base g x y t size :
  base g ->
  exists g',
    Game_draw_text x y t size g = (Ok (next_id (canvas (world g))), g') /\ base g' /\
    same_but_canvas g g'.
Proof.
  intros Hbase. unfold Game_draw_text, in_world, zoom, on_canvas. cbn.
  eexists. split; [reflexivity|]. split; [|now repeat split].
  pose proof (base_create_text g x y t ("Helvetica", size) Hbase) as H.
  eapply base_ext; [| | | |exact H]; reflexivity.
Qed.

(** What [add_ball] leaves besides: the new ball as [Ball.__init__] built
    it, carried by the paddle, and the item of the old ball gone. *)
Lemma add_ball_served g g' :
  base g -> Game_add_ball g = (Ok tt, g') ->
  heap (world g') !! next_ref (world g) =
    Some (OBall (MkBall (next_id (canvas (world g))) 10 (1, -1) (Some 10))) /\
  lives g' = lives g /\
  (exists p pd, paddle g' = Some p /\ heap (world g') !! p = Some (OPaddle pd) /\
                paddle_ball pd = Some (next_ref (world g))) /\
  (forall b0 bl0, ball g = Some b0 -> heap (world g) !! b0 = Some (OBall bl0) ->
                  citems (canvas (world g')) !! ball_item bl0 = None).
Proof.
  intros (Hwf & Hh & p & pd & Hp & Hpd & Hitem & Hlen & Hcarry) Hrun.
  pose proof Hwf as (W1 & W2 & b & bl & Hball & Hb & Hblen & Hnone).
  destruct (length_4 _ Hlen) as (x0 & y0 & x1 & y1 & Hc).
  assert (Hne : paddle_item pd <> ball_item bl) by congruence.
  assert (Hnew : p <> next_ref (world g)) by (specialize (Hh p _ Hpd); lia).
  pose proof (key_on_canvas_lt g _ Hwf (coords_is_Some _ _ Hblen)) as Hblt.
  rewrite (Game_add_ball_run g b bl p pd x0 y0 x1 y1 Hball Hb Hp Hpd Hc Hne Hnew) in Hrun.
  injection Hrun as <-.
  cbn [world set_world set_ball heap canvas ball items text bindings timers next_id lives paddle
       create_oval create_item snd fst canvas_delete set_citems citems].
  split; [rewrite lookup_insert_ne by exact Hnew; apply lookup_insert_eq|].
  split; [reflexivity|]. split.
  - eexists p, _. split; [exact Hp|]. split; [apply lookup_insert_eq | reflexivity].
  - intros b0 bl0 Hb0 Hbl0. rewrite Hball in Hb0. injection Hb0 as <-.
    rewrite Hb in Hbl0. injection Hbl0 as <-.
    rewrite lookup_insert_ne by lia. apply lookup_delete_eq.
Qed.

(** Drawing a text and updating the HUD leave absent the handles that were
    given out and are gone. *)
Lemma draw_text_absent g x y t size r g' k :
  Game_draw_text x y t size g = (r, g') ->
  k < next_id (canvas (world g)) -> citems (canvas (world g)) !! k = None ->
  citems (canvas (world g')) !! k = None.
Proof.
  unfold Game_draw_text, in_world, zoom, on_canvas. cbn. intros [= _ <-] Hk Hnone. cbn.
  rewrite lookup_insert_ne by lia. exact Hnone.
Qed.

Lemma draw_text_item g x y t size r g' :
  Game_draw_text x y t size g = (r, g') ->
  citems (canvas (world g')) !! next_id (canvas (world g)) =
    Some (CItem Text [x; y] "" [] t (Some ("Helvetica", size))).
Proof.
  unfold Game_draw_text, in_world, zoom, on_canvas. cbn. intros [= _ <-]. cbn.
  apply lookup_insert_eq.
Qed.

Lemma update_lives_text_absent g r g' k :
  Game_update_lives_text g = (r, g') ->
  k < next_id (canvas (world g)) -> citems (canvas (world g)) !! k = None ->
  citems (canvas (world g')) !! k = None.
Proof.
  unfold Game_update_lives_text. unfold gets, bind. cbv beta iota.
  destruct (hud g) as [h|].
  - unfold in_world, zoom, modify. cbv beta iota. intros [= _ <-] Hk Hnone. cbn.
    now apply lookup_alter_None.
  - unfold Game_draw_text, in_world, zoom, on_canvas, modify. cbn.
    intros [= _ <-] Hk Hnone. cbn. rewrite lookup_insert_ne by lia. exact Hnone.
Qed.

Lemma setup_game_inv g :
  base g -> no_start g -> timers g = [] ->
  exists g', Game_setup_game g = (Ok tt, g') /\ game_inv g' /\ awaiting g' /\
             bindings g' = <["<space>" := CbStartGame]> (bindings g) /\
             items g' = items g /\ lives g' = lives g /\
             ball g' = Some (next_ref (world g)) /\
             heap (world g') !! next_ref (world g) =
               Some (OBall (MkBall (next_id (canvas (world g))) 10 (1, -1) (Some 10))) /\
             (exists p pd, paddle g' = Some p /\ heap (world g') !! p = Some (OPaddle pd) /\
                           paddle_ball pd = Some (next_ref (world g))) /\
             (forall b0 bl0, ball g = Some b0 -> heap (world g) !! b0 = Some (OBall bl0) ->
                             citems (canvas (world g')) !! ball_item bl0 = None) /\
             (exists t, text g' = Some t /\
                        citems (canvas (world g')) !! t =
                          Some (CItem Text [300%Q; 200%Q] "" [] "Press Spacebar to start"
                                      (Some ("Helvetica", 40)))).
Proof.
  intros Hbase Hns Ht.
  destruct (add_ball_base g Hbase)
    as (g2 & bl & Hrun2 & Hbase2 & Hball2 & Hb2 & Hs & Hitem & Hnext2 & Hi2 & Hx2 & Hbd2 & Ht2).
  destruct (update_lives_text_base g2 Hbase2) as (g3 & Hrun3 & Hbase3 & Hsame3 & Hnext3).
  destruct (draw_text_base g3 300 200 "Press Spacebar to start" 40 Hbase3)
    as (g4 & Hrun4 & Hbase4 & Hsame4).
  destruct Hsame3 as (Hh3 & _ & Hi3 & Hb3 & Hp3 & Hx3 & Hbd3 & Ht3 & Hl3).
  destruct Hsame4 as (Hh4 & _ & Hi4 & Hb4 & Hp4 & Hx4 & Hbd4 & Ht4 & Hl4).
  destruct (add_ball_served g g2 Hbase Hrun2)
    as (Hnb & Hl2 & (p & pd & Hp2 & Hpd2 & Hcarry2) & Hold).
  unfold Game_setup_game.
  rewrite (bind_ok _ _ _ _ _ Hrun2), (bind_ok _ _ _ _ _ Hrun3), (bind_ok _ _ _ _ _ Hrun4).
  unfold canvas_bind, modify, bind. cbv beta iota.
  eexists. split; [reflexivity|].
  assert (Haw : awaiting (set_bindings (<["<space>" := CbStartGame]>)
                            (set_text_attr (Some (next_id (canvas (world g3)))) g4))).
  { split; [cbn; congruence|].
    exists (next_id (canvas (world g3))), (next_ref (world g)), bl, 10.
    cbn [text set_bindings set_text_attr ball world heap items].
    split; [reflexivity|]. split; [congruence|]. split; [congruence|]. split; [exact Hs|].
    split; [lia|].
    destruct (items g4 !! next_id (canvas (world g3))) as [r|] eqn:E; [|reflexivity].
    rewrite Hi4, Hi3, Hi2 in E. destruct Hbase as ((_ & W2 & _) & _).
    destruct (W2 _ _ E) as [Hlt _]. lia. }
  split; [|split; [exact Haw|]]; [split; [|split]|].
  - eapply base_ext; [| | | |exact Hbase4]; reflexivity.
  - intros k cb Hk. cbn in Hk. destruct (decide ("<space>" = k)) as [<-|Hne].
    + rewrite lookup_insert_eq in Hk. injection Hk as <-. right.
      split; [reflexivity|]. split; [reflexivity|]. exact Haw.
    + rewrite lookup_insert_ne in Hk by exact Hne. left.
      rewrite Hbd4, Hbd3, Hbd2 in Hk. eapply Hns, Hk.
  - left. cbn. congruence.
  - cbn [bindings items lives ball paddle text world set_bindings set_text_attr].
    split; [now rewrite Hbd4, Hbd3, Hbd2|]. split; [now rewrite Hi4, Hi3, Hi2|].
    split; [now rewrite Hl4, Hl3, Hl2|]. split; [now rewrite Hb4, Hb3|].
    split; [now rewrite Hh4, Hh3|]. split; [|split].
    + exists p, pd. rewrite Hp4, Hp3, Hh4, Hh3. now repeat split.
    + intros b0 bl0 Hb0 Hbl0.
      assert (Hlt : ball_item bl0 < next_id (canvas (world g))).
      { destruct Hbase as (Hwf & _). pose proof Hwf as (_ & _ & b & bl1 & Hball & Hb & Hblen & _).
        rewrite Hball in Hb0. injection Hb0 as <-. rewrite Hb in Hbl0. injection Hbl0 as <-.
        exact (key_on_canvas_lt g _ Hwf (coords_is_Some _ _ Hblen)). }
      apply (draw_text_absent _ _ _ _ _ _ _ _ Hrun4); [lia|].
      apply (update_lives_text_absent _ _ _ _ Hrun3); [lia|].
      exact (Hold b0 bl0 Hb0 Hbl0).
    + exists (next_id (canvas (world g3))). split; [reflexivity|].
      exact (draw_text_item _ _ _ _ _ _ _ Hrun4).
Qed.

(** ** The game from its construction on *)

Lemma heap_wfb_spec w : heap_wfb w = true -> heap_wf w.
Proof.
  unfold heap_wfb. rewrite all_entries_lookup. intros Hall r o Hr.
  specialize (Hall r o Hr). now apply Nat.ltb_lt in Hall.
Qed.

Lemma bindings_okb_spec g : bindings_okb g = true -> awaiting g -> bindings_ok g.
Proof.
  unfold bindings_okb. rewrite all_entries_lookup. intros Hall Ha k cb Hk.
  specialize (Hall k cb Hk). destruct cb; try discriminate.
  - right. apply String.eqb_eq in Hall. split; [reflexivity|]. split; [exact Hall | exact Ha].
  - left. now eexists.
Qed.

(** [Game.__init__] returns, whatever width the canvas reports, and leaves
    the game of [game0] on that canvas. *)
Lemma Game_init_run ww :
  Game_init ww = (Ok tt, set_world (set_canvas (set_winfo_width ww)) game0).
Proof. vm_compute. reflexivity. Qed.

Lemma Game_init_inv ww :
  game_inv (set_world (set_canvas (set_winfo_width ww)) game0) /\
  awaiting (set_world (set_canvas (set_winfo_width ww)) game0).
Proof.
  assert (Ha : awaiting (set_world (set_canvas (set_winfo_width ww)) game0)).
  { split; [reflexivity|].
    exists 28, 25%nat, (MkBall 26 10 (1, -1) (Some 10)), 10.
    repeat split; try reflexivity. discriminate. }
  split; [|exact Ha]. split; [|split].
  - split; [|split].
    + apply game_wfb_spec. vm_compute. reflexivity.
    + apply heap_wfb_spec. vm_compute. reflexivity.
    + exists 0%nat, (MkPaddle 1 80 10 (Some 25%nat)).
      repeat split; try reflexivity. intros r [= <-]. reflexivity.
  - apply bindings_okb_spec; [vm_compute; reflexivity | exact Ha].
  - left. reflexivity.
Qed.

Section Mainloop.

Variable find_overlapping : Canvas -> Q -> Q -> Q -> Q -> list Z.
Hypothesis Hsound : overlap_sound find_overlapping.

Lemma fire_inv g :
  game_inv g -> exists g', fire find_overlapping g = (Ok tt, g') /\ game_inv g'.
Proof.
  intros Hinv. pose proof Hinv as (Hbase & Hbd & Ht).
  unfold fire, next_callback, gets, bind. cbv beta iota.
  destruct Ht as [Ht|[(ms & Ht)|(ms & b & bl & s & Ht & Hball & Hb & Hs)]].
  - rewrite Ht. unfold ret. cbv beta iota. now exists g.
  - assert (Hns : no_start g) by (apply inv_no_start; [exact Hinv | now rewrite Ht]).
    rewrite Ht. unfold modify, ret. cbv beta iota. cbn [run_callback].
    destruct (setup_game_inv (set_timers (fun _ => []) g)) as (g' & Hrun & Hinv' & _).
    + eapply base_ext; [| | | |exact Hbase]; reflexivity.
    + exact Hns.
    + reflexivity.
    + now exists g'.
  - assert (Hns : no_start g) by (apply inv_no_start; [exact Hinv | now rewrite Ht]).
    rewrite Ht. unfold modify, ret. cbv beta iota. cbn [run_callback].
    apply (game_loop_inv find_overlapping Hsound _ b bl s);
      [eapply base_ext; [| | | |exact Hbase]; reflexivity
      | exact Hns | reflexivity | exact Hball | exact Hb | exact Hs].
Qed.

Lemma handle_event_inv ev g :
  game_inv g -> exists g', handle_event find_overlapping ev g = (Ok tt, g') /\ game_inv g'.
Proof.
  intros Hinv. destruct ev as [key|]; [|now apply fire_inv].
  unfold handle_event, gets, bind. cbv beta iota.
  destruct (bindings g !! key) as [cb|] eqn:Hk; [|now exists g].
  pose proof Hinv as (_ & Hbd & _).
  destruct (Hbd key cb Hk) as [(offset & ->)|(-> & _ & Ha)].
  - now apply paddle_move_inv.
  - cbn [run_callback]. now apply start_game_inv.
Qed.

Lemma mainloop_inv evs g :
  game_inv g -> exists g', mainloop find_overlapping evs g = (Ok tt, g') /\ game_inv g'.
Proof.
  unfold mainloop. revert g. induction evs as [|ev evs IH]; intros g Hinv.
  - now exists g.
  - destruct (handle_event_inv ev g Hinv) as (g1 & Hrun & Hinv1).
    destruct (IH g1 Hinv1) as (g' & Hrun' & Hinv').
    exists g'. split; [|exact Hinv']. cbn [for_each].
    now rewrite (bind_ok _ _ _ _ _ Hrun).
Qed.

End Mainloop.

Lemma no_startb_spec g : no_startb g = true -> no_start g.
Proof.
  unfold no_startb. rewrite all_entries_lookup. intros Hall k cb Hk.
  specialize (Hall k cb Hk). destruct cb; try discriminate. now eexists.
Qed.

Lemma base_b g p pd :
  game_wfb g = true -> heap_wfb (world g) = true -> paddle_ok g p pd -> base g.
Proof.
  intros H1 H2 H3. split; [now apply game_wfb_spec|]. split; [now apply heap_wfb_spec|].
  now exists p, pd.
Qed.

Lemma keeps_bindings_in_world {A} B (m : M World A) :
  keeps (fun g => bindings g = B) (in_world m).
Proof. intros g Hg. unfold in_world, zoom. destruct (m (world g)) as [r w']. exact Hg. Qed.

Lemma keeps_bindings_game_loop find_overlapping B :
  keeps (fun g => bindings g = B) (Game_game_loop find_overlapping).
Proof.
  intros s Hs.
  destruct (keeps_frame_game_loop find_overlapping (heap (world s)) (next_ref (world s)) s s)
    as [_ (_ & _ & _ & _ & _ & Hb & _)];
    [split; [apply heap_like_refl | apply fixed_attrs_refl]|].
  congruence.
Qed.

(** Whether it returns or raises, [start_game] unbinds the space bar and
    binds nothing. *)
Lemma start_game_bindings find_overlapping g :
  bindings (Game_start_game find_overlapping g).2 = delete "<space>" (bindings g).
Proof.
  unfold Game_start_game, canvas_unbind. unfold modify at 1. unfold bind at 1. cbv beta iota.
  set (g1 := set_bindings (delete "<space>") g).
  change (delete "<space>" (bindings g)) with (bindings g1).
  match goal with
  | |- bindings (?m g1).2 = _ => assert (K : keeps (fun s => bindings s = bindings g1) m)
  end.
  { apply keeps_bind; [apply keeps_attr | intros t].
    apply keeps_bind; [apply keeps_bindings_in_world | intros _].
    apply keeps_bind; [apply keeps_attr | intros p].
    apply keeps_bind; [apply keeps_bindings_in_world | intros _].
    apply keeps_bindings_game_loop. }
  now apply K.
Qed.

(** ** The game as a whole *)

(** X11. In a well-formed game with a ball and a drawn paddle, nothing
    scheduled and no key bound to [start_game], [Game.setup_game] returns
    normally.  It leaves the game well formed and waiting for the space
    bar, which it binds to [start_game]; the other bindings, [Game.items]
    and the lives are as they were.  The ball of the game is a new object,
    with direction (1, -1) and speed 10 and drawn by a new canvas item, and
    the paddle carries it; the item of the old ball is gone from the
    canvas; [Game.text] is the handle of a text item at (300, 200) that
    reads "Press Spacebar to start". *)
Theorem Game_setup_game_serves (g : Game) :
  base g -> no_start g -> timers g = [] ->
  exists g', Game_setup_game g = (Ok tt, g') /\ game_inv g' /\ awaiting g' /\
             bindings g' = <["<space>" := CbStartGame]> (bindings g) /\
             items g' = items g /\ lives g' = lives g /\
             ball g' = Some (next_ref (world g)) /\
             heap (world g') !! next_ref (world g) =
               Some (OBall (MkBall (next_id (canvas (world g))) 10 (1, -1) (Some 10))) /\
             (exists p pd, paddle g' = Some p /\ heap (world g') !! p = Some (OPaddle pd) /\
                           paddle_ball pd = Some (next_ref (world g))) /\
             (forall b0 bl0, ball g = Some b0 -> heap (world g) !! b0 = Some (OBall bl0) ->
                             citems (canvas (world g')) !! ball_item bl0 = None) /\
             (exists t, text g' = Some t /\
                        citems (canvas (world g')) !! t =
                          Some (CItem Text [300%Q; 200%Q] "" [] "Press Spacebar to start"
                                      (Some ("Helvetica", 40)))).
Proof. apply setup_game_inv. Qed.

Lemma Game_setup_game_serves_witness :
  no_startb (set_timers (fun _ => []) game_missed) = true /\
  ball game_missed = Some 25%nat /\
  heap (world game_missed) !! 25%nat = Some (OBall (MkBall 26 10 (-1, 1) None)) /\
  exists g', Game_setup_game (set_timers (fun _ => []) game_missed) = (Ok tt, g') /\
             game_inv g' /\ awaiting g' /\
             lives g' = 2 /\ ball g' = Some 26%nat /\
             citems (canvas (world g')) !! 26 = None.
Proof.
  split; [reflexivity|]. split; [reflexivity|]. split; [reflexivity|].
  destruct (Game_setup_game_serves (set_timers (fun _ => []) game_missed))
    as (g' & Hrun & Hinv & Ha & _ & _ & Hl & Hb & _ & _ & Hold & _).
  - apply (base_b _ 0%nat (MkPaddle 1 80 10 None)); [reflexivity | reflexivity |].
    repeat split; try reflexivity. discriminate.
  - apply no_startb_spec. reflexivity.
  - reflexivity.
  - exists g'. split; [exact Hrun|]. split; [exact Hinv|]. split; [exact Ha|].
    split; [exact Hl|]. split; [exact Hb|].
    exact (Hold 25%nat (MkBall 26 10 (-1, 1) None) eq_refl eq_refl).
Defined.

(** X12. In a state of the invariant that waits for the space bar,
    [Game.start_game] returns normally and keeps the invariant; afterwards
    the space bar is unbound and the other keys are bound as before, so a
    second press of the space bar runs nothing. *)
Theorem Game_start_game_launches
    (find_overlapping : Canvas -> Q -> Q -> Q -> Q -> list Z) (g : Game) :
  overlap_sound find_overlapping -> game_inv g -> awaiting g ->
  exists g', Game_start_game find_overlapping g = (Ok tt, g') /\ game_inv g' /\
             bindings g' = delete "<space>" (bindings g).
Proof.
  intros Hsound Hinv Ha.
  destruct (start_game_inv find_overlapping Hsound g Hinv Ha) as (g' & Hrun & Hinv').
  exists g'. split; [exact Hrun|]. split; [exact Hinv'|].
  pose proof (start_game_bindings find_overlapping g) as H. now rewrite Hrun in H.
Qed.

Lemma Game_start_game_launches_witness :
  exists g', Game_start_game bbox_overlapping game0 = (Ok tt, g') /\ game_inv g' /\
             bindings g' = delete "<space>" (bindings game0).
Proof.
  apply Game_start_game_launches.
  - exact bbox_overlapping_sound.
  - exact (proj1 (Game_init_inv 610)).
  - exact (proj2 (Game_init_inv 610)).
Defined.

(** X13. [Game.__init__] returns normally whatever width the canvas
    reports, and the game it builds does not depend on that width: it is
    the game built on a canvas 610 wide, on a canvas that reports the other
    width. That game satisfies the invariant and waits for the space bar;
    it has three lives, a paddle and 24 bricks in [Game.items], and 28
    canvas items. *)
Theorem Game_init_awaits (ww : Z) :
  exists g,
    Game_init ww = (Ok tt, g) /\
    g = set_world (set_canvas (set_winfo_width ww)) game0 /\
    game_inv g /\ awaiting g /\
    lives g = 3 /\ size (items g) = 25%nat /\ size (citems (canvas (world g))) = 28%nat /\
    winfo_width (canvas (world g)) = ww.
Proof.
  eexists. split; [apply Game_init_run|]. split; [reflexivity|].
  split; [apply Game_init_inv|]. split; [apply Game_init_inv|].
  repeat split; vm_compute; reflexivity.
Qed.

(** X14. The program never raises: for every width of the canvas,
    [Game.__init__] returns normally, and after it every sequence of key
    presses and timer expiries is handled without an exception, each
    handler leaving the game in a state of the invariant. *)
Theorem game_never_raises
    (find_overlapping : Canvas -> Q -> Q -> Q -> Q -> list Z) (ww : Z) (evs : list event) :
  overlap_sound find_overlapping ->
  exists g0 g',
    Game_init ww = (Ok tt, g0) /\
    mainloop find_overlapping evs g0 = (Ok tt, g') /\
    game_inv g'.
Proof.
  intros Hsound.
  destruct (mainloop_inv find_overlapping Hsound evs _ (proj1 (Game_init_inv ww)))
    as (g' & Hrun & Hinv).
  eexists _, g'. split; [apply Game_init_run|]. now split.
Qed.

Lemma game_never_raises_witness :
  exists g0 g',
    Game_init 610 = (Ok tt, g0) /\
    mainloop bbox_overlapping
      [KeyPress "<Left>"; KeyPress "<space>"; TimerExpired; KeyPress "<space>";
       KeyPress "a"; KeyPress "<Right>"; TimerExpired] g0 = (Ok tt, g') /\
    game_inv g'.
Proof. apply game_never_raises. exact bbox_overlapping_sound. Defined.

(** ** No counter above three, in any state of the game

    [bricks_bounded] holds of every state the program reaches: it holds of
    the empty heap, and every method keeps it, whether it returns or
    raises. *)

Lemma keeps_bounded_canvas f : keeps bricks_bounded (modify (set_canvas f)).
Proof. intros w Hw. exact Hw. Qed.

Lemma keeps_bounded_on_canvas {A} (f : Canvas -> A * Canvas) :
  keeps bricks_bounded (on_canvas f).
Proof. intros w Hw. unfold on_canvas. now destruct (f (canvas w)). Qed.

Lemma keeps_bounded_move r x y : keeps bricks_bounded (GameObject_move r x y).
Proof. apply keeps_bind; [apply keeps_deref | intros o; apply keeps_bounded_canvas]. Qed.

Lemma keeps_bounded_store r o :
  (forall b, o = OBrick b -> hits b <= 3) -> keeps bricks_bounded (store r o).
Proof. intros Ho w Hw. now apply bricks_bounded_insert. Qed.

Lemma keeps_bounded_alloc o :
  (forall b, o = OBrick b -> hits b <= 3) -> keeps bricks_bounded (alloc o).
Proof. intros Ho w Hw. now apply bricks_bounded_insert. Qed.

Lemma keeps_bounded_set_direction r f : keeps bricks_bounded (set_direction r f).
Proof.
  apply keeps_bind; [apply keeps_as_ball | intros b].
  apply keeps_bounded_store. discriminate.
Qed.

Lemma keeps_bounded_set_speed r s : keeps bricks_bounded (set_speed r s).
Proof.
  apply keeps_bind; [apply keeps_as_ball | intros b].
  apply keeps_bounded_store. discriminate.
Qed.

Lemma keeps_bounded_Ball_init x y : keeps bricks_bounded (Ball_init x y).
Proof.
  apply keeps_bind; [apply keeps_bounded_on_canvas | intros it].
  apply keeps_bounded_alloc. discriminate.
Qed.

Lemma keeps_bounded_Ball_collide r objs : keeps bricks_bounded (Ball_collide r objs).
Proof.
  unfold Ball_collide. do 3 keeps_step. apply keeps_bind.
  - destruct (1 <? length objs)%nat; [apply keeps_bounded_set_direction|].
    destruct (length objs =? 1)%nat; [|apply keeps_ret].
    destruct objs as [|o objs]; [apply keeps_raise|].
    do 2 keeps_step.
    destruct (Qltb _ _); [apply keeps_bounded_set_direction|].
    keeps_step.
    destruct (Qltb _ _); apply keeps_bounded_set_direction.
  - intros _. apply keeps_for_each. intros o.
    apply keeps_bind; [apply keeps_gets|]. intros c. apply keeps_when, bricks_bounded_Brick_hit.
Qed.

Lemma keeps_bounded_Ball_update r : keeps bricks_bounded (Ball_update r).
Proof.
  unfold Ball_update. do 3 keeps_step.
  apply keeps_bind.
  { destruct (Qleb _ _); [apply keeps_ret|]. keeps_step. apply keeps_ret. }
  intros at_side.
  apply keeps_bind; [apply keeps_when, keeps_bounded_set_direction | intros _].
  keeps_step.
  apply keeps_bind; [apply keeps_when, keeps_bounded_set_direction | intros _].
  apply keeps_bind; [solve [auto with keeps] | intros bl].
  destruct (speed bl); [apply keeps_bounded_move | apply keeps_raise].
Qed.

Lemma keeps_as_paddle P r : keeps P (as_paddle r).
Proof.
  apply keeps_bind; [apply keeps_deref|].
  intros [b|p|b]; (apply keeps_ret || apply keeps_raise).
Qed.

Lemma keeps_bounded_Paddle_init x y : keeps bricks_bounded (Paddle_init x y).
Proof.
  apply keeps_bind; [apply keeps_bounded_on_canvas | intros it].
  apply keeps_bounded_alloc. discriminate.
Qed.

Lemma keeps_bounded_Paddle_set_ball r b : keeps bricks_bounded (Paddle_set_ball r b).
Proof.
  apply keeps_bind; [apply keeps_as_paddle | intros p].
  apply keeps_bounded_store. discriminate.
Qed.

Lemma keeps_bounded_Paddle_move r offset : keeps bricks_bounded (Paddle_move r offset).
Proof.
  unfold Paddle_move. do 3 keeps_step.
  apply keeps_bind.
  { destruct (Qleb _ _); [|apply keeps_ret]. keeps_step. apply keeps_ret. }
  intros in_bounds. apply keeps_when.
  apply keeps_bind; [apply keeps_bounded_move | intros _].
  apply keeps_bind; [apply keeps_as_paddle | intros p].
  destruct (paddle_ball p); [apply keeps_bounded_move | apply keeps_ret].
Qed.

Section Bounded.

Variable find_overlapping : Canvas -> Q -> Q -> Q -> Q -> list Z.

Let bounded (g : Game) : Prop := bricks_bounded (world g).

Lemma keeps_bounded_world {A} (m : M World A) :
  keeps bricks_bounded m -> keeps bounded (in_world m).
Proof.
  intros Hm g Hg. unfold in_world, zoom. specialize (Hm _ Hg).
  now destruct (m (world g)).
Qed.

Lemma keeps_bounded_modify (f : Game -> Game) :
  (forall g, world (f g) = world g) -> keeps bounded (modify f).
Proof. intros Hf g Hg. unfold bounded. cbn. now rewrite Hf. Qed.

Lemma keeps_bounded_draw_text x y t size : keeps bounded (Game_draw_text x y t size).
Proof. apply keeps_bounded_world, keeps_bounded_on_canvas. Qed.

Lemma keeps_bounded_update_lives_text : keeps bounded Game_update_lives_text.
Proof.
  unfold Game_update_lives_text.
  apply keeps_bind; [apply keeps_gets | intros t].
  apply keeps_bind; [apply keeps_gets | intros [h|]].
  - apply keeps_bounded_world, keeps_bounded_canvas.
  - apply keeps_bind; [apply keeps_bounded_draw_text | intros h].
    now apply keeps_bounded_modify.
Qed.

Lemma keeps_bounded_add_ball : keeps bounded Game_add_ball.
Proof.
  unfold Game_add_ball.
  apply keeps_bind; [apply keeps_gets | intros old].
  apply keeps_bind.
  { destruct old; [apply keeps_bounded_world, bricks_bounded_delete | apply keeps_ret]. }
  intros _. apply keeps_bind; [apply keeps_attr | intros p].
  apply keeps_bind; [apply keeps_bounded_world, keeps_get_position | intros pos].
  apply keeps_bind; [apply keeps_index | intros c0].
  apply keeps_bind; [apply keeps_index | intros c2].
  apply keeps_bind; [apply keeps_bounded_world, keeps_bounded_Ball_init | intros b].
  apply keeps_bind; [now apply keeps_bounded_modify | intros _].
  apply keeps_bounded_world, keeps_bounded_Paddle_set_ball.
Qed.

Lemma keeps_bounded_add_brick x y h : keeps bounded (Game_add_brick x y h).
Proof.
  unfold Game_add_brick.
  apply keeps_bind; [apply keeps_bounded_world, bricks_bounded_Brick_init | intros b].
  apply keeps_bind; [apply keeps_bounded_world, keeps_deref | intros o].
  now apply keeps_bounded_modify.
Qed.

Lemma keeps_bounded_setup_game : keeps bounded Game_setup_game.
Proof.
  unfold Game_setup_game.
  apply keeps_bind; [apply keeps_bounded_add_ball | intros _].
  apply keeps_bind; [apply keeps_bounded_update_lives_text | intros _].
  apply keeps_bind; [apply keeps_bounded_draw_text | intros t].
  apply keeps_bind; [now apply keeps_bounded_modify | intros _].
  now apply keeps_bounded_modify.
Qed.

Lemma keeps_bounded_check_collisions :
  keeps bounded (Game_check_collisions find_overlapping).
Proof.
  unfold Game_check_collisions.
  apply keeps_bind; [apply keeps_attr | intros b].
  apply keeps_bind; [apply keeps_bounded_world, keeps_get_position | intros pos].
  apply keeps_bind.
  { destruct pos as [|? [|? [|? [|? [|]]]]]; (apply keeps_raise || apply keeps_gets). }
  intros found. apply keeps_bind; [apply keeps_gets | intros objs].
  apply keeps_bounded_world, keeps_bounded_Ball_collide.
Qed.

Lemma keeps_bounded_game_loop : keeps bounded (Game_game_loop find_overlapping).
Proof.
  unfold Game_game_loop.
  apply keeps_bind; [apply keeps_bounded_check_collisions | intros _].
  apply keeps_bind; [apply keeps_gets | intros num].
  destruct (num =? 0)%nat.
  - apply keeps_bind; [apply keeps_attr | intros b].
    apply keeps_bind; [apply keeps_bounded_world, keeps_bounded_set_speed | intros _].
    apply keeps_bind; [apply keeps_bounded_draw_text | intros _; apply keeps_ret].
  - apply keeps_bind; [apply keeps_attr | intros b].
    apply keeps_bind; [apply keeps_bounded_world, keeps_get_position | intros pos].
    apply keeps_bind; [apply keeps_index | intros bottom].
    apply keeps_bind; [apply keeps_gets | intros h].
    destruct (Qleb _ _).
    + apply keeps_bind; [apply keeps_bounded_world, keeps_bounded_set_speed | intros _].
      apply keeps_bind; [now apply keeps_bounded_modify | intros _].
      apply keeps_bind; [apply keeps_gets | intros l].
      destruct (l <? 0); [|now apply keeps_bounded_modify].
      apply keeps_bind; [apply keeps_bounded_draw_text | intros _; apply keeps_ret].
    + apply keeps_bind; [apply keeps_bounded_world, keeps_bounded_Ball_update | intros _].
      now apply keeps_bounded_modify.
Qed.

Lemma keeps_bounded_start_game : keeps bounded (Game_start_game find_overlapping).
Proof.
  unfold Game_start_game.
  apply keeps_bind; [now apply keeps_bounded_modify | intros _].
  apply keeps_bind; [apply keeps_attr | intros t].
  apply keeps_bind; [apply keeps_bounded_world, keeps_bounded_canvas | intros _].
  apply keeps_bind; [apply keeps_attr | intros p].
  apply keeps_bind; [apply keeps_bounded_world, keeps_bounded_Paddle_set_ball | intros _].
  apply keeps_bounded_game_loop.
Qed.

Lemma keeps_bounded_init_body : keeps bounded Game_init_body.
Proof.
  unfold Game_init_body.
  apply keeps_bind; [apply keeps_gets | intros w].
  apply keeps_bind; [apply keeps_gets | intros y].
  apply keeps_bind; [apply keeps_bounded_world, keeps_bounded_Paddle_init | intros p].
  apply keeps_bind; [now apply keeps_bounded_modify | intros _].
  apply keeps_bind; [apply keeps_bounded_world, keeps_deref | intros po].
  apply keeps_bind; [now apply keeps_bounded_modify | intros _].
  apply keeps_bind.
  { apply keeps_for_each. intros x.
    apply keeps_bind; [apply keeps_bounded_add_brick | intros _].
    apply keeps_bind; [apply keeps_bounded_add_brick | intros _].
    apply keeps_bounded_add_brick. }
  intros _. apply keeps_bind; [now apply keeps_bounded_modify | intros _].
  apply keeps_bind; [apply keeps_bounded_setup_game | intros _].
  apply keeps_bind; [now apply keeps_bounded_modify | intros _].
  now apply keeps_bounded_modify.
Qed.

Lemma keeps_bounded_run_callback cb : keeps bounded (run_callback find_overlapping cb).
Proof.
  destruct cb as [| | |offset]; cbn [run_callback].
  - apply keeps_bounded_setup_game.
  - apply keeps_bounded_game_loop.
  - apply keeps_bounded_start_game.
  - apply keeps_bind; [apply keeps_attr | intros p].
    apply keeps_bounded_world, keeps_bounded_Paddle_move.
Qed.

Lemma keeps_bounded_handle_event ev : keeps bounded (handle_event find_overlapping ev).
Proof.
  destruct ev as [key|]; cbn [handle_event].
  - apply keeps_bind; [apply keeps_gets | intros [cb|]];
      [apply keeps_bounded_run_callback | apply keeps_ret].
  - unfold fire, next_callback. apply keeps_bind.
    + apply keeps_bind; [apply keeps_gets | intros [|[ms cb] rest]]; [apply keeps_ret|].
      apply keeps_bind; [now apply keeps_bounded_modify | intros _; apply keeps_ret].
    + intros [cb|]; [apply keeps_bounded_run_callback | apply keeps_ret].
Qed.

(** From the construction of the game on, whatever the keys pressed and the
    timers that expire, and whether a handler returns or raises, no brick
    has a counter above 3. *)
Lemma game_bricks_bounded ww evs :
  bricks_bounded (world ((Game_init_body ;;; mainloop find_overlapping evs) (Game_new ww)).2).
Proof.
  assert (K : keeps bounded (Game_init_body ;;; mainloop find_overlapping evs)).
  { apply keeps_bind; [apply keeps_bounded_init_body | intros _].
    apply keeps_for_each, keeps_bounded_handle_event. }
  apply K. intros r b Hr. cbn in Hr. now rewrite lookup_empty in Hr.
Qed.

End Bounded.
